(** * Contentfully: the content graph resolver of [src/Contentfully.ts]

    A shallow embedding of the class [Contentfully]: the link index builder
    ([_createLinks], [_parseAssetByLocale], [_toMedia]), the entry resolver
    ([_parseEntries], [_parseEntry], [_parseValueByLocale], [_parseValue],
    [_dereferenceLink]), the locale flattener ([_flattenLocales]) and the
    query entry points ([_query], [getModels], [getModel]).

    Modelling conventions.
    - A JavaScript value is a [value]: the JSON payload is embedded as it is
      ([VObj] and [VArr] are objects and arrays that the code never mutates
      once another object points at them), and [VLoc l] is a reference to a
      mutable object of the [heap].  The objects stored in [links] and the
      contexts of the flattener live in the heap, so sharing and in-place
      mutation are explicit; two references are the same object exactly when
      their locations are equal.
    - A function is a [VFun]: an object of the heap too, which [typeof] and
      [String] tell from the others.  The only functions the code meets are
      the members of [Object.prototype], which [links[key]] finds for a key
      the index does not have.
    - Numbers are the integers a double holds exactly and [String] prints in
      full ([Z], below 2^53 in absolute value).  A string is its sequence of
      UTF-16 code units, of which the model has those below 256.
    - An object is its list of own enumerable properties in insertion order
      (keys that look like array indices are not moved to the front).  The
      index [links] apart, a property inherited from a prototype is not
      looked up: the other keys the code reads are fixed names and locale
      codes.  A record whose id is [__proto__] is indexed like the others:
      [links["__proto__"] = slot] makes the slot the prototype of the index
      and [links["__proto__"]] then answers that slot, as for a key; what
      the index would inherit from such a slot is not modelled.
    - A promise is modelled by the [result] it settles to.  [Throw] is a
      rejected promise or a thrown exception, [OutOfFuel] says that the
      recursion budget given to the evaluator was not enough: a run that
      is [OutOfFuel] for every budget is an unbounded recursion.
    - The client ([contentful.query], [contentful.getLocales]) and the
      [mediaTransform] hook are parameters; the hook is a function from the
      descriptor to a fresh descriptor or a failure. *)

From stdpp Require Import gmap strings list fin_maps.
From Stdlib Require Import ZArith Ascii DecimalString.

Set Warnings "-register-all".

Local Open Scope string_scope.

(** ** Values, objects and the heap *)

Inductive value : Type :=
| VUndef
| VNull
| VBool (b : bool)
| VNum (n : Z)
| VStr (s : string)
| VArr (items : list value)
| VObj (props : list (string * value))
| VLoc (l : nat)
| VFun (name : string) (l : nat).

Abbreviation obj := (list (string * value)).
Abbreviation heap := (list obj).

Inductive error : Type :=
| TypeError
| HookError (msg : string).

Inductive result (A : Type) : Type :=
| Ok (a : A)
| Throw (e : error)
| OutOfFuel.

Arguments Ok {A} a.
Arguments Throw {A} e.
Arguments OutOfFuel {A}.

(** Sequencing: [x ← r; k] runs [k] when [r] is [Ok] and stops otherwise. *)
#[global] Instance result_bind : MBind result := fun A B k r =>
  match r with
  | Ok a => k a
  | Throw e => Throw e
  | OutOfFuel => OutOfFuel
  end.

#[global] Instance result_ret : MRet result := fun A a => Ok a.

Definition is_ok {A : Type} (r : result A) : bool :=
  match r with Ok _ => true | _ => false end.

(** [for (const x of xs) body]: the loop stops at the first exception. *)
Fixpoint foldM {A S : Type} (f : S -> A -> result S) (l : list A) (s : S)
  : result S :=
  match l with
  | [] => Ok s
  | x :: l' => s' ← f s x; foldM f l' s'
  end.

(** ** Own properties *)

Fixpoint prop_get (o : obj) (k : string) : option value :=
  match o with
  | [] => None
  | (k', v) :: o' => if String.eqb k' k then Some v else prop_get o' k
  end.

(** [o[k] = v]: an existing key keeps its place, a new key goes last. *)
Fixpoint prop_set (o : obj) (k : string) (v : value) : obj :=
  match o with
  | [] => [(k, v)]
  | (k', v') :: o' =>
      if String.eqb k' k then (k', v) :: o' else (k', v') :: prop_set o' k v
  end.

(** [delete o[k]] *)
Fixpoint prop_delete (o : obj) (k : string) : obj :=
  match o with
  | [] => []
  | (k', v') :: o' =>
      if String.eqb k' k then prop_delete o' k else (k', v') :: prop_delete o' k
  end.

(** [_.assign(target, source)]: the own properties of [source], in order. *)
Definition assign (target source : obj) : obj :=
  fold_left (fun t kv => prop_set t (fst kv) (snd kv)) source target.

Definition heap_obj (h : heap) (l : nat) : obj := default [] (h !! l).

Definition heap_set (h : heap) (l : nat) (k : string) (v : value) : heap :=
  <[l := prop_set (heap_obj h l) k v]> h.

Definition alloc (h : heap) (o : obj) : nat * heap := (length h, (h ++ [o])%list).

(** ** Primitive operations of the language *)

Definition string_of_nat (n : nat) : string :=
  NilZero.string_of_uint (Nat.to_uint n).

Definition string_of_Z (n : Z) : string :=
  NilZero.string_of_int (Z.to_int n).

(** The array index a property key denotes, if it is one ("0", "17"; not
    "007", not "-1"). *)
Definition index_of_key (k : string) : option nat :=
  match NilZero.uint_of_string k with
  | Some d =>
      let n := Nat.of_uint d in
      if String.eqb (string_of_nat n) k then Some n else None
  | None => None
  end.

Fixpoint string_chars (s : string) : list value :=
  match s with
  | EmptyString => []
  | String c s' => VStr (String c EmptyString) :: string_chars s'
  end.

Definition indexed_get (l : list value) (k : string) : value :=
  if String.eqb k "length" then VNum (Z.of_nat (length l))
  else match index_of_key k with
       | Some i => default VUndef (l !! i)
       | None => VUndef
       end.

(** [v[k]] and [v.k] *)
Definition get_prop (h : heap) (v : value) (k : string) : result value :=
  match v with
  | VUndef | VNull => Throw TypeError
  | VBool _ | VNum _ => Ok VUndef
  | VStr s => Ok (indexed_get (string_chars s) k)
  | VArr l => Ok (indexed_get l k)
  | VObj o => Ok (default VUndef (prop_get o k))
  | VLoc l | VFun _ l => Ok (default VUndef (prop_get (heap_obj h l) k))
  end.

(** [v.k1.k2...kn] *)
Fixpoint get_path (h : heap) (v : value) (path : list string) : result value :=
  match path with
  | [] => Ok v
  | k :: path' => v' ← get_prop h v k; get_path h v' path'
  end.

Definition truthy (v : value) : bool :=
  match v with
  | VUndef | VNull => false
  | VBool b => b
  | VNum n => negb (n =? 0)%Z
  | VStr s => negb (String.eqb s "")
  | VArr _ | VObj _ | VLoc _ | VFun _ _ => true
  end.

(** [typeof v === "object"]; a function is not one. *)
Definition typeof_object (v : value) : bool :=
  match v with
  | VNull | VArr _ | VObj _ | VLoc _ => true
  | _ => false
  end.

(** [v == undefined] *)
Definition is_nullish (v : value) : bool :=
  match v with
  | VUndef | VNull => true
  | _ => false
  end.

Definition is_undefined (v : value) : bool :=
  match v with
  | VUndef => true
  | _ => false
  end.

Definition isArray (v : value) : bool :=
  match v with
  | VArr _ => true
  | _ => false
  end.

(** [v === "s"] *)
Definition str_is (v : value) (s : string) : bool :=
  match v with
  | VStr s' => String.eqb s' s
  | _ => false
  end.

Fixpoint join (sep : string) (l : list string) : string :=
  match l with
  | [] => ""
  | [s] => s
  | s :: l' => s +:+ sep +:+ join sep l'
  end.

(** [String(v)], which is also how a value becomes a property key. *)
Fixpoint to_string (v : value) : string :=
  match v with
  | VUndef => "undefined"
  | VNull => "null"
  | VBool true => "true"
  | VBool false => "false"
  | VNum n => string_of_Z n
  | VStr s => s
  | VArr l =>
      join "," (List.map (fun x => if is_nullish x then "" else to_string x) l)
  | VObj _ | VLoc _ => "[object Object]"
  | VFun name _ => "function " +:+ name +:+ "() { [native code] }"
  end.

(** ** The parts of lodash the class uses *)

(** lodash's [toString], which [_.replace] applies to its subject: [null]
    and [undefined] give the empty string, and inside an array they are
    spelled out. *)
Fixpoint baseToString (v : value) : string :=
  match v with
  | VArr l => join "," (List.map baseToString l)
  | _ => to_string v
  end.

Definition lodash_toString (v : value) : string :=
  if is_nullish v then "" else baseToString v.

Definition MAX_SAFE_INTEGER : Z := 9007199254740991%Z.

Definition own_props (h : heap) (v : value) : obj :=
  match v with
  | VObj o => o
  | VLoc l | VFun _ l => heap_obj h l
  | _ => []
  end.

Definition index_entries (l : list value) : obj :=
  imap (fun i x => (string_of_nat i, x)) l.

(** [Object.entries(v)] of a value that is not [null] or [undefined]. *)
Definition entries (h : heap) (v : value) : obj :=
  match v with
  | VArr l => index_entries l
  | VStr s => index_entries (string_chars s)
  | _ => own_props h v
  end.

(** [_.keys(v)] *)
Definition keys (h : heap) (v : value) : list string :=
  List.map fst (entries h v).

(** lodash's [isArrayLike] on an object: a numeric [length] property. *)
Definition array_like_length (o : obj) : option nat :=
  match prop_get o "length" with
  | Some (VNum n) =>
      if ((0 <=? n) && (n <=? MAX_SAFE_INTEGER))%Z then Some (Z.to_nat n) else None
  | _ => None
  end.

(** The (key, value) pairs [_.forEach(v, f)] and [_.map(v, f)] visit.  An
    array-like collection is walked by index, any other object by its own
    keys, [null] and [undefined] not at all. *)
Definition each (h : heap) (v : value) : obj :=
  match v with
  | VArr l => index_entries l
  | VStr s => index_entries (string_chars s)
  | VObj _ | VLoc _ =>
      let o := own_props h v in
      match array_like_length o with
      | Some n =>
          List.map (fun i => (string_of_nat i,
                               default VUndef (prop_get o (string_of_nat i))))
                   (seq 0 n)
      | None => o
      end
  | VFun _ _ => own_props h v
  | _ => []
  end.

(** [_.compact(l)] *)
Definition compact (l : list value) : list value := List.filter truthy l.

(** [_.isEmpty(v)] *)
Definition isEmpty (h : heap) (v : value) : bool :=
  match v with
  | VUndef | VNull | VBool _ | VNum _ => true
  | VStr s => String.eqb s ""
  | VArr l => match l with [] => true | _ => false end
  | VObj o => match o with [] => true | _ => false end
  | VLoc l | VFun _ l => match heap_obj h l with [] => true | _ => false end
  end.

(** [_.pick(v, ks)] *)
Definition pick (h : heap) (v : value) (ks : list string) : obj :=
  omap (fun k => match prop_get (own_props h v) k with
                 | Some x => Some (k, x)
                 | None => None
                 end) ks.

(** [_.get(v, "a.b")]: the whole path is tried as one key first; [null] and
    [undefined] on the way give [undefined]. *)
Fixpoint safe_path (h : heap) (v : value) (path : list string) : value :=
  match path with
  | [] => v
  | k :: path' =>
      match get_prop h v k with
      | Ok v' => safe_path h v' path'
      | _ => VUndef
      end
  end.

Definition lodash_get (h : heap) (v : value) (whole : string)
           (path : list string) : value :=
  match prop_get (own_props h v) whole with
  | Some x => x
  | None => safe_path h v path
  end.

(** [for (const x of v)]: arrays and strings are iterable, nothing else the
    payload can hold is. *)
Definition iterate (v : value) : result (list value) :=
  match v with
  | VArr l => Ok l
  | VStr s => Ok (string_chars s)
  | _ => Throw TypeError
  end.

(** ** Media resolver *)

(** The hook a caller may pass as [options.mediaTransform]: it receives the
    media descriptor and returns the transformed one, or fails. *)
Inductive hook_result : Type :=
| Transformed (media : obj)
| Failed (msg : string).

Abbreviation MediaTransform := (obj -> hook_result).

Definition _toMedia (h : heap) (sys fields : value)
           (mediaTransform : option MediaTransform) : result obj :=
  file ← get_prop h fields "file";
  description ← get_prop h fields "description";
  id ← get_prop h sys "id";
  url ← get_prop h file "url";
  contentType ← get_prop h file "contentType";
  details ← get_prop h file "details";
  image ← get_prop h details "image";
  size ← get_prop h details "size";
  version ← get_prop h sys "revision";
  let media :=
    [("_id", id); ("url", url); ("description", description);
     ("contentType", contentType);
     ("dimensions", VObj (pick h image ["width"; "height"]));
     ("size", size); ("version", version)] in
  match mediaTransform with
  | Some transform =>
      match transform media with
      | Transformed media' => Ok media'
      | Failed msg => Throw (HookError msg)
      end
  | None => Ok media
  end.

(** ** What every object inherits *)

(** The members of [Object.prototype].  The index [links] is created as
    [{}], so [links[key]] finds them for a key that is not a property of the
    index itself.  Each is a function, named after its key ([constructor] is
    [Object]), except [__proto__], whose getter answers [Object.prototype]
    itself. *)
Definition OBJECT_PROTOTYPE : list string :=
  ["constructor"; "__defineGetter__"; "__defineSetter__"; "hasOwnProperty";
   "__lookupGetter__"; "__lookupSetter__"; "isPrototypeOf";
   "propertyIsEnumerable"; "toString"; "valueOf"; "__proto__";
   "toLocaleString"].

Fixpoint position (key : string) (names : list string) : option nat :=
  match names with
  | [] => None
  | name :: names' =>
      if String.eqb name key then Some O else S <$> position key names'
  end.

(** These objects belong to the runtime, not to a query.  They are the first
    objects of the heap, in the order of [OBJECT_PROTOTYPE]; none has an
    enumerable property of its own before the code writes one. *)
Definition RUNTIME : heap := List.map (fun _ => []) OBJECT_PROTOTYPE.

(** The inherited member [key], with its place in the heap. *)
Definition inherited (key : string) : option (value * nat) :=
  match position key OBJECT_PROTOTYPE with
  | Some l =>
      Some (if String.eqb key "__proto__" then VLoc l
            else VFun (if String.eqb key "constructor" then "Object" else key) l,
            l)
  | None => None
  end.

(** [links[key]]: the object the index holds under [key], else the member of
    [Object.prototype] of that name, else [undefined]. *)
Definition index_get (links : gmap string nat) (key : string)
  : option (value * nat) :=
  match links !! key with
  | Some l => Some (VLoc l, l)
  | None => inherited key
  end.

(** ** Link index builder *)

(** [o.k = x] on an object held by value. *)
Definition set_in (o : value) (k : string) (x : value) : value :=
  match o with
  | VObj props => VObj (prop_set props k x)
  | _ => o
  end.

(** The inner callback of [_parseAssetByLocale]: the value of the field
    [key] at [locale] goes into the group of that locale, which is created
    with the [sys] of the asset when it is not there yet. *)
Definition pivot_locale (h : heap) (sys : value) (key : string) (field : value)
           (locales : obj) (locale : string) : result obj :=
  let locales :=
    if truthy (default VUndef (prop_get locales locale)) then locales
    else prop_set locales locale (VObj [("sys", sys); ("fields", VObj [])]) in
  let group := default VUndef (prop_get locales locale) in
  at_locale ← get_prop h field locale;
  group_fields ← get_prop h group "fields";
  Ok (prop_set locales locale
        (set_in group "fields" (set_in group_fields key at_locale))).

(** Pivot of an asset: field -> locale -> value becomes
    locale -> { sys, fields: field -> value }. *)
Definition _parseAssetByLocale (h : heap) (entry : value) : result obj :=
  fields ← get_prop h entry "fields";
  sys ← get_prop h entry "sys";
  foldM (fun locales kv =>
           foldM (pivot_locale h sys (fst kv) (snd kv)) (keys h (snd kv)) locales)
        (each h fields) [].

(** What [console.error] received: the message and the exception. *)
Abbreviation console := (list (string * error)).

Definition try_catch {A : Type} (body : result A) (handler : error -> result A)
  : result A :=
  match body with
  | Throw e => handler e
  | _ => body
  end.

Definition MEDIA_ERROR : string := "[_createLinks] error with creating media".

(** The [try] block of the callback [_createLinks] gives to
    [_.forEach(locales, ...)], up to its last assignment: the descriptor to
    store for the locale group [entry], with its [_id] pruned, or nothing
    when the group has no [file]. *)
Definition locale_descriptor (h : heap) (sys : value)
           (mediaTransform : option MediaTransform) (entry : value)
  : result (option obj) :=
  fields ← get_prop h entry "fields";
  file ← get_prop h fields "file";
  if truthy file then
    transformed ← _toMedia h sys fields mediaTransform;
    Ok (Some (prop_delete transformed "_id"))
  else Ok None.

(** The callback itself, for one asset in multi-locale mode; [media] is the
    locale map of the asset.  The callback is asynchronous and not awaited
    by the source: the model runs it to completion, so [media] is the map as
    it is once the callbacks have settled. *)
Definition locale_media (h : heap) (sys : value)
           (mediaTransform : option MediaTransform)
           (st : obj * console) (kv : string * value) : result (obj * console) :=
  let '(media, log) := st in
  let '(locale, entry) := kv in
  try_catch
    (descriptor ← locale_descriptor h sys mediaTransform entry;
     Ok (match descriptor with
         | Some transformed => (prop_set media locale (VObj transformed), log)
         | None => (media, log)
         end))
    (fun e =>
       Ok (media, (log ++ [(MEDIA_ERROR, e)])%list)).

Record index : Type := mkIndex {
  links : gmap string nat;
  store : heap;
  logged : console
}.

(** The media stored for one included asset. *)
Definition asset_media (multiLocale : bool)
           (mediaTransform : option MediaTransform)
           (h : heap) (log : console) (asset : value) : result (obj * console) :=
  sys ← get_prop h asset "sys";
  if multiLocale then
    locales ← _parseAssetByLocale h asset;
    foldM (locale_media h sys mediaTransform) (each h (VObj locales)) ([], log)
  else
    fields ← get_prop h asset "fields";
    media ← _toMedia h sys fields mediaTransform;
    Ok (media, log).

Definition link_asset (multiLocale : bool)
           (mediaTransform : option MediaTransform)
           (ix : index) (asset : value) : result index :=
  sys ← get_prop (store ix) asset "sys";
  '(media, log) ← asset_media multiLocale mediaTransform (store ix) (logged ix) asset;
  id ← get_prop (store ix) sys "id";
  let '(l, h) := alloc (store ix) media in
  Ok (mkIndex (<[to_string id := l]> (links ix)) h log).

Definition link_entry (ix : index) (entry : value) : result index :=
  sys ← get_prop (store ix) entry "sys";
  id ← get_prop (store ix) sys "id";
  let '(l, h) := alloc (store ix) [("_deferred", entry)] in
  Ok (mkIndex (<[to_string id := l]> (links ix)) h (logged ix)).

(** [_.get(json, path) || []], then [for ... of] over it *)
Definition records (json : value) (whole : string) (path : list string)
  : result (list value) :=
  let found := lodash_get [] json whole path in
  iterate (if truthy found then found else VArr []).

Definition _createLinks (json : value) (multiLocale : bool)
           (mediaTransform : option MediaTransform) : result index :=
  let ix := mkIndex ∅ RUNTIME [] in
  assets ← records json "includes.Asset" ["includes"; "Asset"];
  ix ← foldM (link_asset multiLocale mediaTransform) assets ix;
  included ← records json "includes.Entry" ["includes"; "Entry"];
  ix ← foldM link_entry included ix;
  items ← records json "items" ["items"];
  foldM link_entry items ix.

(** ** Entry resolver *)

(** A computation that reads and mutates the heap. *)
Abbreviation action A := (heap -> result (A * heap)).

(** [_.map(l, f)] for an [f] with effects: left to right. *)
Fixpoint map_action (f : value -> action value) (l : list value) : action (list value) :=
  fun h =>
    match l with
    | [] => Ok ([], h)
    | x :: l' =>
        '(y, h1) ← f x h;
        '(ys, h2) ← map_action f l' h1;
        Ok (y :: ys, h2)
    end.

(** [target[k] = x] where [target] is a local variable holding an object. *)
Definition assign_prop (target : value) (k : string) (x : value) : action value :=
  fun h =>
    match target with
    | VObj o => Ok (VObj (prop_set o k x), h)
    | VLoc l | VFun _ l => Ok (target, heap_set h l k x)
    | _ => Throw TypeError
    end.

(** [sys === undefined || sys.type !== "Link"] *)
Definition not_a_link (h : heap) (sys : value) : result bool :=
  if is_undefined sys then Ok true
  else ty ← get_prop h sys "type"; Ok (negb (str_is ty "Link")).

(** [_.assign(link, parsed); delete link._deferred] *)
Definition resolve_slot (h : heap) (l : nat) (parsed : obj) : heap :=
  <[l := prop_delete (assign (heap_obj h l) parsed) "_deferred"]> h.

Section Resolver.

(** The index is read, never written, while entries are resolved. *)
Variable links : gmap string nat.

(** The recursive call [this._parseEntry(entry, links, multiLocale)]. *)
Variable self : value -> bool -> action obj.

Definition _dereferenceLink (reference : value) (locale : option string)
  : action value :=
  fun h =>
    target ← match locale with
             | Some code =>
                 if truthy (VStr code) then
                   at_locale ← get_prop h reference code;
                   Ok (if truthy at_locale then at_locale else reference)
                 else Ok reference
             | None => Ok reference
             end;
    sys ← get_prop h target "sys";
    modelId ← get_prop h sys "id";
    match index_get links (to_string modelId) with
    | None => Ok (VUndef, h)
    | Some (link, l) =>
        let h := heap_set h l "_id" modelId in
        let deferred := default VUndef (prop_get (heap_obj h l) "_deferred") in
        if truthy deferred then
          deferredSys ← get_prop h deferred "sys";
          type ← get_path h deferredSys ["contentType"; "sys"; "id"];
          let h := heap_set h l "_type" type in
          '(parsed, h) ← self deferred (bool_decide (is_Some locale)) h;
          Ok (link, resolve_slot h l parsed)
        else Ok (link, h)
    end.

Definition _parseValue (val : value) (locale : option string) : action value :=
  fun h =>
    sys ← get_prop h val "sys";
    plain ← not_a_link h sys;
    if (plain : bool) then Ok (val, h) else _dereferenceLink val locale h.

(** One turn of the loop over the locales of a field value; [values] is the
    local variable of that name.  After an asset link it is the object of
    the index itself, so later turns write into that shared object. *)
Definition parse_locale (val : value) (st : value * heap) (locale : string)
  : result (value * heap) :=
  let '(values, h) := st in
  at_locale ← get_prop h val locale;
  match at_locale with
  | VArr items =>
      '(parsed, h) ← map_action (fun item => _parseValue item (Some locale)) items h;
      assign_prop values locale (VArr (compact parsed)) h
  | _ =>
      sys ← get_prop h at_locale "sys";
      plain ← not_a_link h sys;
      if (plain : bool) then assign_prop values locale at_locale h
      else
        linkType ← get_prop h sys "linkType";
        '(link, h) ← _dereferenceLink val (Some locale) h;
        if str_is linkType "Asset" then Ok (link, h)
        else assign_prop values locale link h
  end.

Definition _parseValueByLocale (val : value) : action value :=
  fun h => foldM (parse_locale val) (keys h val) (VObj [], h).

(** The callback of [_.forEach(entry.fields, ...)]; [fields] is the object
    under construction. *)
Definition parse_field (multiLocale : bool) (st : obj * heap)
           (kv : string * value) : result (obj * heap) :=
  let '(fields, h) := st in
  let '(key, val) := kv in
  if multiLocale then
    '(parsedLocale, h) ← _parseValueByLocale val h;
    Ok (if isEmpty h parsedLocale then fields
        else prop_set fields key parsedLocale, h)
  else
    match val with
    | VArr items =>
        '(parsed, h) ← map_action (fun item => _parseValue item None) items h;
        Ok (prop_set fields key (VArr (compact parsed)), h)
    | _ =>
        '(parsed, h) ← _parseValue val None h;
        Ok (if isEmpty h parsed then fields
            else prop_set fields key parsed, h)
    end.

Definition parseEntry_body (entry : value) (multiLocale : bool) : action obj :=
  fun h =>
    fields ← get_prop h entry "fields";
    foldM (parse_field multiLocale) (each h fields) ([], h).

End Resolver.

(** [_parseEntry], with a bound [fuel] on the depth of the recursion through
    [_dereferenceLink]. *)
Fixpoint _parseEntry (fuel : nat) (links : gmap string nat)
         (entry : value) (multiLocale : bool) : action obj :=
  match fuel with
  | O => fun _ => OutOfFuel
  | S fuel' => parseEntry_body links (_parseEntry fuel' links) entry multiLocale
  end.

(** [_dereferenceLink] and [_parseValue] as called from outside the
    recursion. *)
Definition dereferenceLink (fuel : nat) (links : gmap string nat)
  : value -> option string -> action value :=
  _dereferenceLink links (_parseEntry fuel links).

Definition parseValue (fuel : nat) (links : gmap string nat)
  : value -> option string -> action value :=
  _parseValue links (_parseEntry fuel links).

(** The callback of [_.map(entries, ...)] in [_parseEntries].  The entries
    are the items that [_createLinks] has indexed, so [links[modelId]] finds
    a property of the index itself (lemma [items_are_indexed]); what an
    object inherits is not looked up here, and a key that the index lacks
    gives [undefined], whose [_deferred] cannot be read. *)
Definition parse_item (fuel : nat) (links : gmap string nat) (multiLocale : bool)
           (entry : value) : action value :=
  fun h =>
    sys ← get_prop h entry "sys";
    modelId ← get_prop h sys "id";
    match links !! to_string modelId with
    | None => Throw TypeError
    | Some l =>
        let deferred := default VUndef (prop_get (heap_obj h l) "_deferred") in
        h ← (if truthy deferred then
               '(parsed, h) ← _parseEntry fuel links deferred multiLocale h;
               Ok (resolve_slot h l parsed)
             else Ok h);
        let h := heap_set h l "_id" modelId in
        type ← get_path h sys ["contentType"; "sys"; "id"];
        let h := heap_set h l "_type" type in
        updatedAt ← get_prop h sys "updatedAt";
        Ok (VLoc l,
            if truthy updatedAt then heap_set h l "_updatedAt" updatedAt else h)
    end.

Definition _parseEntries (fuel : nat) (links : gmap string nat)
           (entries : value) (multiLocale : bool) : action (list value) :=
  fun h => map_action (parse_item fuel links multiLocale)
                      (List.map snd (each h entries)) h.

(** ** Locale flattener *)

(** A locale descriptor of the catalog; [is_default] is its [default] flag,
    [None] when the flag is [undefined]. *)
Record locale_desc : Type := mkLocale {
  code : string;
  is_default : option bool
}.

Definition FALLBACK_LOCALE : string := "en-US".

Definition defaultLocale (locales : list locale_desc) : string :=
  match List.find (fun locale => match is_default locale with
                                 | Some flag => flag
                                 | None => false
                                 end) locales with
  | Some defaultLocaleObj => code defaultLocaleObj
  | None => FALLBACK_LOCALE
  end.

(** A node of the walk: the output object [context] to fill from [item]. *)
Record node : Type := mkNode {
  context : nat;
  item : value;
  depth : nat
}.

(** "find the locale value or fallback to default or use the value of the
    prop" *)
Definition select_locale (h : heap) (locale fallback : string) (valueObj : value)
  : result value :=
  at_locale ← get_prop h valueObj locale;
  if truthy at_locale then Ok at_locale
  else
    at_default ← get_prop h valueObj fallback;
    Ok (if truthy at_default then at_default else valueObj).

(** One turn of [for (let index in value)] over an array value. *)
Definition visit_element (d : nat) (st : list value * heap * list node)
           (element : value) : list value * heap * list node :=
  let '(itemContext, h, queue) := st in
  if typeof_object element then
    let '(c, h) := alloc h [] in
    ((itemContext ++ [VLoc c])%list, h, (queue ++ [mkNode c element (S d)])%list)
  else ((itemContext ++ [element])%list, h, queue).

(** One turn of [for (let [key, valueObj] of Object.entries(item))]. *)
Definition visit_prop (locale fallback : string) (ctx d : nat)
           (st : heap * list node) (kv : string * value)
  : result (heap * list node) :=
  let '(h, queue) := st in
  let '(key, valueObj) := kv in
  if is_nullish valueObj then Ok (h, queue)
  else
    val ← select_locale h locale fallback valueObj;
    if negb (typeof_object val) then Ok (heap_set h ctx key val, queue)
    else
      match val with
      | VArr elements =>
          let '(itemContext, h, queue) :=
            fold_left (visit_element d) elements ([], h, queue) in
          Ok (heap_set h ctx key (VArr itemContext), queue)
      | _ =>
          let '(c, h) := alloc h [] in
          Ok (heap_set h ctx key (VLoc c), (queue ++ [mkNode c val (S d)])%list)
      end.

(** [Object.entries(v)] *)
Definition object_entries (h : heap) (v : value) : result obj :=
  if is_nullish v then Throw TypeError else Ok (entries h v).

(** The [while (queue.length > 0)] loop; [fuel] bounds its turns. *)
Fixpoint walk (fuel : nat) (locale fallback : string) (h : heap)
         (queue : list node) : result heap :=
  match queue with
  | [] => Ok h
  | current :: queue =>
      match fuel with
      | O => OutOfFuel
      | S fuel' =>
          props ← object_entries h (item current);
          '(h, queue) ← foldM (visit_prop locale fallback (context current)
                                          (depth current)) props (h, queue);
          walk fuel' locale fallback h queue
      end
  end.

(** The body of [for (let rawItem of items)]. *)
Definition flatten_item (fuel : nat) (locale fallback : string)
           (st : list value * heap) (rawItem : value) : result (list value * heap) :=
  let '(localeContext, h) := st in
  let '(itemContext, h) := alloc h [] in
  h ← walk fuel locale fallback h [mkNode itemContext rawItem 0];
  Ok ((localeContext ++ [VLoc itemContext])%list, h).

Definition _flattenLocales (fuel : nat) (localesResult : list locale_desc)
           (items : value) : action value :=
  fun h =>
    let localeCodes := List.map code localesResult in
    let fallback := defaultLocale localesResult in
    '(localeItems, h) ←
      foldM (fun '(localeItems, h) locale =>
               raw ← iterate items;
               '(localeContext, h) ← foldM (flatten_item fuel locale fallback) raw ([], h);
               Ok (prop_set localeItems locale (VArr localeContext), h))
            localeCodes ([], h);
    Ok (VObj localeItems, h).

(** ** Query entry points *)

Definition DEFAULT_SELECT_ID : string := "sys.id".
Definition DEFAULT_SELECT_CONTENT_TYPE : string := "sys.contentType".
Definition DEFAULT_SELECT_UPDATED_AT : string := "sys.updatedAt".

(** [\s] on the code units a string of the model has (those below 256):
    tab, line feed, vertical tab, form feed, return, space and the no-break
    space U+00A0.  The other characters of [\s] (U+1680, U+2000 to U+200A,
    U+2028, U+2029, U+202F, U+205F, U+3000, U+FEFF) are above 255. *)
Definition is_space (c : ascii) : bool :=
  let n := nat_of_ascii c in
  (n =? 32)%nat || ((9 <=? n)%nat && (n <=? 13)%nat) || (n =? 160)%nat.

Fixpoint remove_spaces (s : string) : string :=
  match s with
  | EmptyString => EmptyString
  | String c s' =>
      if is_space c then remove_spaces s' else String c (remove_spaces s')
  end.

Fixpoint drop_prefix (p s : string) : option string :=
  match p, s with
  | EmptyString, _ => Some s
  | String a p', String b s' =>
      if Ascii.eqb a b then drop_prefix p' s' else None
  | String _ _, EmptyString => None
  end.

(** [s.replace(p, '')]: the first occurrence of [p] is removed. *)
Fixpoint remove_first (p s : string) : string :=
  match drop_prefix p s with
  | Some rest => rest
  | None =>
      match s with
      | EmptyString => EmptyString
      | String c s' => String c (remove_first p s')
      end
  end.

Fixpoint trim_start (c : ascii) (s : string) : string :=
  match s with
  | String c' s' => if Ascii.eqb c' c then trim_start c s' else s
  | EmptyString => EmptyString
  end.

Fixpoint trim_end (c : ascii) (s : string) : string :=
  match s with
  | EmptyString => EmptyString
  | String c' s' =>
      match trim_end c s' with
      | EmptyString => if Ascii.eqb c' c then EmptyString else String c' EmptyString
      | rest => String c' rest
      end
  end.

(** [_.trim(s, ',')] *)
Definition trim_commas (s : string) : string :=
  trim_end "," (trim_start "," s).

Definition clean_select (select : string) : string :=
  trim_commas
    (remove_first DEFAULT_SELECT_UPDATED_AT
       (remove_first DEFAULT_SELECT_CONTENT_TYPE
          (remove_first DEFAULT_SELECT_ID (remove_spaces select)))).

Section Query.

(** The client: [contentful.query(path, query)] and the [items] of
    [contentful.getLocales()]. *)
Variable contentful_query : string -> obj -> result value.
Variable contentful_getLocales : result (list locale_desc).

Definition _query (fuel : nat) (path : string) (query : obj)
           (mediaTransform : option MediaTransform)
  : result (value * heap * console) :=
  let given := default VUndef (prop_get query "select") in
  let select := if truthy given then clean_select (lodash_toString given)
                else "fields" in
  let query :=
    prop_set query "select"
      (VStr (DEFAULT_SELECT_ID +:+ "," +:+ DEFAULT_SELECT_CONTENT_TYPE +:+ ","
             +:+ DEFAULT_SELECT_UPDATED_AT +:+ "," +:+ select)) in
  json ← contentful_query path
           (assign [("include", VNum 10); ("limit", VNum 1000)] query);
  let locale := default VUndef (prop_get query "locale") in
  let multiLocale := truthy locale && str_is locale "*" in
  ix ← _createLinks json multiLocale mediaTransform;
  entries ← get_prop (store ix) json "items";
  '(models, h) ← _parseEntries fuel (links ix) entries multiLocale (store ix);
  '(items, h) ← (if multiLocale then
                   locales ← contentful_getLocales;
                   _flattenLocales fuel locales (VArr models) h
                 else Ok (VArr models, h));
  skip ← get_prop h json "skip";
  limit ← get_prop h json "limit";
  total ← get_prop h json "total";
  Ok (VObj [("items", items); ("skip", skip); ("limit", limit);
            ("total", total)], h, logged ix).

Definition getModel (fuel : nat) (id : string)
  : result (value * heap * console) :=
  _query fuel ("/entries/" +:+ id) [] None.

Definition getModels (fuel : nat) (query : obj)
           (mediaTransform : option MediaTransform)
  : result (value * heap * console) :=
  _query fuel "/entries" query mediaTransform.

End Query.

(** ** Reading a result back *)

(** The tree a value denotes in a heap: every reference is replaced by the
    object it points to, down to [fuel] levels. *)
Fixpoint snapshot (fuel : nat) (h : heap) (v : value) : option value :=
  match fuel with
  | O => None
  | S fuel' =>
      let props o :=
        mapM (fun kv => x ← snapshot fuel' h (snd kv); Some (fst kv, x)) o in
      match v with
      | VArr l => VArr <$> mapM (snapshot fuel' h) l
      | VObj o => VObj <$> props o
      | VLoc l => VObj <$> props (heap_obj h l)
      | _ => Some v
      end
  end.

(** * Payloads used in the examples *)

(** A link: [{ sys: { type: "Link", linkType, id } }]. *)
Definition link_to (linkType id : string) : value :=
  VObj [("sys", VObj [("type", VStr "Link"); ("linkType", VStr linkType);
                      ("id", VStr id)])].

(** The [sys] of an entry: its id and the id of its content type. *)
Definition entry_sys (id type : string) : value :=
  VObj [("id", VStr id);
        ("contentType", VObj [("sys", VObj [("id", VStr type)])])].

Definition record (sys : value) (fields : obj) : value :=
  VObj [("sys", sys); ("fields", VObj fields)].

Module EndToEnd.

(** One asset [a1], one top-level entry [e1] whose [hero] field links to
    it. *)
Definition a1 : value :=
  record (VObj [("id", VStr "a1")])
    [("file",
      VObj [("url", VStr "/x.png"); ("contentType", VStr "image/png");
            ("details",
             VObj [("size", VNum 10);
                   ("image", VObj [("width", VNum 1); ("height", VNum 1)])])])].

Definition e1 : value :=
  record (entry_sys "e1" "post")
    [("title", VStr "Hi"); ("hero", link_to "Asset" "a1")].

Definition payload : value :=
  VObj [("items", VArr [e1]); ("includes", VObj [("Asset", VArr [a1])])].

Definition client : string -> obj -> result value := fun _ _ => Ok payload.

(** What the query answers, read back as a tree. *)
Definition hero : value :=
  VObj [("_id", VStr "a1"); ("url", VStr "/x.png"); ("description", VUndef);
        ("contentType", VStr "image/png");
        ("dimensions", VObj [("width", VNum 1); ("height", VNum 1)]);
        ("size", VNum 10); ("version", VUndef)].

Definition model : value :=
  VObj [("title", VStr "Hi"); ("hero", hero); ("_id", VStr "e1");
        ("_type", VStr "post")].

Definition answer : value :=
  VObj [("items", VArr [model]); ("skip", VUndef); ("limit", VUndef);
        ("total", VUndef)].

(** The same answer as the code holds it: the wrapper, and the heap with,
    after the twelve objects of the runtime, the object of [a1] at
    location 12 and the object of [e1] at 13. *)
Definition wrapper : value :=
  VObj [("items", VArr [VLoc 13]); ("skip", VUndef); ("limit", VUndef);
        ("total", VUndef)].

Definition heap_after : heap :=
  (RUNTIME
   ++ [[("_id", VStr "a1"); ("url", VStr "/x.png"); ("description", VUndef);
        ("contentType", VStr "image/png");
        ("dimensions", VObj [("width", VNum 1); ("height", VNum 1)]);
        ("size", VNum 10); ("version", VUndef)];
       [("title", VStr "Hi"); ("hero", VLoc 12); ("_id", VStr "e1");
        ("_type", VStr "post")]])%list.

End EndToEnd.

(** * Shapes of field values, used to state the properties *)

(** The id a field value refers to when it is a link of the payload, that
    is an object whose [sys.type] is ["Link"]. *)
Definition link_target (v : value) : option value :=
  match v with
  | VObj o =>
      match prop_get o "sys" with
      | Some (VObj sys) =>
          if str_is (default VUndef (prop_get sys "type")) "Link"
          then Some (default VUndef (prop_get sys "id"))
          else None
      | _ => None
      end
  | _ => None
  end.

(** A fields object that lodash walks key by key: it has no numeric
    [length] property and no key twice. *)
Definition plain_fields (fields : obj) : Prop :=
  array_like_length fields = None /\ NoDup (List.map fst fields).

(** A field value that is neither an array nor a link: the test of
    [_parseValue] lets it through. *)
Definition non_reference (h : heap) (v : value) : Prop :=
  isArray v = false
  /\ exists sys, get_prop h v "sys" = Ok sys /\ not_a_link h sys = Ok true.

(** The fields for which [_.isEmpty] is false. *)
Definition non_empty_fields (h : heap) (fields : obj) : obj :=
  List.filter (fun kv => negb (isEmpty h (snd kv))) fields.

Module PlainEntry.

(** An entry with one field of each plain kind. *)
Definition fields : obj :=
  [("count", VNum 5); ("draft", VBool true); ("subtitle", VStr "");
   ("title", VStr "Hi"); ("meta", VObj [("tag", VStr "x")]);
   ("empty", VObj [])].

Definition entry : value := record (entry_sys "p1" "post") fields.

(** An entry with a link, a number, an array and a string. *)
Definition mixed_fields : obj :=
  [("author", link_to "Entry" "e2"); ("count", VNum 5);
   ("tags", VArr [VStr "a"]); ("title", VStr "Hi")].

Definition mixed : value := record (entry_sys "p6" "post") mixed_fields.

End PlainEntry.

Module BrokenLink.

(** An entry whose [author] links to an entry that the payload does not
    include. *)
Definition fields : obj :=
  [("title", VStr "Hi"); ("author", link_to "Entry" "gone");
   ("body", VStr "text")].

Definition entry : value := record (entry_sys "p2" "post") fields.

End BrokenLink.

Module MixedArray.

(** The index holds the deferred entry [e2]; nothing has the id ["gone"]. *)
Definition e2 : value := record (entry_sys "e2" "author") [("name", VStr "Ann")].

Definition links : gmap string nat := {["e2" := 12%nat]}.

Definition heap_before : heap := (RUNTIME ++ [[("_deferred", e2)]])%list.

Definition heap_after : heap :=
  (RUNTIME
   ++ [[("_id", VStr "e2"); ("_type", VStr "author"); ("name", VStr "Ann")]])%list.

Definition good : value := link_to "Entry" "e2".
Definition bad : value := link_to "Entry" "gone".

End MixedArray.

Module InheritedMember.

(** No record of these payloads has the id [constructor] or the id [gone].
    The entry [p3] has a field that links to [constructor]; [p4] an array
    field with a link to the included entry [e2] and a link to
    [constructor]; [p5], of a multi-locale payload, a field that links to
    [gone]. *)
Definition e2 : value := record (entry_sys "e2" "author") [("name", VStr "Ann")].

Definition p3 : value :=
  record (entry_sys "p3" "post")
    [("title", VStr "Hi"); ("author", link_to "Entry" "constructor")].

Definition p4 : value :=
  record (entry_sys "p4" "post")
    [("editors", VArr [link_to "Entry" "e2"; link_to "Entry" "constructor"])].

Definition p5 : value :=
  record (entry_sys "p5" "post")
    [("title", VObj [("en-US", VStr "Hi")]);
     ("author", VObj [("en-US", link_to "Entry" "gone")])].

Definition field_payload : value := VObj [("items", VArr [p3])].

Definition array_payload : value :=
  VObj [("items", VArr [p4]); ("includes", VObj [("Entry", VArr [e2])])].

Definition locale_payload : value := VObj [("items", VArr [p5])].

Definition locales : list locale_desc := [mkLocale "en-US" (Some true)].

End InheritedMember.

Module LocaleFallback.

(** Locales [en-US] (default) and [fr]; a model whose [title] has a value
    at [en-US] only. *)
Definition locales : list locale_desc :=
  [mkLocale "en-US" (Some true); mkLocale "fr" None].

Definition title : obj := [("en-US", VStr "Hi")].

Definition models : heap :=
  [[("title", VObj title); ("_id", VStr "e1"); ("_type", VStr "post")]].

Definition flat : obj :=
  [("title", VStr "Hi"); ("_id", VStr "e1"); ("_type", VStr "post")].

(** A multi-locale payload whose [count] is 5 at [en-US] and 0 at [fr]. *)
Definition e1 : value :=
  record (entry_sys "e1" "post")
    [("count", VObj [("en-US", VNum 5); ("fr", VNum 0)])].

Definition client : string -> obj -> result value :=
  fun _ _ => Ok (VObj [("items", VArr [e1])]).

End LocaleFallback.

Module FailingHook.

(** An asset with a file at [en-US] and at [fr], and a hook that fails on
    the French file and marks every other descriptor with a [cdn] key. *)
Definition file (url : string) : value :=
  VObj [("url", VStr url); ("contentType", VStr "image/png");
        ("details", VObj [("size", VNum 10)])].

Definition asset : value :=
  record (VObj [("id", VStr "a1")])
    [("file", VObj [("en-US", file "/en.png"); ("fr", file "/fr.png")])].

Definition hook : MediaTransform := fun media =>
  if str_is (default VUndef (prop_get media "url")) "/fr.png"
  then Failed "no french"
  else Transformed (prop_set media "cdn" (VBool true)).

Definition payload : value :=
  VObj [("items", VArr []); ("includes", VObj [("Asset", VArr [asset])])].

(** The same asset as a single-locale payload gives it. *)
Definition plain_asset : value :=
  record (VObj [("id", VStr "a1")]) [("file", file "/fr.png")].

Definition plain_payload : value :=
  VObj [("items", VArr []); ("includes", VObj [("Asset", VArr [plain_asset])])].

Definition client : string -> obj -> result value := fun _ _ => Ok plain_payload.

Definition descriptor : obj :=
  [("_id", VStr "a1"); ("url", VStr "/fr.png"); ("description", VUndef);
   ("contentType", VStr "image/png"); ("dimensions", VObj []);
   ("size", VNum 10); ("version", VUndef)].

End FailingHook.

(** The locale groups of an asset: no locale twice, every group an object. *)
Definition is_object (v : value) : Prop := exists o, v = VObj o.

Definition groups_ok (locales : obj) : Prop :=
  NoDup (List.map fst locales) /\ Forall (fun kv => is_object (snd kv)) locales.

(** * The payload as the link index builder sees it *)

(** A value without references into the heap, as a payload is: it is made
    before any object of the index exists. *)
Fixpoint no_refs (v : value) : bool :=
  match v with
  | VLoc _ | VFun _ _ => false
  | VArr l => forallb no_refs l
  | VObj o => forallb (fun kv => no_refs (snd kv)) o
  | _ => true
  end.

(** The key a record is indexed under: [record.sys.id] as a property key. *)
Definition record_key (r : value) : option string :=
  match get_path [] r ["sys"; "id"] with
  | Ok id => Some (to_string id)
  | _ => None
  end.

Definition has_key (key : string) (r : value) : bool :=
  bool_decide (record_key r = Some key).

(** The last record of a list that is indexed under [key]. *)
Definition last_with_key (key : string) (rs : list value) : option value :=
  List.find (has_key key) (rev rs).

Module Precedence.

(** The id [x] is an included entry and a top-level item, with different
    titles. *)
Definition included : value := record (entry_sys "x" "post") [("title", VStr "old")].
Definition top : value := record (entry_sys "x" "post") [("title", VStr "new")].

Definition payload : value :=
  VObj [("items", VArr [top]); ("includes", VObj [("Entry", VArr [included])])].

Definition client : string -> obj -> result value := fun _ _ => Ok payload.

End Precedence.

(** The slots the builder stores: a deferred entry, the media of an asset. *)
Definition deferred_slot (entry : value) (o : obj) : Prop :=
  o = [("_deferred", entry)].

Definition media_slot (multiLocale : bool) (mediaTransform : option MediaTransform)
           (asset : value) (o : obj) : Prop :=
  exists h log log', asset_media multiLocale mediaTransform h log asset = Ok (o, log').

(** * Slots *)

(** The test [link._deferred] on the object at [l]. *)
Definition deferred_at (h : heap) (l : nat) : value :=
  default VUndef (prop_get (heap_obj h l) "_deferred").

Definition is_deferred (h : heap) (l : nat) : bool := truthy (deferred_at h l).

Module Shared.

(** Two top-level items: [e1] links to [e2], and [e2] has an [updatedAt]. *)
Definition e1 : value :=
  record (entry_sys "e1" "post") [("author", link_to "Entry" "e2")].

Definition e2 : value :=
  record (VObj [("id", VStr "e2");
                ("contentType", VObj [("sys", VObj [("id", VStr "person")])]);
                ("updatedAt", VStr "2020-01-01")])
         [("name", VStr "Ann")].

Definition links : gmap string nat := {["e1" := 12%nat; "e2" := 13%nat]}.

(** The heap as [_createLinks] leaves it (the objects of the runtime, then
    the two slots), after [e1] has been resolved, and after [e2] has then
    been visited in the item list. *)
Definition heap0 : heap :=
  (RUNTIME ++ [[("_deferred", e1)]; [("_deferred", e2)]])%list.

Definition heap1 : heap :=
  (RUNTIME
   ++ [[("author", VLoc 13); ("_id", VStr "e1"); ("_type", VStr "post")];
       [("_id", VStr "e2"); ("_type", VStr "person"); ("name", VStr "Ann")]])%list.

Definition heap2 : heap :=
  (RUNTIME
   ++ [[("author", VLoc 13); ("_id", VStr "e1"); ("_type", VStr "post")];
       [("_id", VStr "e2"); ("_type", VStr "person"); ("name", VStr "Ann");
        ("_updatedAt", VStr "2020-01-01")]])%list.

End Shared.

(** * Reference cycles *)

(** A field value that links to [id]: a link, or an array with such a link
    among its elements. *)
Definition reaches (val id : value) : Prop :=
  link_target val = Some id
  \/ exists items item, val = VArr items /\ item ∈ items /\ link_target item = Some id.

(** The entry has a field that links to [id]. *)
Definition refers_to (entry id : value) : Prop :=
  exists fs key val,
    get_prop [] entry "fields" = Ok (VObj fs)
    /\ (key, val) ∈ each [] (VObj fs)
    /\ reaches val id.

Module Cycle.

(** Two top-level entries that link to each other. *)
Definition e1 : value :=
  record (entry_sys "e1" "post") [("next", link_to "Entry" "e2")].

Definition e2 : value :=
  record (entry_sys "e2" "post") [("next", link_to "Entry" "e1")].

Definition payload : value := VObj [("items", VArr [e1; e2])].

Definition client : string -> obj -> result value := fun _ _ => Ok payload.

Definition links : gmap string nat := <["e2" := 13%nat]> (<["e1" := 12%nat]> ∅).

Definition heap0 : heap :=
  (RUNTIME ++ [[("_deferred", e1)]; [("_deferred", e2)]])%list.

(** The heap once both slots carry their metadata; the recursion leaves
    it as it is from then on. *)
Definition heap_stable : heap :=
  (RUNTIME
   ++ [[("_deferred", e1); ("_id", VStr "e1"); ("_type", VStr "post")];
       [("_deferred", e2); ("_id", VStr "e2"); ("_type", VStr "post")]])%list.

End Cycle.

(** * Invariants used in the proofs *)

(** The output object [root] of an item is allocated, and no node waiting in
    the queue of the flattener has it as its context. *)
Definition apart (root : nat) (h : heap) (queue : list node) : Prop :=
  root < length h /\ Forall (fun n => context n ≠ root) queue.

(** The slots [l1] and [l2] are still deferred and hold the two entries. *)
Definition cyclic (entry1 entry2 : value) (l1 l2 : nat) (h : heap) : Prop :=
  deferred_at h l1 = entry1 /\ deferred_at h l2 = entry2.

(** * Shapes used to state further properties *)

(** Every character of the string satisfies [P]. *)
Fixpoint string_forall (P : ascii -> bool) (s : string) : bool :=
  match s with
  | EmptyString => true
  | String c s' => P c && string_forall P s'
  end.

Definition first_char (s : string) : option ascii :=
  match s with
  | EmptyString => None
  | String c _ => Some c
  end.

Fixpoint last_char (s : string) : option ascii :=
  match s with
  | EmptyString => None
  | String c EmptyString => Some c
  | String _ s' => last_char s'
  end.

(** The [select] that [_query] puts in front of what the caller selected. *)
Definition SYSTEM_SELECT : string := "sys.id,sys.contentType,sys.updatedAt,".

(** The part of [select] that comes from the caller's query. *)
Definition user_select (query : obj) : string :=
  let given := default VUndef (prop_get query "select") in
  if truthy given then clean_select (lodash_toString given) else "fields".

Module SelectQuery.

(** A query that selects two fields and a system field, with blanks, and
    asks for five records of the French locale. *)
Definition query : obj :=
  [("select", VStr " fields.title , sys.id, fields.body,");
   ("limit", VNum 5); ("locale", VStr "fr")].

End SelectQuery.

(** The keys of a media descriptor, in the order [_toMedia] writes them. *)
Definition MEDIA_KEYS : list string :=
  ["_id"; "url"; "description"; "contentType"; "dimensions"; "size"; "version"].

(** [locales[locale].fields[field]] in the pivot of an asset, when the group
    and the field are there. *)
Definition cell (locales : obj) (locale field : string) : option value :=
  match prop_get locales locale with
  | Some (VObj group) =>
      match prop_get group "fields" with
      | Some (VObj group_fields) => prop_get group_fields field
      | _ => None
      end
  | _ => None
  end.

(** Every group of the pivot is [{ sys, fields }] with the [sys] of the
    asset. *)
Definition is_group (sys group : value) : Prop :=
  exists group_fields, group = VObj [("sys", sys); ("fields", VObj group_fields)].

Definition grouped (sys : value) (locales : obj) : Prop :=
  Forall (fun kv => is_group sys (snd kv)) locales.

(** The fields of a multi-locale record: every field is a map from locale
    codes to values, with no code twice. *)
Definition locale_maps (fields : obj) : Prop :=
  forall key val, (key, val) ∈ fields ->
                  exists lm, val = VObj lm /\ NoDup (List.map fst lm).

Module Pivot.

(** An asset with a title in two locales and a file in one. *)
Definition sys : value := VObj [("id", VStr "a1")].

Definition fields : obj :=
  [("title", VObj [("en-US", VStr "Hello"); ("fr", VStr "Salut")]);
   ("file", VObj [("en-US", VStr "/x.png")])].

Definition asset : value := record sys fields.

End Pivot.

(** The model answered for a top-level item: the object the index holds
    under the key of the item. *)
Definition model_of (links : gmap string nat) (entry model : value) : Prop :=
  exists key l, record_key entry = Some key /\ links !! key = Some l
                /\ model = VLoc l.

(** The flattened models of one locale: [n] references to objects at the
    heap locations from [lo] up to [hi]. *)
Definition flattened (lo hi n : nat) (v : value) : Prop :=
  exists ctxs, v = VArr ctxs /\ length ctxs = n
               /\ Forall (fun m => exists l, m = VLoc l /\ lo <= l < hi) ctxs.

(** An array item the test of [_parseValue] lets through as it is: it has a
    [sys] that is [undefined], or whose [type] is not ["Link"]. *)
Definition plain_item (h : heap) (v : value) : Prop :=
  exists sys, get_prop h v "sys" = Ok sys /\ not_a_link h sys = Ok true.

(** The id a dereference looks up: [sys.id] of the link, which in
    multi-locale mode is the value of [reference] at [locale] when that
    value is truthy (the first two statements of [_dereferenceLink]). *)
Definition link_id (h : heap) (reference : value) (locale : option string)
  : result value :=
  target ← match locale with
           | Some code =>
               if truthy (VStr code) then
                 at_locale ← get_prop h reference code;
                 Ok (if truthy at_locale then at_locale else reference)
               else Ok reference
           | None => Ok reference
           end;
  sys ← get_prop h target "sys";
  get_prop h sys "id".

(** * Properties *)

(** ** Sequencing *)

Lemma bind_Ok {A B : Type} (r : result A) (k : A -> result B) (b : B) :
  mbind k r = Ok b -> exists a, r = Ok a /\ k a = Ok b.
Proof. destruct r as [a| |]; simpl; [eauto | discriminate..]. Qed.

Lemma ret_bind {A B : Type} (a : A) (k : A -> result B) : mbind k (Ok a) = k a.
Proof. reflexivity. Qed.

Lemma bind_not_ok {A B : Type} (r : result A) (k : A -> result B) :
  is_ok r = false -> is_ok (mbind k r) = false.
Proof. destruct r; simpl; [discriminate | reflexivity..]. Qed.

Ltac bind_inv H :=
  let a := fresh "a" in
  let E := fresh "E" in
  apply bind_Ok in H as (a & E & H).

Lemma foldM_app {A S : Type} (f : S -> A -> result S) (l1 l2 : list A) (s : S) :
  foldM f (l1 ++ l2) s = mbind (foldM f l2) (foldM f l1 s).
Proof.
  revert s. induction l1 as [|x l1 IH]; intros s; simpl; [reflexivity|].
  destruct (f s x) as [s'| |]; simpl; [apply IH | reflexivity..].
Qed.

(** ** Looking a key up in the index *)

Lemma index_get_own (links : gmap string nat) (key : string) (l : nat) :
  links !! key = Some l -> index_get links key = Some (VLoc l, l).
Proof. intros H. unfold index_get. by rewrite H. Qed.

Lemma index_get_missing (links : gmap string nat) (key : string) :
  links !! key = None -> key ∉ OBJECT_PROTOTYPE -> index_get links key = None.
Proof.
  intros H Hkey. unfold index_get, inherited. rewrite H.
  assert (Hpos : forall names, key ∉ names -> position key names = None).
  { induction names as [|name names IH]; intros Hn; [done|].
    apply not_elem_of_cons in Hn as [Hne Hn]. cbn [position].
    destruct (String.eqb_spec name key) as [->|_]; [done|]. by rewrite IH. }
  by rewrite Hpos.
Qed.

Lemma index_get_inherited (links : gmap string nat) (key : string) :
  links !! key = None -> index_get links key = inherited key.
Proof. intros H. unfold index_get. by rewrite H. Qed.

(** ** Own properties *)

Lemma prop_get_set_eq (o : obj) (k : string) (v : value) :
  prop_get (prop_set o k v) k = Some v.
Proof.
  induction o as [|[k' v'] o IH]; simpl.
  - by rewrite String.eqb_refl.
  - destruct (String.eqb k' k) eqn:E; simpl; rewrite E; [reflexivity | exact IH].
Qed.

Lemma prop_get_set_ne (o : obj) (k k' : string) (v : value) :
  k ≠ k' -> prop_get (prop_set o k v) k' = prop_get o k'.
Proof.
  intros Hne. induction o as [|[k0 v0] o IH]; simpl.
  - destruct (String.eqb_spec k k'); [contradiction | reflexivity].
  - destruct (String.eqb_spec k0 k) as [->|Hk]; simpl.
    + destruct (String.eqb_spec k k'); [contradiction | reflexivity].
    + destruct (String.eqb_spec k0 k'); [reflexivity | exact IH].
Qed.

Lemma prop_get_delete_eq (o : obj) (k : string) :
  prop_get (prop_delete o k) k = None.
Proof.
  induction o as [|[k' v'] o IH]; simpl; [reflexivity|].
  destruct (String.eqb k' k) eqn:E; simpl; [exact IH | by rewrite E].
Qed.

Lemma prop_get_delete_ne (o : obj) (k k' : string) :
  k ≠ k' -> prop_get (prop_delete o k) k' = prop_get o k'.
Proof.
  intros Hne. induction o as [|[k0 v0] o IH]; simpl; [reflexivity|].
  destruct (String.eqb_spec k0 k) as [->|Hk]; simpl.
  - destruct (String.eqb_spec k k'); [contradiction | exact IH].
  - destruct (String.eqb_spec k0 k'); [reflexivity | exact IH].
Qed.

Lemma prop_get_None_keys (o : obj) (k : string) :
  prop_get o k = None <-> k ∉ List.map fst o.
Proof.
  induction o as [|[k' v'] o IH]; simpl.
  - split; [intros _; apply not_elem_of_nil | reflexivity].
  - rewrite not_elem_of_cons.
    destruct (String.eqb_spec k' k) as [->|Hk].
    + split; [discriminate | intros [? _]; contradiction].
    + rewrite IH. split; [intros ?; split; [congruence | assumption] | tauto].
Qed.

Lemma prop_set_fresh (o : obj) (k : string) (v : value) :
  prop_get o k = None -> prop_set o k v = (o ++ [(k, v)])%list.
Proof.
  induction o as [|[k' v'] o IH]; simpl; [reflexivity|].
  destruct (String.eqb k' k); [discriminate|].
  intros H. by rewrite IH.
Qed.

Lemma prop_get_elem_of (o : obj) (k : string) (v : value) :
  NoDup (List.map fst o) -> (k, v) ∈ o -> prop_get o k = Some v.
Proof.
  induction o as [|[k' v'] o IH]; cbn [List.map fst prop_get]; intros Hnd Hin.
  - by apply elem_of_nil in Hin.
  - apply NoDup_cons in Hnd as [Hk' Hnd].
    apply elem_of_cons in Hin as [[= -> ->]|Hin]; [by rewrite String.eqb_refl|].
    destruct (String.eqb_spec k' k) as [->|_]; [|by apply IH].
    destruct Hk'. apply list_elem_of_fmap. by exists (k, v).
Qed.

(** ** Values of the payload *)

Lemma no_refs_indexed_get (l : list value) (k : string) :
  Forall (fun x => no_refs x = true) l -> no_refs (indexed_get l k) = true.
Proof.
  intros Hl. unfold indexed_get. destruct (String.eqb k "length"); [done|].
  destruct (index_of_key k) as [i|]; [|done].
  destruct (l !! i) as [x|] eqn:E; [|done]. simpl.
  by apply (Forall_lookup_1 _ _ _ _ Hl E).
Qed.

Lemma no_refs_string_chars (s : string) :
  Forall (fun x => no_refs x = true) (string_chars s).
Proof. induction s; simpl; by constructor. Qed.

Lemma no_refs_prop_get (o : obj) (k : string) (x : value) :
  forallb (fun kv => no_refs (snd kv)) o = true ->
  prop_get o k = Some x -> no_refs x = true.
Proof.
  induction o as [|[k' v'] o IH]; simpl; [discriminate|].
  intros [Hv Ho]%andb_prop. destruct (String.eqb k' k); [by intros [= <-] | by apply IH].
Qed.

Lemma no_refs_get_prop (h : heap) (v : value) (k : string) (x : value) :
  no_refs v = true -> get_prop h v k = Ok x ->
  no_refs x = true /\ get_prop [] v k = Ok x.
Proof.
  destruct v; simpl; try discriminate; intros Hv [= <-]; (split; [|done]); try done.
  - apply no_refs_indexed_get, no_refs_string_chars.
  - apply no_refs_indexed_get. apply Forall_forall. intros y Hy.
    apply list_elem_of_In in Hy. by apply (proj1 (forallb_forall _ _) Hv).
  - destruct (prop_get props k) eqn:E; [|done]. by apply (no_refs_prop_get props k).
Qed.

Lemma get_prop_no_refs (h h' : heap) (v : value) (k : string) :
  no_refs v = true -> get_prop h v k = get_prop h' v k.
Proof. by destruct v. Qed.

(** ** The end-to-end example *)

(** The query [getModels()] sends to the client when no query is given. *)
Lemma default_query_sent :
  assign [("include", VNum 10); ("limit", VNum 1000)]
         (prop_set [] "select"
            (VStr (DEFAULT_SELECT_ID +:+ "," +:+ DEFAULT_SELECT_CONTENT_TYPE
                   +:+ "," +:+ DEFAULT_SELECT_UPDATED_AT +:+ "," +:+ "fields")))
  = [("include", VNum 10); ("limit", VNum 1000);
     ("select", VStr "sys.id,sys.contentType,sys.updatedAt,fields")].
Proof. reflexivity. Qed.

(** C3, as the code has it: on the payload with asset [a1] and top-level
    entry [e1], [getModels()] answers one model whose metadata keys are
    spelled [_id] and [_type] (after the fields), and whose [hero] is the
    media descriptor of [a1] with the keys [_id], [url], [description],
    [contentType], [dimensions], [size] and [version]; [description] and
    [version] are [undefined] because the payload gives none. *)
Theorem C3_end_to_end_models
        (contentful_query : string -> obj -> result value)
        (contentful_getLocales : result (list locale_desc)) (fuel : nat) :
  contentful_query "/entries"
    [("include", VNum 10); ("limit", VNum 1000);
     ("select", VStr "sys.id,sys.contentType,sys.updatedAt,fields")]
  = Ok EndToEnd.payload ->
  exists v h log,
    getModels contentful_query contentful_getLocales (S fuel) [] None
    = Ok (v, h, log)
    /\ snapshot 8 h v = Some EndToEnd.answer.
Proof.
  intros Hq. unfold getModels, _query.
  change (default VUndef (prop_get [] "select")) with VUndef.
  cbv beta iota delta [truthy]. rewrite default_query_sent, Hq.
  eexists _, _, _. split; vm_compute; reflexivity.
Qed.

Lemma C3_end_to_end_models_witness :
  exists v h log,
    getModels EndToEnd.client (Ok []) 1 [] None = Ok (v, h, log)
    /\ snapshot 8 h v = Some EndToEnd.answer.
Proof. apply (C3_end_to_end_models EndToEnd.client (Ok []) 0). reflexivity. Defined.

(** C3 as stated fails: the model answered for [e1] has no key [id] and no
    key [type], and neither has its [hero]. *)
Lemma C3_metadata_keys_counterexample :
  match getModels EndToEnd.client (Ok []) 1 [] None with
  | Ok (v, h, _) =>
      exists m hero,
        snapshot 8 h v
        = Some (VObj [("items", VArr [m]); ("skip", VUndef); ("limit", VUndef);
                      ("total", VUndef)])
        /\ get_prop [] m "id" = Ok VUndef
        /\ get_prop [] m "type" = Ok VUndef
        /\ get_prop [] m "hero" = Ok hero
        /\ get_prop [] hero "id" = Ok VUndef
  | _ => False
  end.
Proof. vm_compute. eexists _, _. repeat split. Qed.

(** ** What the query entry points answer *)

Lemma map_action_Forall (P : value -> Prop) (f : value -> action value) :
  (forall x h v h', f x h = Ok (v, h') -> P v) ->
  forall l h vs h', map_action f l h = Ok (vs, h') -> Forall P vs.
Proof.
  intros Hf. induction l as [|x l IH]; simpl; intros h vs h' H.
  - injection H as <- <-. constructor.
  - bind_inv H. destruct a as [y h1]. bind_inv H. destruct a as [ys h2].
    injection H as <- <-. constructor; eauto.
Qed.

Lemma parse_item_reference fuel links multiLocale entry h v h' :
  parse_item fuel links multiLocale entry h = Ok (v, h') ->
  exists sys modelId l,
    get_prop h entry "sys" = Ok sys /\ get_prop h sys "id" = Ok modelId
    /\ links !! to_string modelId = Some l /\ v = VLoc l.
Proof.
  unfold parse_item. intros H.
  bind_inv H. rename a into sys. bind_inv H. rename a into modelId.
  destruct (links !! to_string modelId) as [l|] eqn:El; [|discriminate].
  bind_inv H. bind_inv H. bind_inv H. injection H as <- <-.
  eauto 10.
Qed.

(** ** Resolving one field in single-locale mode *)

Section FieldLemmas.

Variable links : gmap string nat.
Variable self : value -> bool -> action obj.

Lemma parseValue_plain val locale h sys :
  get_prop h val "sys" = Ok sys ->
  not_a_link h sys = Ok true ->
  _parseValue links self val locale h = Ok (val, h).
Proof. intros Hsys Hplain. unfold _parseValue. by rewrite Hsys, ret_bind, Hplain. Qed.

Lemma link_target_sys val id h :
  link_target val = Some id ->
  exists sys, get_prop h val "sys" = Ok sys
              /\ not_a_link h sys = Ok false
              /\ get_prop h sys "id" = Ok id.
Proof.
  destruct val as [| | | | | |o| |]; try discriminate. simpl.
  destruct (prop_get o "sys") as [[| | | | | |sys| |]|]; try discriminate.
  destruct (str_is _ "Link") eqn:E; [|discriminate].
  intros [= <-]. exists (VObj sys). repeat split.
  unfold not_a_link. simpl. by rewrite E.
Qed.

Lemma parseValue_link val id h :
  link_target val = Some id ->
  _parseValue links self val None h = _dereferenceLink links self val None h.
Proof.
  intros H. destruct (link_target_sys _ _ h H) as (sys & Hs & Hl & _).
  unfold _parseValue. by rewrite Hs, ret_bind, Hl.
Qed.

Lemma dereferenceLink_missing val id h :
  link_target val = Some id ->
  index_get links (to_string id) = None ->
  _dereferenceLink links self val None h = Ok (VUndef, h).
Proof.
  intros H Hl. destruct (link_target_sys _ _ h H) as (sys & Hs & _ & Hid).
  unfold _dereferenceLink. by rewrite !ret_bind, Hs, ret_bind, Hid, ret_bind, Hl.
Qed.

(** A field adds at most its own key to the object under construction. *)
Lemma parse_field_keys multiLocale fields h key val fields' h' k :
  parse_field links self multiLocale (fields, h) (key, val) = Ok (fields', h') ->
  prop_get fields' k <> None -> k = key \/ prop_get fields k <> None.
Proof.
  intros H Hk.
  assert (Hset : forall x, fields' = prop_set fields key x ->
                           k = key \/ prop_get fields k <> None).
  { intros x ->. destruct (decide (key = k)) as [->|Hne]; [by left|].
    right. by rewrite prop_get_set_ne in Hk. }
  unfold parse_field in H. destruct multiLocale.
  - bind_inv H. destruct a as [parsed h1]. injection H as <- <-.
    destruct (isEmpty h1 parsed); [by right | eauto].
  - destruct val; try (bind_inv H; destruct a as [parsed h1];
                       injection H as <- <-;
                       destruct (isEmpty h1 parsed); [by right | eauto]).
    bind_inv H. destruct a as [parsed h1]. injection H as <- <-. eauto.
Qed.

Lemma parse_fields_keys multiLocale l fields h fields' h' k :
  foldM (parse_field links self multiLocale) l (fields, h) = Ok (fields', h') ->
  prop_get fields' k <> None ->
  k ∈ List.map fst l \/ prop_get fields k <> None.
Proof.
  revert fields h. induction l as [|[key val] l IH]; simpl; intros fields h H Hk.
  - injection H as <- <-. by right.
  - bind_inv H. destruct a as [fields1 h1].
    destruct (IH _ _ H Hk) as [Hin|Hin].
    + left. by apply elem_of_cons; right.
    + destruct (parse_field_keys _ _ _ _ _ _ _ _ E Hin) as [->|?].
      * left. apply elem_of_cons. by left.
      * by right.
Qed.

(** A field leaves the other keys of the object under construction as
    they are. *)
Lemma parse_field_other multiLocale fields h key val fields' h' k :
  parse_field links self multiLocale (fields, h) (key, val) = Ok (fields', h') ->
  k ≠ key -> prop_get fields' k = prop_get fields k.
Proof.
  intros H Hne.
  assert (Hset : forall x, prop_get (prop_set fields key x) k = prop_get fields k)
    by (intros x; by apply prop_get_set_ne).
  unfold parse_field in H. destruct multiLocale.
  - bind_inv H. destruct a as [parsed h1]. injection H as <- <-.
    by destruct (isEmpty h1 parsed).
  - destruct val; try (bind_inv H; destruct a as [parsed h1];
                       injection H as <- <-;
                       by destruct (isEmpty h1 parsed)).
    bind_inv H. destruct a as [parsed h1]. by injection H as <- <-.
Qed.

Lemma parse_fields_other multiLocale l fields h fields' h' k :
  foldM (parse_field links self multiLocale) l (fields, h) = Ok (fields', h') ->
  k ∉ List.map fst l -> prop_get fields' k = prop_get fields k.
Proof.
  revert fields h. induction l as [|[key val] l IH]; simpl; intros fields h H Hk.
  - by injection H as <- <-.
  - bind_inv H. destruct a as [fields1 h1].
    apply not_elem_of_cons in Hk as [Hne Hk].
    rewrite (IH _ _ H Hk). by apply (parse_field_other _ _ _ _ _ _ _ _ E).
Qed.

End FieldLemmas.

(** A value of the payload reads the same in every heap. *)
Lemma not_a_link_no_refs (h h' : heap) (sys : value) :
  no_refs sys = true -> not_a_link h sys = not_a_link h' sys.
Proof.
  intros Hs. unfold not_a_link. by rewrite (get_prop_no_refs h h') by done.
Qed.

Lemma non_reference_no_refs (h h' : heap) (v : value) :
  no_refs v = true -> non_reference h v -> non_reference h' v.
Proof.
  intros Hv [Harr (sys & Hsys & Hplain)]. split; [done|].
  exists sys. destruct (no_refs_get_prop _ _ _ _ Hv Hsys) as [Hs _].
  rewrite (get_prop_no_refs h' h) by done.
  by rewrite (not_a_link_no_refs h' h) by done.
Qed.

Lemma isEmpty_no_refs (h h' : heap) (v : value) :
  no_refs v = true -> isEmpty h v = isEmpty h' v.
Proof. by destruct v. Qed.

Lemma prop_get_filter (P : string * value -> bool) (o : obj) (k : string) (v : value) :
  NoDup (List.map fst o) -> (k, v) ∈ o ->
  prop_get (List.filter P o) k = if P (k, v) then Some v else None.
Proof.
  induction o as [|[k' v'] o IH]; simpl; intros Hnd Hin.
  - by apply elem_of_nil in Hin.
  - apply NoDup_cons in Hnd as [Hk' Hnd].
    assert (Hfresh : prop_get (List.filter P o) k' = None).
    { apply prop_get_None_keys. intros Hin'. apply Hk'.
      apply list_elem_of_fmap in Hin' as ([k0 v0] & -> & Hin').
      apply list_elem_of_In, filter_In in Hin' as [Hin' _].
      apply list_elem_of_fmap. exists (k0, v0). split; [done|].
      by apply list_elem_of_In. }
    apply elem_of_cons in Hin as [[= <- <-]|Hin].
    + destruct (P (k, v)); simpl; [by rewrite String.eqb_refl | exact Hfresh].
    + assert (Hne : k' ≠ k).
      { intros ->. apply Hk'. apply list_elem_of_fmap. by exists (k, v). }
      destruct (P (k', v')); simpl; [|by apply IH].
      destruct (String.eqb_spec k' k); [contradiction | by apply IH].
Qed.

Section PlainFields.

Variable links : gmap string nat.
Variable self : value -> bool -> action obj.

Lemma parse_field_plain fields key val h :
  non_reference h val ->
  parse_field links self false (fields, h) (key, val)
  = Ok (if isEmpty h val then fields else prop_set fields key val, h).
Proof.
  intros [Harr (sys & Hsys & Hplain)]. unfold parse_field.
  destruct val; try discriminate Harr;
    by rewrite (parseValue_plain _ _ _ _ _ _ Hsys Hplain).
Qed.

Lemma parse_fields_plain h fs :
  NoDup (List.map fst fs) ->
  (forall k v, (k, v) ∈ fs -> non_reference h v) ->
  forall acc,
    (forall k, k ∈ List.map fst fs -> prop_get acc k = None) ->
    foldM (parse_field links self false) fs (acc, h)
    = Ok ((acc ++ non_empty_fields h fs)%list, h).
Proof.
  induction fs as [|[k v] fs IH]; cbn [foldM]; intros Hnd Hplain acc Hacc.
  - by rewrite app_nil_r.
  - cbn [List.map fst] in Hnd, Hacc. apply NoDup_cons in Hnd as [Hk Hnd].
    rewrite parse_field_plain by (apply (Hplain k); apply elem_of_cons; by left).
    rewrite ret_bind. unfold non_empty_fields in *. simpl.
    destruct (isEmpty h v); simpl.
    + apply IH; [done | |].
      * intros k' v' Hin. apply (Hplain k'). apply elem_of_cons. by right.
      * intros k' Hin. apply Hacc. apply elem_of_cons. by right.
    + rewrite prop_set_fresh by (apply Hacc; apply elem_of_cons; by left).
      rewrite IH; [by rewrite <- app_assoc | done | |].
      * intros k' v' Hin. apply (Hplain k'). apply elem_of_cons. by right.
      * intros k' Hin.
        assert (k ≠ k') by (intros ->; contradiction).
        rewrite <- (prop_set_fresh acc k v)
          by (apply Hacc; apply elem_of_cons; by left).
        rewrite prop_get_set_ne by done.
        apply Hacc. apply elem_of_cons. by right.
Qed.

(** A field that is neither an array nor a link, among fields of any kind:
    whatever the other fields do, its key is only ever set to its own value,
    and only when that value is not empty. *)
Lemma parse_fields_plain_key h0 key v vis :
  no_refs v = true ->
  non_reference h0 v ->
  (forall x, (key, x) ∈ vis -> x = v) ->
  forall fields h fields' h',
    foldM (parse_field links self false) vis (fields, h) = Ok (fields', h') ->
    (forall x, prop_get fields key = Some x -> x = v /\ isEmpty h0 v = false) ->
    forall x, prop_get fields' key = Some x -> x = v /\ isEmpty h0 v = false.
Proof.
  intros Hv Hplain. induction vis as [|[k val] vis IH]; cbn [foldM];
    intros Hvis fields h fields' h' H Hacc x Hx.
  - injection H as <- <-. by apply Hacc.
  - bind_inv H. destruct a as [fields1 h1].
    apply (IH (fun y Hy => Hvis y (list_elem_of_further _ _ _ Hy))
              _ _ _ _ H); [|exact Hx].
    intros y Hy. destruct (decide (k = key)) as [->|Hne].
    + rewrite (Hvis val) in E by (apply elem_of_cons; by left).
      rewrite parse_field_plain in E by (by apply (non_reference_no_refs h0)).
      injection E as <- <-. rewrite (isEmpty_no_refs h h0) in Hy by done.
      destruct (isEmpty h0 v) eqn:Hempty; [by apply Hacc|].
      rewrite prop_get_set_eq in Hy. by injection Hy as <-.
    + apply Hacc. by rewrite <- (parse_field_other _ _ _ _ _ _ _ _ _ _ E).
Qed.

End PlainFields.

Lemma each_plain_fields (h : heap) (fs : obj) :
  plain_fields fs -> each h (VObj fs) = fs.
Proof. intros [Hlen _]. unfold each. simpl. by rewrite Hlen. Qed.

(** The pairs [_.forEach] visits in an object are pairs of that object,
    whether it walks it key by key or, when it has a numeric [length], by
    index. *)
Lemma each_visits (h : heap) (fs : obj) (k : string) (x : value) :
  NoDup (List.map fst fs) ->
  (k, x) ∈ each h (VObj fs) -> x = default VUndef (prop_get fs k).
Proof.
  intros Hnd. unfold each. cbn [own_props].
  destruct (array_like_length fs) as [n|].
  - intros Hin. apply list_elem_of_fmap in Hin as (i & [= -> ->] & _). done.
  - intros Hin. by rewrite (prop_get_elem_of _ _ _ Hnd Hin).
Qed.

(** C10: in single-locale mode, take a field of an entry whose value is
    neither an array nor a link; the other fields of the entry are of any
    kind.  When [_parseEntry] returns, the key of the field survives only
    with the value of the field and only when [_.isEmpty] is false for it;
    and, lodash walking the fields key by key (they have no numeric
    [length]), it does survive then.  [_.isEmpty] is true for a number, a
    boolean and the empty string, false for a non-empty string, object or
    array.  So a field holding a number, a boolean or the empty string is
    left out; and an entry all of whose fields are of that kind resolves to
    exactly its non-empty fields, in their order. *)
Theorem C10_only_non_empty_fields_survive
        (fuel : nat) (links : gmap string nat) (entry : value) (fs : obj)
        (key : string) (v : value) (h : heap) :
  get_prop h entry "fields" = Ok (VObj fs) ->
  NoDup (List.map fst fs) ->
  (key, v) ∈ fs ->
  no_refs v = true ->
  non_reference h v ->
  (forall out h',
     _parseEntry (S fuel) links entry false h = Ok (out, h') ->
     (forall x, prop_get out key = Some x -> x = v /\ isEmpty h v = false)
     /\ (isEmpty h v = true -> prop_get out key = None)
     /\ (array_like_length fs = None ->
         prop_get out key = if isEmpty h v then None else Some v))
  /\ ((forall k x, (k, x) ∈ fs -> non_reference h x) ->
      array_like_length fs = None ->
      _parseEntry (S fuel) links entry false h = Ok (non_empty_fields h fs, h))
  /\ (forall n, isEmpty h (VNum n) = true)
  /\ (forall b, isEmpty h (VBool b) = true)
  /\ isEmpty h (VStr "") = true
  /\ (forall s, s ≠ "" -> isEmpty h (VStr s) = false)
  /\ (forall o, o ≠ [] -> isEmpty h (VObj o) = false)
  /\ (forall l, l ≠ [] -> isEmpty h (VArr l) = false).
Proof.
  intros Hfields Hnd Hin Hv Hplain. split; [|split; [|repeat split]].
  - intros out h' Hrun. simpl in Hrun. unfold parseEntry_body in Hrun.
    rewrite Hfields, ret_bind in Hrun.
    assert (Honly : forall x, prop_get out key = Some x ->
                              x = v /\ isEmpty h v = false).
    { apply (parse_fields_plain_key _ _ h key v _ Hv Hplain) with (2 := Hrun);
        [|done].
      intros x Hx. apply (each_visits _ _ _ _ Hnd) in Hx.
      by rewrite (prop_get_elem_of _ _ _ Hnd Hin) in Hx. }
    split; [exact Honly|]. split.
    + intros Hempty. destruct (prop_get out key) as [x|] eqn:Hout; [|done].
      destruct (Honly x eq_refl) as [_ Hne]. congruence.
    + intros Hwalk. unfold each in Hrun. cbn [own_props] in Hrun.
      rewrite Hwalk in Hrun.
      destruct (isEmpty h v) eqn:Hempty.
      { destruct (prop_get out key) as [x|] eqn:Hout; [|done].
        destruct (Honly x eq_refl) as [_ Hne]. congruence. }
      apply list_elem_of_split in Hin as (pre & post & ->).
      rewrite foldM_app in Hrun. bind_inv Hrun. destruct a as [acc h1].
      cbn [foldM] in Hrun.
      rewrite parse_field_plain in Hrun by (by apply (non_reference_no_refs h)).
      rewrite ret_bind, (isEmpty_no_refs h1 h), Hempty in Hrun by done.
      rewrite map_app in Hnd. apply NoDup_app in Hnd as (_ & _ & Hpost).
      cbn [List.map fst] in Hpost. apply NoDup_cons in Hpost as [Hpost _].
      rewrite (parse_fields_other _ _ _ _ _ _ _ _ _ Hrun Hpost).
      apply prop_get_set_eq.
  - intros Hvals Hwalk. simpl. unfold parseEntry_body. rewrite Hfields, ret_bind.
    rewrite each_plain_fields by done.
    rewrite parse_fields_plain; [done | done | done | done].
  - intros s Hs. simpl. destruct (String.eqb_spec s ""); done.
  - intros [|? ?] Ho; done.
  - intros [|? ?] Hl; done.
Qed.

Lemma C10_only_non_empty_fields_survive_witness :
  (exists out,
     _parseEntry 2 MixedArray.links PlainEntry.mixed false MixedArray.heap_before
     = Ok (out, MixedArray.heap_after)
     /\ prop_get out "author" = Some (VLoc 12)
     /\ prop_get out "count" = None)
  /\ _parseEntry 1 ∅ PlainEntry.entry false []
     = Ok ([("title", VStr "Hi"); ("meta", VObj [("tag", VStr "x")])], []).
Proof.
  split.
  - eexists. split; [vm_compute; reflexivity|]. split; [reflexivity|].
    refine (proj1 (proj2 (proj1 (C10_only_non_empty_fields_survive
              1 MixedArray.links PlainEntry.mixed PlainEntry.mixed_fields
              "count" (VNum 5) MixedArray.heap_before _ _ _ _ _)
              _ MixedArray.heap_after _)) eq_refl).
    + reflexivity.
    + apply (bool_decide_unpack (NoDup _)); vm_compute; exact I.
    + apply list_elem_of_In. simpl. right. left. reflexivity.
    + reflexivity.
    + split; [reflexivity | eexists; split; reflexivity].
    + reflexivity.
  - refine (proj1 (proj2 (C10_only_non_empty_fields_survive
              0 ∅ PlainEntry.entry PlainEntry.fields "count" (VNum 5) [] _ _ _ _ _))
              _ eq_refl).
    + reflexivity.
    + apply (bool_decide_unpack (NoDup _)); vm_compute; exact I.
    + apply list_elem_of_In. simpl. left. reflexivity.
    + reflexivity.
    + split; [reflexivity | eexists; split; reflexivity].
    + intros k x Hin. apply list_elem_of_In in Hin. simpl in Hin.
      repeat (destruct Hin as [[= <- <-]|Hin];
              [split; [reflexivity | eexists; split; reflexivity]|]).
      destruct Hin.
Defined.

Section MissingLink.

Variable links : gmap string nat.
Variable self : value -> bool -> action obj.

Lemma parse_field_missing_link fields key ref id h :
  link_target ref = Some id ->
  index_get links (to_string id) = None ->
  parse_field links self false (fields, h) (key, ref) = Ok (fields, h).
Proof.
  intros Hlink Hnone. unfold parse_field.
  destruct ref as [| | | | | |o| |]; try discriminate Hlink.
  rewrite (parseValue_link _ _ _ _ _ Hlink).
  by rewrite (dereferenceLink_missing _ _ _ _ _ Hlink Hnone).
Qed.

End MissingLink.


Lemma not_inherited (key : string) :
  inherited key = None -> key ∉ OBJECT_PROTOTYPE.
Proof.
  unfold inherited. intros H Hin.
  assert (Hpos : forall names, key ∈ names -> is_Some (position key names)).
  { induction names as [|name names IH]; intros Hn; [by apply elem_of_nil in Hn|].
    cbn [position]. destruct (String.eqb_spec name key) as [->|Hne]; [by eexists|].
    apply elem_of_cons in Hn as [->|Hn]; [done|].
    destruct (IH Hn) as [i ->]. by eexists. }
  destruct (Hpos _ Hin) as [i Hi]. by rewrite Hi in H.
Qed.


(** C6, at two inputs where the code departs from it.

    In single-locale mode the field [author] of [p3] links to the id
    [constructor], which the index does not hold.  [links["constructor"]]
    finds the member that every object inherits, so the link is not taken
    as missing: the model keeps the key [author], its value is the function
    [Object], and that function has been given the property [_id].

    In multi-locale mode the field [author] of [p5] links to the entry
    [gone], which the index does not hold.  The dereference answers
    [undefined], which is stored under the locale, and the map that holds it
    is not empty: the model keeps the key [author], with the value
    [{ "en-US": undefined }], and the model flattened for [en-US] has an
    empty object there. *)
Lemma C6_missing_link_is_kept :
  match _createLinks InheritedMember.field_payload false None with
  | Ok ix => links ix !! "constructor" = None
  | _ => False
  end
  /\ match getModels (fun _ _ => Ok InheritedMember.field_payload) (Ok []) 2
              [] None with
     | Ok (v, h, _) =>
         snapshot 8 h v
         = Some (VObj [("items",
                        VArr [VObj [("title", VStr "Hi");
                                    ("author", VFun "Object" 0);
                                    ("_id", VStr "p3"); ("_type", VStr "post")]]);
                       ("skip", VUndef); ("limit", VUndef); ("total", VUndef)])
         /\ get_prop h (VFun "Object" 0) "_id" = Ok (VStr "constructor")
     | _ => False
     end
  /\ match _createLinks InheritedMember.locale_payload true None with
     | Ok ix =>
         links ix !! "gone" = None
         /\ match _parseEntry 1 (links ix) InheritedMember.p5 true (store ix) with
            | Ok (fields, _) =>
                prop_get fields "author" = Some (VObj [("en-US", VUndef)])
            | _ => False
            end
     | _ => False
     end
  /\ match getModels (fun _ _ => Ok InheritedMember.locale_payload)
              (Ok InheritedMember.locales) 3 [("locale", VStr "*")] None with
     | Ok (v, h, _) =>
         snapshot 8 h v
         = Some (VObj [("items",
                        VObj [("en-US",
                               VArr [VObj [("title", VStr "Hi");
                                           ("author", VObj []);
                                           ("_id", VStr "p5");
                                           ("_type", VStr "post")]])]);
                       ("skip", VUndef); ("limit", VUndef); ("total", VUndef)])
     | _ => False
     end.
Proof. vm_compute. repeat split. Qed.

(** ** Arrays of links *)

Lemma dereferenceLink_found links self ref id l h v h' :
  link_target ref = Some id ->
  links !! to_string id = Some l ->
  _dereferenceLink links self ref None h = Ok (v, h') ->
  v = VLoc l.
Proof.
  intros Hlink Hl. destruct (link_target_sys _ _ h Hlink) as (sys & Hs & _ & Hid).
  unfold _dereferenceLink.
  rewrite !ret_bind, Hs, ret_bind, Hid, ret_bind, (index_get_own _ _ _ Hl).
  destruct (truthy _); [|by intros [= <- <-]].
  intros H. bind_inv H. bind_inv H. bind_inv H. destruct a1. by injection H as <- <-.
Qed.



(** C7, at an input where the code departs from it: the array field
    [editors] of [p4] holds a link to the included entry [e2] and a link to
    the id [constructor], which the index does not hold.  For the second
    link [links["constructor"]] finds the member that every object
    inherits, a function, which [_.compact] keeps: the resolved field has
    two elements, the model of [e2] and the function [Object]. *)
Lemma C7_inherited_member_is_kept :
  match _createLinks InheritedMember.array_payload false None with
  | Ok ix => is_Some (links ix !! "e2") /\ links ix !! "constructor" = None
  | _ => False
  end
  /\ match getModels (fun _ _ => Ok InheritedMember.array_payload) (Ok []) 2
              [] None with
     | Ok (v, h, _) =>
         snapshot 8 h v
         = Some (VObj [("items",
                        VArr [VObj [("editors",
                                     VArr [VObj [("_id", VStr "e2");
                                                 ("_type", VStr "author");
                                                 ("name", VStr "Ann")];
                                           VFun "Object" 0]);
                                    ("_id", VStr "p4"); ("_type", VStr "post")]]);
                       ("skip", VUndef); ("limit", VUndef); ("total", VUndef)])
     | _ => False
     end.
Proof. vm_compute. repeat split; eauto. Qed.

(** ** Locale flattener *)

Lemma defaultLocale_flagged (pre post : list locale_desc) (d : locale_desc) :
  Forall (fun x => is_default x <> Some true) pre ->
  is_default d = Some true ->
  defaultLocale (pre ++ d :: post) = code d.
Proof.
  intros Hpre Hd. unfold defaultLocale.
  induction Hpre as [|x pre Hx _ IH]; simpl.
  - by rewrite Hd.
  - destruct (is_default x) as [[|]|]; [congruence | exact IH..].
Qed.

Lemma defaultLocale_fallback (locales : list locale_desc) :
  Forall (fun x => is_default x <> Some true) locales ->
  defaultLocale locales = FALLBACK_LOCALE.
Proof.
  unfold defaultLocale. induction 1 as [|x l Hx _ IH]; simpl; [reflexivity|].
  destruct (is_default x) as [[|]|]; [congruence | exact IH..].
Qed.

Lemma select_locale_map (h : heap) (locale fallback : string) (lm : obj) :
  select_locale h locale fallback (VObj lm)
  = Ok (if truthy (default VUndef (prop_get lm locale))
        then default VUndef (prop_get lm locale)
        else if truthy (default VUndef (prop_get lm fallback))
             then default VUndef (prop_get lm fallback)
             else VObj lm).
Proof. unfold select_locale. simpl. by destruct (truthy _). Qed.

Lemma heap_obj_alloc (h : heap) (o : obj) (l : nat) :
  l < length h -> heap_obj (h ++ [o]) l = heap_obj h l.
Proof. intros Hl. unfold heap_obj. by rewrite lookup_app_l. Qed.

Lemma heap_obj_alloc_empty (h : heap) (l : nat) :
  heap_obj (h ++ [[]]) l = heap_obj h l.
Proof.
  unfold heap_obj. destruct (decide (l < length h)) as [Hl|Hl].
  - by rewrite lookup_app_l.
  - rewrite (lookup_ge_None_2 h l) by lia. simpl.
    rewrite lookup_app_r by lia.
    by destruct (l - length h) as [|[|?]].
Qed.

Lemma heap_obj_set_eq (h : heap) (l : nat) (k : string) (v : value) :
  l < length h -> heap_obj (heap_set h l k v) l = prop_set (heap_obj h l) k v.
Proof.
  intros Hl. unfold heap_set. unfold heap_obj at 1.
  by rewrite list_lookup_insert_eq.
Qed.

Lemma heap_obj_set_ne (h : heap) (l l' : nat) (k : string) (v : value) :
  l ≠ l' -> heap_obj (heap_set h l k v) l' = heap_obj h l'.
Proof.
  intros Hne. unfold heap_set. unfold heap_obj at 1 3.
  by rewrite list_lookup_insert_ne.
Qed.

Lemma heap_set_length (h : heap) (l : nat) (k : string) (v : value) :
  length (heap_set h l k v) = length h.
Proof. unfold heap_set. apply length_insert. Qed.

Lemma entries_alloc_empty (h : heap) (v : value) :
  entries (h ++ [[]]) v = entries h v.
Proof. destruct v; try reflexivity; simpl; apply heap_obj_alloc_empty. Qed.

Section Frame.

(** The output object [root] of one item, and what the walk does to it
    once its own node is done: nothing. *)
Variables (locale fallback : string) (root : nat).

Local Abbreviation apart := (apart root).

Lemma visit_elements_frame d elements itemContext h queue :
  apart h queue ->
  match fold_left (visit_element d) elements (itemContext, h, queue) with
  | (_, h', queue') => apart h' queue' /\ heap_obj h' root = heap_obj h root
  end.
Proof.
  revert itemContext h queue.
  induction elements as [|x elements IH]; intros itemContext h queue [Hlt Hq];
    cbn [fold_left]; [done|].
  unfold visit_element at 2. destruct (typeof_object x); cbn [alloc].
  - specialize (IH (itemContext ++ [VLoc (length h)])%list (h ++ [[]])%list
                   (queue ++ [mkNode (length h) x (S d)])%list).
    destruct (fold_left _ _ _) as [[ic h'] q'].
    destruct IH as [Ha Ho].
    + split; [rewrite length_app; simpl; lia|].
      apply Forall_app. split; [done|]. constructor; [simpl; lia | constructor].
    + split; [done|]. by rewrite Ho, heap_obj_alloc.
  - by apply IH.
Qed.

Lemma visit_prop_frame ctx d h queue key valueObj h' queue' :
  visit_prop locale fallback ctx d (h, queue) (key, valueObj) = Ok (h', queue') ->
  apart h queue ->
  apart h' queue'
  /\ forall k, ctx ≠ root \/ k ≠ key ->
               prop_get (heap_obj h' root) k = prop_get (heap_obj h root) k.
Proof.
  intros H [Hlt Hq]. unfold visit_prop in H.
  assert (Hset : forall h0 x k,
             ctx ≠ root \/ k ≠ key ->
             prop_get (heap_obj (heap_set h0 ctx key x) root) k
             = prop_get (heap_obj h0 root) k).
  { intros h0 x k [Hc|Hk]; [by rewrite heap_obj_set_ne|].
    destruct (decide (ctx = root)) as [->|Hc]; [|by rewrite heap_obj_set_ne].
    destruct (decide (root < length h0)) as [Hr|Hr].
    - rewrite heap_obj_set_eq by done. by rewrite prop_get_set_ne.
    - unfold heap_set. by rewrite list_insert_ge by lia. }
  destruct (is_nullish valueObj); [by injection H as <- <-|].
  bind_inv H. rename a into val.
  destruct (negb (typeof_object val)).
  { injection H as <- <-. split; [split; [by rewrite heap_set_length | done]|].
    intros k Hk. by apply Hset. }
  assert (Hobj : forall h0 q0,
             Ok (let '(c, h1) := alloc h0 [] in
                 (heap_set h1 ctx key (VLoc c),
                  (q0 ++ [mkNode c val (S d)])%list)) = Ok (h', queue') ->
             apart h0 q0 ->
             apart h' queue'
             /\ forall k, ctx ≠ root \/ k ≠ key ->
                          prop_get (heap_obj h' root) k
                          = prop_get (heap_obj h0 root) k).
  { cbn [alloc]. intros h0 q0 [= <- <-] [Hlt0 Hq0]. split.
    - split; [rewrite heap_set_length, length_app; simpl; lia|].
      apply Forall_app. split; [done|]. constructor; [simpl; lia | constructor].
    - intros k Hk. rewrite Hset by done. by rewrite heap_obj_alloc. }
  destruct val; try (apply (Hobj h queue); [exact H | done]).
  pose proof (visit_elements_frame d items [] h queue (conj Hlt Hq)) as Hf.
  destruct (fold_left _ _ _) as [[ic h1] q1]. destruct Hf as [[Hlt1 Hq1] Ho].
  injection H as <- <-. split; [split; [by rewrite heap_set_length | done]|].
  intros k Hk. rewrite Hset by done. by rewrite Ho.
Qed.

Lemma visit_props_frame ctx d props h queue h' queue' :
  foldM (visit_prop locale fallback ctx d) props (h, queue) = Ok (h', queue') ->
  apart h queue ->
  apart h' queue'
  /\ forall k, ctx ≠ root \/ k ∉ List.map fst props ->
               prop_get (heap_obj h' root) k = prop_get (heap_obj h root) k.
Proof.
  revert h queue. induction props as [|[key v] props IH]; cbn [foldM];
    intros h queue H Ha.
  - by injection H as <- <-.
  - bind_inv H. destruct a as [h1 q1].
    destruct (visit_prop_frame _ _ _ _ _ _ _ _ E Ha) as [Ha1 Hk1].
    destruct (IH _ _ H Ha1) as [Ha' Hk']. split; [done|].
    intros k Hk. rewrite Hk', Hk1; [done | |].
    + destruct Hk as [?|Hk]; [by left|]. right. intros ->. apply Hk.
      apply elem_of_cons. by left.
    + destruct Hk as [?|Hk]; [by left|]. right. intros Hin. apply Hk.
      apply elem_of_cons. by right.
Qed.

Lemma walk_frame fuel h queue h' k :
  walk fuel locale fallback h queue = Ok h' ->
  apart h queue ->
  prop_get (heap_obj h' root) k = prop_get (heap_obj h root) k.
Proof.
  revert h queue. induction fuel as [|fuel IH]; intros h [|current queue] H Ha;
    cbn [walk] in H; try by injection H as <-.
  - discriminate.
  - bind_inv H. bind_inv H. destruct a0 as [h1 q1].
    destruct Ha as [Hlt Hq]. apply Forall_cons in Hq as [Hc Hq].
    destruct (visit_props_frame _ _ _ _ _ _ _ E0 (conj Hlt Hq)) as [Ha1 Hk1].
    rewrite (IH _ _ H Ha1). apply Hk1. by left.
Qed.

(** The node of [root] itself: a key whose selected value is a primitive
    is assigned that value, and no later key of the node touches it. *)
Lemma visit_props_leaf d props h queue h' queue' key lm p :
  foldM (visit_prop locale fallback root d) props (h, queue) = Ok (h', queue') ->
  apart h queue ->
  NoDup (List.map fst props) ->
  (key, VObj lm) ∈ props ->
  select_locale [] locale fallback (VObj lm) = Ok p ->
  typeof_object p = false ->
  prop_get (heap_obj h' root) key = Some p.
Proof.
  intros H Ha Hnd Hin Hsel Hp.
  apply list_elem_of_split in Hin as (pre & post & ->).
  rewrite foldM_app in H. bind_inv H. destruct a as [h1 q1].
  destruct (visit_props_frame _ _ _ _ _ _ _ E Ha) as [Ha1 _].
  cbn [foldM] in H. bind_inv H. destruct a as [h2 q2].
  destruct (visit_prop_frame _ _ _ _ _ _ _ _ E0 Ha1) as [Ha2 _].
  destruct (visit_props_frame _ _ _ _ _ _ _ H Ha2) as [_ Hk].
  rewrite Hk.
  - unfold visit_prop in E0. cbn [is_nullish] in E0.
    rewrite select_locale_map in E0. rewrite select_locale_map in Hsel.
    injection Hsel as Hsel. rewrite Hsel, ret_bind, Hp in E0.
    cbn [negb] in E0. injection E0 as <- <-.
    rewrite heap_obj_set_eq by apply Ha1. apply prop_get_set_eq.
  - right. rewrite map_app in Hnd. apply NoDup_app in Hnd as (_ & _ & Hpost).
    cbn [List.map fst] in Hpost. by apply NoDup_cons in Hpost as [? _].
Qed.

End Frame.

(** X20: the default locale is the code of the first descriptor whose
    [default] flag is true, and ["en-US"] when there is none.  For a key of
    a top-level item that holds a locale map (the keys of the item being
    distinct), the flattener selects the value at the target locale when
    that value is truthy, else the value at the default locale when that
    one is truthy, else the map itself; and when the selected value is a
    primitive, flattening the item for that locale, if it returns, appends
    one new object to the models of the locale, which has the selected
    value at that key. *)
Theorem X20_flattened_field_selects_truthy_locale
        (fuel : nat) (locales : list locale_desc) (locale key : string)
        (rawItem : value) (lm : obj) (p : value)
        (localeContext localeContext' : list value) (h h' : heap) :
  let fallback := defaultLocale locales in
  let at_locale := default VUndef (prop_get lm locale) in
  let at_default := default VUndef (prop_get lm fallback) in
  is_nullish rawItem = false ->
  NoDup (List.map fst (entries h rawItem)) ->
  (key, VObj lm) ∈ entries h rawItem ->
  p = (if truthy at_locale then at_locale
       else if truthy at_default then at_default else VObj lm) ->
  typeof_object p = false ->
  flatten_item fuel locale fallback (localeContext, h) rawItem
  = Ok (localeContext', h') ->
  (forall pre d post,
     locales = (pre ++ d :: post)%list ->
     Forall (fun x => is_default x <> Some true) pre ->
     is_default d = Some true -> fallback = code d)
  /\ (Forall (fun x => is_default x <> Some true) locales -> fallback = "en-US")
  /\ select_locale h locale fallback (VObj lm) = Ok p
  /\ localeContext' = (localeContext ++ [VLoc (length h)])%list
  /\ prop_get (heap_obj h' (length h)) key = Some p.
Proof.
  intros fallback at_locale at_default Hitem Hnd Hin Hp Hprim Hrun.
  split; [|split; [|split]].
  - intros pre d post -> Hpre Hd. by apply defaultLocale_flagged.
  - apply defaultLocale_fallback.
  - rewrite select_locale_map. by subst p.
  - unfold flatten_item in Hrun. cbn [alloc] in Hrun.
    bind_inv Hrun. injection Hrun as <- <-. split; [reflexivity|].
    destruct fuel as [|fuel]; cbn [walk] in E; [discriminate|].
    cbn [item context depth] in E. unfold object_entries in E.
    rewrite Hitem, ret_bind, entries_alloc_empty in E.
    bind_inv E. destruct a0 as [h1 q1].
    assert (Ha : apart (length h) (h ++ [[]]) []).
    { split; [rewrite length_app; simpl; lia | constructor]. }
    destruct (visit_props_frame _ _ _ _ _ _ _ _ _ _ E0 Ha) as [Ha1 _].
    rewrite (walk_frame _ _ _ _ _ _ _ _ E Ha1).
    eapply visit_props_leaf; eauto.
    rewrite select_locale_map. by subst p.
Qed.

Lemma X20_flattened_field_selects_truthy_locale_witness :
  prop_get
    (heap_obj (LocaleFallback.models ++ [LocaleFallback.flat])%list 1) "title"
  = Some (VStr "Hi")
  /\ _flattenLocales 1 LocaleFallback.locales (VArr [VLoc 0])
       LocaleFallback.models
     = Ok (VObj [("en-US", VArr [VLoc 1]); ("fr", VArr [VLoc 2])],
           (LocaleFallback.models
            ++ [LocaleFallback.flat; LocaleFallback.flat])%list).
Proof.
  split; [|reflexivity].
  refine (proj2 (proj2 (proj2 (proj2
    (X20_flattened_field_selects_truthy_locale
       1 LocaleFallback.locales "fr" "title" (VLoc 0) LocaleFallback.title
       (VStr "Hi") [] [VLoc 1] LocaleFallback.models
       (LocaleFallback.models ++ [LocaleFallback.flat])%list _ _ _ _ _ _))))).
  - reflexivity.
  - apply (bool_decide_unpack (NoDup _)); vm_compute; exact I.
  - apply list_elem_of_In. simpl. left. reflexivity.
  - reflexivity.
  - reflexivity.
  - reflexivity.
Defined.

(** C9, at an input where the code departs from it: the value at the target
    locale is present but falsy.  With [count] 5 at [en-US] (the default)
    and 0 at [fr], the test [if (value[locale])] takes the 0 for a missing
    value, and the model flattened for [fr] has [count] 5, not 0. *)
Lemma C9_present_falsy_value_falls_back :
  match getModels LocaleFallback.client (Ok LocaleFallback.locales) 1
          [("locale", VStr "*")] None with
  | Ok (v, h, _) =>
      snapshot 8 h v
      = Some (VObj [("items",
                     VObj [("en-US",
                            VArr [VObj [("count", VNum 5); ("_id", VStr "e1");
                                        ("_type", VStr "post")]]);
                           ("fr",
                            VArr [VObj [("count", VNum 5); ("_id", VStr "e1");
                                        ("_type", VStr "post")]])]);
                    ("skip", VUndef); ("limit", VUndef); ("total", VUndef)])
  | _ => False
  end
  /\ get_path [] LocaleFallback.e1 ["fields"; "count"; "fr"] = Ok (VNum 0).
Proof. split; reflexivity. Qed.

(** ** Failures of the media transform *)

Lemma get_prop_fuel (h : heap) (v : value) (k : string) :
  get_prop h v k <> OutOfFuel.
Proof. by destruct v. Qed.

Lemma toMedia_fuel h sys fields mediaTransform :
  _toMedia h sys fields mediaTransform <> OutOfFuel.
Proof.
  unfold _toMedia.
  repeat match goal with
         | |- mbind _ (get_prop ?h ?v ?k) <> _ =>
             let E := fresh in
             destruct (get_prop h v k) eqn:E; cbn [mbind result_bind];
             [|discriminate|by apply get_prop_fuel in E]
         end.
  destruct mediaTransform as [transform|]; [|discriminate].
  by destruct (transform _).
Qed.

Lemma locale_descriptor_fuel h sys mediaTransform entry :
  locale_descriptor h sys mediaTransform entry <> OutOfFuel.
Proof.
  unfold locale_descriptor.
  destruct (get_prop h entry "fields") as [fields| |] eqn:E1; cbn [mbind result_bind];
    [|discriminate|by apply get_prop_fuel in E1].
  destruct (get_prop h fields "file") as [file| |] eqn:E2; cbn [mbind result_bind];
    [|discriminate|by apply get_prop_fuel in E2].
  destruct (truthy file); [|discriminate].
  pose proof (toMedia_fuel h sys fields mediaTransform).
  by destruct (_toMedia h sys fields mediaTransform).
Qed.

(** The hook fails on the descriptor that [_toMedia] builds. *)
Lemma toMedia_hook_failed h sys fields hook media msg :
  _toMedia h sys fields None = Ok media ->
  hook media = Failed msg ->
  _toMedia h sys fields (Some hook) = Throw (HookError msg).
Proof.
  unfold _toMedia. intros H Hhook.
  repeat match type of H with
         | mbind _ (get_prop ?h ?v ?k) = _ =>
             let E := fresh in
             destruct (get_prop h v k) eqn:E; cbn [mbind result_bind] in H |- *;
             [|discriminate H..]
         end.
  injection H as H. cbn in H |- *. by rewrite H, Hhook.
Qed.

(** What the callback does with the outcome of its [try] block. *)
Lemma locale_media_outcome h sys mediaTransform media log locale entry :
  locale_media h sys mediaTransform (media, log) (locale, entry)
  = match locale_descriptor h sys mediaTransform entry with
    | Ok (Some transformed) => Ok (prop_set media locale (VObj transformed), log)
    | Ok None => Ok (media, log)
    | Throw e => Ok (media, (log ++ [(MEDIA_ERROR, e)])%list)
    | OutOfFuel => OutOfFuel
    end.
Proof.
  unfold locale_media.
  by destruct (locale_descriptor h sys mediaTransform entry) as [[?|]| |].
Qed.

Lemma locale_medias h sys mediaTransform groups :
  NoDup (List.map fst groups) ->
  forall media log,
  exists media' log',
    foldM (locale_media h sys mediaTransform) groups (media, log) = Ok (media', log')
    /\ (forall x, x ∈ log -> x ∈ log')
    /\ (forall locale, locale ∉ List.map fst groups ->
                       prop_get media' locale = prop_get media locale)
    /\ (forall locale entry, (locale, entry) ∈ groups ->
          match locale_descriptor h sys mediaTransform entry with
          | Ok (Some transformed) => prop_get media' locale = Some (VObj transformed)
          | Ok None => prop_get media' locale = prop_get media locale
          | Throw e => prop_get media' locale = prop_get media locale
                       /\ (MEDIA_ERROR, e) ∈ log'
          | OutOfFuel => False
          end).
Proof.
  induction groups as [|[loc ent] groups IH]; cbn [foldM List.map fst];
    intros Hnd media log.
  - exists media, log. repeat split; try done. intros ? ? Hin.
    by apply elem_of_nil in Hin.
  - apply NoDup_cons in Hnd as [Hloc Hnd].
    rewrite locale_media_outcome.
    pose proof (locale_descriptor_fuel h sys mediaTransform ent) as Hfuel.
    destruct (locale_descriptor h sys mediaTransform ent) as [d|e|] eqn:Ed;
      [|clear Hfuel|done].
    + set (media1 := match d with
                     | Some transformed => prop_set media loc (VObj transformed)
                     | None => media
                     end).
      destruct (IH Hnd media1 log) as (media' & log' & Hrun & Hlog & Hout & Hin).
      exists media', log'. split; [by destruct d|]. split; [done|]. split.
      * intros locale Hl. apply not_elem_of_cons in Hl as [Hne Hl].
        rewrite Hout by done. subst media1. destruct d; [|done].
        by rewrite prop_get_set_ne.
      * intros locale entry Hle. apply elem_of_cons in Hle as [[= -> ->]|Hle].
        -- rewrite Ed, Hout by done. subst media1. destruct d; [|done].
           apply prop_get_set_eq.
        -- specialize (Hin _ _ Hle).
           assert (Hne : loc ≠ locale).
           { intros ->. apply Hloc. apply list_elem_of_fmap. by exists (locale, entry). }
           assert (Hm : prop_get media1 locale = prop_get media locale).
           { subst media1. destruct d; [|done]. by rewrite prop_get_set_ne. }
           destruct (locale_descriptor h sys mediaTransform entry) as [[?|]| |];
             [done | by rewrite <- Hm | by rewrite <- Hm | done].
    + destruct (IH Hnd media (log ++ [(MEDIA_ERROR, e)])%list)
        as (media' & log' & Hrun & Hlog & Hout & Hin).
      exists media', log'. split; [done|]. split; [|split].
      * intros x Hx. apply Hlog. apply elem_of_app. by left.
      * intros locale Hl. apply not_elem_of_cons in Hl as [_ Hl]. by apply Hout.
      * intros locale entry Hle. apply elem_of_cons in Hle as [[= -> ->]|Hle].
        -- rewrite Ed. split; [by apply Hout|].
           apply Hlog. apply elem_of_app. right. apply list_elem_of_singleton.
           reflexivity.
        -- by apply Hin.
Qed.

Lemma prop_set_keys (o : obj) (k : string) (v : value) :
  NoDup (List.map fst o) -> NoDup (List.map fst (prop_set o k v)).
Proof.
  intros Hnd. destruct (prop_get o k) eqn:E.
  - replace (List.map fst (prop_set o k v)) with (List.map fst o); [done|].
    clear Hnd. induction o as [|[k' v'] o IH]; [discriminate|]. simpl in *.
    destruct (String.eqb_spec k' k) as [->|_]; simpl; [done|]. by rewrite <- IH.
  - rewrite prop_set_fresh, map_app by done. apply NoDup_app. repeat split.
    + done.
    + intros x Hx Hin. apply list_elem_of_singleton in Hin as ->.
      by apply prop_get_None_keys in E.
    + apply NoDup_singleton.
Qed.

Lemma prop_set_Forall (P : value -> Prop) (o : obj) (k : string) (v : value) :
  Forall (fun kv => P (snd kv)) o -> P v ->
  Forall (fun kv => P (snd kv)) (prop_set o k v).
Proof.
  intros Ho Hv. induction Ho as [|[k' v'] o Hx Ho IH]; simpl.
  - by constructor.
  - destruct (String.eqb k' k); by constructor.
Qed.

Lemma prop_get_Forall (P : value -> Prop) (o : obj) (k : string) (v : value) :
  Forall (fun kv => P (snd kv)) o -> prop_get o k = Some v -> P v.
Proof.
  induction 1 as [|[k' v'] o Hx Ho IH]; simpl; [discriminate|].
  destruct (String.eqb k' k); [by intros [= <-] | exact IH].
Qed.

Lemma pivot_locale_groups h sys key field locales locale locales' :
  groups_ok locales ->
  pivot_locale h sys key field locales locale = Ok locales' ->
  groups_ok locales'.
Proof.
  intros Hacc H. unfold pivot_locale in H.
  set (acc1 := if truthy (default VUndef (prop_get locales locale)) then locales
               else prop_set locales locale (VObj [("sys", sys); ("fields", VObj [])]))
    in H.
  assert (Hacc1 : groups_ok acc1).
  { subst acc1. destruct (truthy _); [done|]. destruct Hacc. split.
    - by apply prop_set_keys.
    - apply prop_set_Forall; [done | by eexists]. }
  bind_inv H. bind_inv H. injection H as <-. destruct Hacc1 as [Hnd Hobj]. split.
  - by apply prop_set_keys.
  - apply prop_set_Forall; [done|].
    destruct (prop_get acc1 locale) as [group|] eqn:Eg; [|discriminate E0].
    destruct (prop_get_Forall _ _ _ _ Hobj Eg) as [o ->]. by eexists.
Qed.

Lemma foldM_invariant {A S : Type} (P : S -> Prop) (f : S -> A -> result S) :
  (forall s x s', P s -> f s x = Ok s' -> P s') ->
  forall l s s', P s -> foldM f l s = Ok s' -> P s'.
Proof.
  intros Hf. induction l as [|x l IH]; cbn [foldM]; intros s s' Hs H.
  - by injection H as <-.
  - bind_inv H. eauto.
Qed.

Lemma parseAssetByLocale_groups h asset locales :
  _parseAssetByLocale h asset = Ok locales -> groups_ok locales.
Proof.
  unfold _parseAssetByLocale. intros H. bind_inv H. bind_inv H.
  eapply (foldM_invariant groups_ok); [| |exact H].
  - intros s [key field] s' Hs Hrun. cbn [fst snd] in Hrun.
    eapply (foldM_invariant groups_ok); [| |exact Hrun]; [|done].
    intros ? ? ? ? ?. by eapply pivot_locale_groups.
  - split; constructor.
Qed.

Lemma each_groups h locales : groups_ok locales -> each h (VObj locales) = locales.
Proof.
  intros [_ Hobj]. unfold each, array_like_length. simpl.
  destruct (prop_get locales "length") as [v|] eqn:E; [|done].
  by destruct (prop_get_Forall _ _ _ _ Hobj E) as [o ->].
Qed.

Lemma toMedia_hook h sys fields hook media :
  _toMedia h sys fields None = Ok media ->
  _toMedia h sys fields (Some hook)
  = match hook media with
    | Transformed media' => Ok media'
    | Failed msg => Throw (HookError msg)
    end.
Proof.
  unfold _toMedia. intros H.
  repeat match type of H with
         | mbind _ (get_prop ?h ?v ?k) = _ =>
             let E := fresh in
             destruct (get_prop h v k) eqn:E; cbn [mbind result_bind] in H |- *;
             [|discriminate H..]
         end.
  injection H as H. cbn in H |- *. by rewrite H.
Qed.



(** ** Link index builder *)

Lemma no_refs_safe_path (h : heap) (path : list string) :
  forall v, no_refs v = true -> no_refs (safe_path h v path) = true.
Proof.
  induction path as [|k path IH]; cbn [safe_path]; intros v Hv; [done|].
  destruct (get_prop h v k) as [x| |] eqn:E; [|done..].
  apply IH. by apply (no_refs_get_prop _ _ _ _ Hv E).
Qed.

Lemma no_refs_records (json : value) (whole : string) (path : list string)
      (rs : list value) :
  no_refs json = true -> records json whole path = Ok rs ->
  Forall (fun r => no_refs r = true) rs.
Proof.
  intros Hj. unfold records.
  assert (Hfound : no_refs (lodash_get [] json whole path) = true).
  { unfold lodash_get.
    destruct (prop_get _ whole) as [x|] eqn:E; [|by apply no_refs_safe_path].
    destruct json; try discriminate E. by apply (no_refs_prop_get props whole). }
  destruct (lodash_get [] json whole path) as [| | | |s|l| | |];
    simpl; try discriminate; try (intros [= <-]; constructor).
  - destruct b; simpl; [discriminate | intros [= <-]; constructor].
  - destruct (negb _); simpl; [discriminate | intros [= <-]; constructor].
  - destruct (String.eqb s ""); simpl; [intros [= <-]; constructor|].
    intros [= <-]. apply no_refs_string_chars.
  - intros [= <-]. apply Forall_forall. intros y Hy.
    apply list_elem_of_In in Hy. by apply (proj1 (forallb_forall _ _) Hfound).
Qed.

Lemma last_with_key_snoc (key : string) (rs : list value) (r : value) :
  last_with_key key (rs ++ [r])
  = if has_key key r then Some r else last_with_key key rs.
Proof. unfold last_with_key. by rewrite rev_app_distr. Qed.

Section Indexing.

(** A loop of [_createLinks]: every turn stores one new object [o], related
    to the record by [slot], under the key of the record. *)
Variable step : index -> value -> result index.
Variable slot : value -> obj -> Prop.

Hypothesis step_stores : forall ix r ix',
  no_refs r = true -> step ix r = Ok ix' ->
  exists key o,
    record_key r = Some key /\ slot r o
    /\ links ix' = <[key := length (store ix)]> (links ix)
    /\ store ix' = (store ix ++ [o])%list.

Lemma indexing_last_wins rs :
  Forall (fun r => no_refs r = true) rs ->
  forall ix ix', foldM step rs ix = Ok ix' ->
  (exists ext, store ix' = (store ix ++ ext)%list)
  /\ forall key,
      match last_with_key key rs with
      | Some r => exists l o, links ix' !! key = Some l
                              /\ store ix' !! l = Some o /\ slot r o
      | None => links ix' !! key = links ix !! key
      end.
Proof.
  induction rs as [|r rs IH] using rev_ind; intros Hrs ix ix' H.
  - injection H as <-. split; [exists []; by rewrite app_nil_r | done].
  - apply Forall_app in Hrs as [Hrs Hr]. apply Forall_inv in Hr.
    rewrite foldM_app in H. bind_inv H. rename a into ix1.
    cbn [foldM] in H. bind_inv H. injection H as <-. rename a into ix2.
    destruct (IH Hrs _ _ E) as [[ext Hext] Hkeys].
    destruct (step_stores _ _ _ Hr E0) as (key_r & o & Hkey & Hslot & Hlinks & Hstore).
    split; [exists (ext ++ [o])%list; by rewrite Hstore, Hext, app_assoc|].
    intros key. rewrite last_with_key_snoc. unfold has_key. rewrite Hkey.
    case_bool_decide as Hk.
    + injection Hk as ->. exists (length (store ix1)), o.
      rewrite Hlinks, lookup_insert_eq, Hstore.
      by rewrite lookup_app_r, Nat.sub_diag by lia.
    + assert (key_r ≠ key) by congruence.
      specialize (Hkeys key). destruct (last_with_key key rs) as [r0|].
      * destruct Hkeys as (l & o0 & Hl & Ho & Hs). exists l, o0.
        rewrite Hlinks, lookup_insert_ne, Hstore by done.
        rewrite lookup_app_l by (by eapply lookup_lt_Some). done.
      * by rewrite Hlinks, lookup_insert_ne.
Qed.

End Indexing.

Lemma record_key_of (h : heap) (r sys id : value) :
  no_refs r = true ->
  get_prop h r "sys" = Ok sys -> get_prop h sys "id" = Ok id ->
  record_key r = Some (to_string id).
Proof.
  intros Hr Hsys Hid. unfold record_key. cbn [get_path].
  destruct (no_refs_get_prop _ _ _ _ Hr Hsys) as [Hs ->]. rewrite ret_bind.
  destruct (no_refs_get_prop _ _ _ _ Hs Hid) as [_ ->]. by rewrite ret_bind.
Qed.

Lemma link_entry_stores ix r ix' :
  no_refs r = true -> link_entry ix r = Ok ix' ->
  exists key o,
    record_key r = Some key /\ deferred_slot r o
    /\ links ix' = <[key := length (store ix)]> (links ix)
    /\ store ix' = (store ix ++ [o])%list.
Proof.
  intros Hr H. unfold link_entry in H. bind_inv H. bind_inv H.
  cbn [alloc] in H. injection H as <-.
  exists (to_string a0), [("_deferred", r)]. repeat split.
  by apply (record_key_of (store ix) r a a0).
Qed.

Lemma link_asset_stores multiLocale mediaTransform ix r ix' :
  no_refs r = true -> link_asset multiLocale mediaTransform ix r = Ok ix' ->
  exists key o,
    record_key r = Some key /\ media_slot multiLocale mediaTransform r o
    /\ links ix' = <[key := length (store ix)]> (links ix)
    /\ store ix' = (store ix ++ [o])%list.
Proof.
  intros Hr H. unfold link_asset in H. bind_inv H. bind_inv H.
  destruct a0 as [media log]. bind_inv H. cbn [alloc] in H. injection H as <-.
  exists (to_string a0), media. repeat split.
  - by apply (record_key_of (store ix) r a a0).
  - by exists (store ix), (logged ix), log.
Qed.

(** C5: the link index built from a payload has, for every key, the slot
    written last in the order included assets, included entries, top-level
    items (and within one array, the last record with that key): a
    top-level item with the key gives a deferred slot holding that item;
    failing that, an included entry with the key gives a deferred slot
    holding that entry; failing that, an included asset with the key gives
    its media; and a key that no record has is not in the index.  Since the
    index is a map, there is one slot per key. *)
Theorem C5_later_source_wins
        (json : value) (multiLocale : bool)
        (mediaTransform : option MediaTransform) (ix : index) (key : string) :
  no_refs json = true ->
  _createLinks json multiLocale mediaTransform = Ok ix ->
  exists assets included items,
    records json "includes.Asset" ["includes"; "Asset"] = Ok assets
    /\ records json "includes.Entry" ["includes"; "Entry"] = Ok included
    /\ records json "items" ["items"] = Ok items
    /\ match last_with_key key items, last_with_key key included,
             last_with_key key assets with
       | Some entry, _, _ | None, Some entry, _ =>
           exists l, links ix !! key = Some l
                     /\ store ix !! l = Some [("_deferred", entry)]
       | None, None, Some asset =>
           exists l media, links ix !! key = Some l
                           /\ store ix !! l = Some media
                           /\ media_slot multiLocale mediaTransform asset media
       | None, None, None => links ix !! key = None
       end.
Proof.
  intros Hjson H. unfold _createLinks in H.
  bind_inv H. rename a into assets. bind_inv H. rename a into ix1.
  bind_inv H. rename a into included. bind_inv H. rename a into ix2.
  bind_inv H. rename a into items.
  exists assets, included, items. repeat split; try done.
  pose proof (no_refs_records _ _ _ _ Hjson E) as Ha.
  pose proof (no_refs_records _ _ _ _ Hjson E1) as Hi.
  pose proof (no_refs_records _ _ _ _ Hjson E3) as Ht.
  destruct (indexing_last_wins _ _ (link_asset_stores multiLocale mediaTransform)
              assets Ha _ _ E0) as [_ Hk1].
  destruct (indexing_last_wins _ _ link_entry_stores included Hi _ _ E2)
    as [[ext2 Hext2] Hk2].
  destruct (indexing_last_wins _ _ link_entry_stores items Ht _ _ H)
    as [[ext3 Hext3] Hk3].
  specialize (Hk1 key). specialize (Hk2 key). specialize (Hk3 key).
  destruct (last_with_key key items) as [entry|].
  { destruct Hk3 as (l & o & Hl & Ho & ->). by exists l. }
  destruct (last_with_key key included) as [entry|].
  { destruct Hk2 as (l & o & Hl & Ho & ->). exists l. rewrite Hk3, Hext3.
    split; [done|]. rewrite lookup_app_l; [done | by eapply lookup_lt_Some]. }
  destruct (last_with_key key assets) as [asset|].
  { destruct Hk1 as (l & o & Hl & Ho & Hs). exists l, o. rewrite Hk3, Hk2.
    split; [done|]. split; [|done]. rewrite Hext3, Hext2.
    assert (l < length (store ix1)) by (by eapply lookup_lt_Some).
    rewrite !lookup_app_l; [done | lia | rewrite length_app; lia]. }
  by rewrite Hk3, Hk2, Hk1.
Qed.

Lemma C5_later_source_wins_witness :
  (exists ix,
     _createLinks Precedence.payload false None = Ok ix
     /\ exists l, links ix !! "x" = Some l
                  /\ store ix !! l = Some [("_deferred", Precedence.top)])
  /\ match getModels Precedence.client (Ok []) 1 [] None with
     | Ok (v, h, _) =>
         snapshot 8 h v
         = Some (VObj [("items",
                        VArr [VObj [("title", VStr "new"); ("_id", VStr "x");
                                    ("_type", VStr "post")]]);
                       ("skip", VUndef); ("limit", VUndef); ("total", VUndef)])
     | _ => False
     end.
Proof.
  split; [|reflexivity].
  destruct (_createLinks Precedence.payload false None) as [ix| |] eqn:E;
    [|discriminate E..].
  exists ix. split; [reflexivity|].
  destruct (C5_later_source_wins Precedence.payload false None ix "x" eq_refl E)
    as (assets & included & items & Ha & Hi & Ht & Hslot).
  injection Ht as <-. injection Hi as <-.
  exact Hslot.
Defined.

(** Every top-level item is a key of the index that [_createLinks]
    answers. *)
Lemma items_are_indexed (json : value) (multiLocale : bool)
      (mediaTransform : option MediaTransform) (ix : index)
      (items : list value) (r : value) (key : string) :
  no_refs json = true ->
  _createLinks json multiLocale mediaTransform = Ok ix ->
  records json "items" ["items"] = Ok items ->
  r ∈ items -> record_key r = Some key ->
  is_Some (links ix !! key).
Proof.
  intros Hjson H Hitems Hr Hkey. unfold _createLinks in H.
  bind_inv H. bind_inv H. bind_inv H. bind_inv H. bind_inv H.
  rewrite Hitems in E3. injection E3 as <-.
  pose proof (no_refs_records _ _ _ _ Hjson Hitems) as Ht.
  destruct (indexing_last_wins _ _ link_entry_stores items Ht _ _ H) as [_ Hk].
  specialize (Hk key).
  destruct (last_with_key key items) as [entry|] eqn:Hlast.
  - destruct Hk as (l & _ & Hl & _). by exists l.
  - unfold last_with_key in Hlast.
    assert (Hin : In r (rev items)).
    { apply (proj1 (in_rev _ _)). by apply list_elem_of_In. }
    apply (find_none _ _ Hlast), bool_decide_eq_false in Hin. contradiction.
Qed.

(** ** Invariants of the resolver in single-locale mode *)

Lemma prop_get_heap_set_ne (h : heap) (l l' : nat) (k k' : string) (v : value) :
  k ≠ k' ->
  prop_get (heap_obj (heap_set h l k v) l') k' = prop_get (heap_obj h l') k'.
Proof.
  intros Hk. destruct (decide (l = l')) as [<-|Hl]; [|by rewrite heap_obj_set_ne].
  destruct (decide (l < length h)) as [Hlt|Hge].
  - rewrite heap_obj_set_eq by done. by apply prop_get_set_ne.
  - unfold heap_set. by rewrite list_insert_ge by lia.
Qed.

Lemma deferred_at_heap_set (h : heap) (l l' : nat) (k : string) (v : value) :
  k ≠ "_deferred" -> deferred_at (heap_set h l k v) l' = deferred_at h l'.
Proof. intros Hk. unfold deferred_at. by rewrite prop_get_heap_set_ne. Qed.

Section Invariant.

Variable links : gmap string nat.
Variable self : value -> bool -> action obj.

(** A property of the heap that survives the stamping of metadata, the
    recursive call, and the resolution of a slot after the recursive call
    on its deferred entry has returned. *)
Variable P : heap -> Prop.

Hypothesis P_stamp : forall h l k v,
  k ≠ "_deferred" -> P h -> P (heap_set h l k v).

Hypothesis P_self : forall entry h parsed h',
  P h -> self entry false h = Ok (parsed, h') -> P h'.

Hypothesis P_resolve : forall h l parsed h',
  P h -> is_deferred h l = true ->
  self (deferred_at h l) false h = Ok (parsed, h') ->
  P h' -> P (resolve_slot h' l parsed).

Lemma dereferenceLink_invariant ref h v h' :
  P h -> _dereferenceLink links self ref None h = Ok (v, h') -> P h'.
Proof.
  intros HP H. unfold _dereferenceLink in H.
  bind_inv H. bind_inv H. bind_inv H. rename a1 into modelId.
  destruct (index_get links (to_string modelId)) as [[link l]|];
    [|by injection H as <- <-].
  fold (deferred_at (heap_set h l "_id" modelId) l) in H.
  destruct (truthy (deferred_at (heap_set h l "_id" modelId) l)) eqn:Hd;
    [|injection H as <- <-; by apply P_stamp].
  bind_inv H. bind_inv H. rename a2 into type.
  bind_inv H. destruct a2 as [parsed h3]. injection H as <- <-.
  set (h2 := heap_set (heap_set h l "_id" modelId) l "_type" type) in *.
  assert (HP2 : P h2) by (unfold h2; do 2 (apply P_stamp; [done|]); done).
  assert (Hsame : deferred_at h2 l = deferred_at (heap_set h l "_id" modelId) l)
    by (unfold h2; by rewrite deferred_at_heap_set).
  apply (P_resolve h2); [done | by unfold is_deferred; rewrite Hsame | |].
  - by rewrite Hsame.
  - by apply (P_self _ _ _ _ HP2 E4).
Qed.

Lemma parseValue_invariant val h v h' :
  P h -> _parseValue links self val None h = Ok (v, h') -> P h'.
Proof.
  intros HP H. unfold _parseValue in H. bind_inv H. bind_inv H.
  destruct a0; [by injection H as <- <- | by eapply dereferenceLink_invariant].
Qed.

Lemma parseValues_invariant items h vs h' :
  P h ->
  map_action (fun item => _parseValue links self item None) items h = Ok (vs, h') ->
  P h'.
Proof.
  revert h vs. induction items as [|x items IH]; cbn [map_action]; intros h vs HP H.
  - by injection H as <- <-.
  - bind_inv H. destruct a as [y h1]. bind_inv H. destruct a as [ys h2].
    injection H as <- <-. eapply IH; [|exact E0]. by eapply parseValue_invariant.
Qed.

Lemma parse_field_invariant fields h kv fields' h' :
  P h -> parse_field links self false (fields, h) kv = Ok (fields', h') -> P h'.
Proof.
  intros HP H. destruct kv as [key val]. unfold parse_field in H.
  destruct val;
    try (bind_inv H; destruct a as [parsed h1]; injection H as <- <-;
         by eapply parseValue_invariant).
  bind_inv H. destruct a as [parsed h1]. injection H as <- <-.
  by eapply parseValues_invariant.
Qed.

Lemma parse_fields_invariant l fields h fields' h' :
  P h ->
  foldM (parse_field links self false) l (fields, h) = Ok (fields', h') -> P h'.
Proof.
  revert fields h. induction l as [|kv l IH]; cbn [foldM]; intros fields h HP H.
  - by injection H as <- <-.
  - bind_inv H. destruct a as [fields1 h1]. eapply IH; [|exact H].
    by eapply parse_field_invariant.
Qed.

Lemma parseEntry_body_invariant entry h fields h' :
  P h -> parseEntry_body links self entry false h = Ok (fields, h') -> P h'.
Proof.
  intros HP H. unfold parseEntry_body in H. bind_inv H.
  by eapply parse_fields_invariant.
Qed.

End Invariant.

(** ** Resolution happens once *)

Lemma resolve_slot_resolved (h : heap) (l : nat) (parsed : obj) :
  is_deferred (resolve_slot h l parsed) l = false.
Proof.
  unfold is_deferred, deferred_at, resolve_slot, heap_obj.
  destruct (decide (l < length h)) as [Hlt|Hge].
  - rewrite list_lookup_insert_eq by done. simpl. by rewrite prop_get_delete_eq.
  - rewrite list_insert_ge by lia. by rewrite (lookup_ge_None_2 h l) by lia.
Qed.

Lemma resolve_slot_other (h : heap) (l l' : nat) (parsed : obj) :
  l ≠ l' -> heap_obj (resolve_slot h l parsed) l' = heap_obj h l'.
Proof. intros Hne. unfold resolve_slot, heap_obj. by rewrite list_lookup_insert_ne. Qed.

Lemma resolve_slot_keeps_resolved (h : heap) (l l' : nat) (parsed : obj) :
  is_deferred h l' = false -> is_deferred (resolve_slot h l parsed) l' = false.
Proof.
  intros H. destruct (decide (l = l')) as [<-|Hne]; [apply resolve_slot_resolved|].
  unfold is_deferred, deferred_at in *. by rewrite resolve_slot_other.
Qed.

Lemma is_deferred_heap_set (h : heap) (l l' : nat) (k : string) (v : value) :
  k ≠ "_deferred" -> is_deferred (heap_set h l k v) l' = is_deferred h l'.
Proof. intros Hk. unfold is_deferred. by rewrite deferred_at_heap_set. Qed.

Lemma parseEntry_keeps_resolved (links : gmap string nat) (l : nat) (fuel : nat) :
  forall entry h fields h',
    is_deferred h l = false ->
    _parseEntry fuel links entry false h = Ok (fields, h') ->
    is_deferred h' l = false.
Proof.
  induction fuel as [|fuel IH]; intros entry h fields h' Hl H; [discriminate|].
  cbn [_parseEntry] in H.
  eapply (parseEntry_body_invariant links (_parseEntry fuel links)
            (fun h => is_deferred h l = false)); [| | |exact Hl|exact H].
  - intros h0 l0 k v Hk Hd. by rewrite is_deferred_heap_set.
  - intros entry0 h0 parsed h0' Hd Hrun. by eapply IH.
  - intros h0 l0 parsed h0' _ _ _ Hd. by apply resolve_slot_keeps_resolved.
Qed.

Lemma parse_item_keeps_resolved (links : gmap string nat) (l : nat) (fuel : nat)
      (item : value) (h : heap) (v : value) (h' : heap) :
  is_deferred h l = false ->
  parse_item fuel links false item h = Ok (v, h') ->
  is_deferred h' l = false.
Proof.
  intros Hl H. unfold parse_item in H.
  bind_inv H. bind_inv H. rename a0 into modelId.
  destruct (links !! to_string modelId) as [l0|]; [|discriminate].
  bind_inv H. rename a0 into h1. bind_inv H. bind_inv H. injection H as _ <-.
  assert (H1 : is_deferred h1 l = false).
  { destruct (truthy _) in E1.
    - bind_inv E1. destruct a2 as [parsed h2]. injection E1 as <-.
      apply resolve_slot_keeps_resolved.
      by eapply parseEntry_keeps_resolved.
    - by injection E1 as <-. }
  destruct (truthy a1); by rewrite !is_deferred_heap_set.
Qed.

Lemma parseEntries_keep_resolved (links : gmap string nat) (l : nat) (fuel : nat)
      (entries : value) (h : heap) (models : list value) (h' : heap) :
  is_deferred h l = false ->
  _parseEntries fuel links entries false h = Ok (models, h') ->
  is_deferred h' l = false.
Proof.
  unfold _parseEntries. generalize (List.map snd (each h entries)).
  intros items. revert h models.
  induction items as [|x items IH]; cbn [map_action]; intros h models Hl H.
  - by injection H as _ <-.
  - bind_inv H. destruct a as [y h1]. bind_inv H. destruct a as [ys h2].
    injection H as _ <-. eapply IH; [|exact E0].
    by eapply parse_item_keeps_resolved.
Qed.

Lemma get_path_no_refs (h h' : heap) (path : list string) :
  forall v, no_refs v = true -> get_path h v path = get_path h' v path.
Proof.
  induction path as [|k path IH]; cbn [get_path]; intros v Hv; [done|].
  rewrite (get_prop_no_refs h h') by done.
  destruct (get_prop h' v k) as [x| |] eqn:E; [|done..].
  rewrite !ret_bind. apply IH. by apply (no_refs_get_prop _ _ _ _ Hv E).
Qed.

Section Once.

Variable links : gmap string nat.
Variable self : value -> bool -> action obj.

(** What a dereference does once it has read the id. *)
Lemma dereferenceLink_reads reference locale h id :
  link_id h reference locale = Ok id ->
  _dereferenceLink links self reference locale h
  = match index_get links (to_string id) with
    | None => Ok (VUndef, h)
    | Some (link, l) =>
        let h := heap_set h l "_id" id in
        let deferred := deferred_at h l in
        if truthy deferred then
          deferredSys ← get_prop h deferred "sys";
          type ← get_path h deferredSys ["contentType"; "sys"; "id"];
          let h := heap_set h l "_type" type in
          '(parsed, h) ← self deferred (bool_decide (is_Some locale)) h;
          Ok (link, resolve_slot h l parsed)
        else Ok (link, h)
    end.
Proof.
  unfold link_id, _dereferenceLink. intros H.
  destruct (match locale with
            | Some code =>
                if truthy (VStr code)
                then at_locale ← get_prop h reference code;
                     Ok (if truthy at_locale then at_locale else reference)
                else Ok reference
            | None => Ok reference
            end) as [target| |]; [|discriminate H..].
  rewrite !ret_bind in *.
  destruct (get_prop h target "sys") as [sys| |]; [|discriminate H..].
  rewrite !ret_bind in *. by rewrite H.
Qed.

Lemma link_id_of_link ref id h :
  link_target ref = Some id -> link_id h ref None = Ok id.
Proof.
  intros Hlink. destruct (link_target_sys _ _ h Hlink) as (sys & Hs & _ & Hid).
  unfold link_id. by rewrite ret_bind, Hs, ret_bind.
Qed.

(** A reference to a slot that is not deferred: the object is returned
    as it is, apart from the stamp of its id; [self] is not called. *)
Lemma dereferenceLink_resolved reference locale id l h :
  link_id h reference locale = Ok id ->
  links !! to_string id = Some l ->
  is_deferred h l = false ->
  _dereferenceLink links self reference locale h
  = Ok (VLoc l, heap_set h l "_id" id).
Proof.
  intros Hid Hl Hd.
  rewrite (dereferenceLink_reads _ _ _ _ Hid), (index_get_own _ _ _ Hl).
  cbv zeta. fold (is_deferred (heap_set h l "_id" id) l).
  by rewrite is_deferred_heap_set, Hd.
Qed.

(** A reference to a deferred slot: the slot is stamped, its entry is
    resolved, and the fields that come back are assigned on the slot. *)
Lemma dereferenceLink_first reference locale id l h v h' :
  link_id h reference locale = Ok id ->
  links !! to_string id = Some l ->
  is_deferred h l = true ->
  _dereferenceLink links self reference locale h = Ok (v, h') ->
  exists type parsed h1,
    self (deferred_at h l) (bool_decide (is_Some locale))
         (heap_set (heap_set h l "_id" id) l "_type" type)
    = Ok (parsed, h1)
    /\ v = VLoc l /\ h' = resolve_slot h1 l parsed.
Proof.
  intros Hid Hl Hd H.
  rewrite (dereferenceLink_reads _ _ _ _ Hid), (index_get_own _ _ _ Hl) in H.
  cbv zeta in H. fold (is_deferred (heap_set h l "_id" id) l) in H.
  rewrite is_deferred_heap_set, Hd in H by done.
  rewrite deferred_at_heap_set in H by done.
  bind_inv H. bind_inv H. rename a0 into type. bind_inv H.
  destruct a0 as [parsed h1]. injection H as <- <-.
  by exists type, parsed, h1.
Qed.

Lemma dereferenceLink_same reference locale id l h v h' :
  link_id h reference locale = Ok id ->
  links !! to_string id = Some l ->
  _dereferenceLink links self reference locale h = Ok (v, h') ->
  v = VLoc l /\ is_deferred h' l = false.
Proof.
  intros Hid Hl H. destruct (is_deferred h l) eqn:Hd.
  - destruct (dereferenceLink_first _ _ _ _ _ _ _ Hid Hl Hd H)
      as (type & parsed & h1 & _ & -> & ->).
    split; [done | apply resolve_slot_resolved].
  - rewrite (dereferenceLink_resolved _ _ _ _ _ Hid Hl Hd) in H.
    injection H as <- <-. split; [done|]. by rewrite is_deferred_heap_set.
Qed.

End Once.

Lemma resolve_slot_object (h : heap) (l : nat) (parsed : obj) :
  l < length h ->
  heap_obj (resolve_slot h l parsed) l
  = prop_delete (assign (heap_obj h l) parsed) "_deferred".
Proof.
  intros Hl. unfold resolve_slot. unfold heap_obj at 1.
  by rewrite list_lookup_insert_eq.
Qed.




(** ** Reference cycles *)

Lemma refers_to_object entry id :
  refers_to entry id -> exists o, entry = VObj o.
Proof.
  intros (fs & _ & _ & Hf & _). destruct entry; try discriminate Hf.
  by eexists.
Qed.

Section CycleLemmas.

Variable links : gmap string nat.
Variables (id1 id2 entry1 entry2 : value) (l1 l2 : nat).

Hypothesis slot1 : links !! to_string id1 = Some l1.
Hypothesis slot2 : links !! to_string id2 = Some l2.
Hypothesis refers1 : refers_to entry1 id2.
Hypothesis refers2 : refers_to entry2 id1.

Local Abbreviation cyclic := (cyclic entry1 entry2 l1 l2).

Lemma cyclic_stamp h l k v :
  k ≠ "_deferred" -> cyclic h -> cyclic (heap_set h l k v).
Proof. intros Hk [H1 H2]. split; by rewrite deferred_at_heap_set. Qed.

Section Step.

Variable self : value -> bool -> action obj.

Hypothesis self_keeps : forall entry h parsed h',
  cyclic h -> self entry false h = Ok (parsed, h') -> cyclic h'.
Hypothesis self_stuck1 : forall h,
  cyclic h -> is_ok (self entry1 false h) = false.
Hypothesis self_stuck2 : forall h,
  cyclic h -> is_ok (self entry2 false h) = false.

Lemma cyclic_resolve h l parsed h' :
  cyclic h -> is_deferred h l = true ->
  self (deferred_at h l) false h = Ok (parsed, h') ->
  cyclic h' -> cyclic (resolve_slot h' l parsed).
Proof.
  intros [Hc1 Hc2] _ Hrun [H1 H2].
  destruct (decide (l = l1)) as [->|Hn1].
  { pose proof (self_stuck1 h (conj Hc1 Hc2)) as Hs.
    rewrite Hc1 in Hrun. rewrite Hrun in Hs. discriminate. }
  destruct (decide (l = l2)) as [->|Hn2].
  { pose proof (self_stuck2 h (conj Hc1 Hc2)) as Hs.
    rewrite Hc2 in Hrun. rewrite Hrun in Hs. discriminate. }
  split; unfold deferred_at; by rewrite resolve_slot_other.
Qed.

Lemma cyclic_value val h v h' :
  cyclic h -> _parseValue links self val None h = Ok (v, h') -> cyclic h'.
Proof.
  apply (parseValue_invariant links self cyclic);
    [apply cyclic_stamp | exact self_keeps | exact cyclic_resolve].
Qed.

(** Following a link into a slot of the cycle does not return. *)
Lemma dereference_stuck id entry l ref h :
  links !! to_string id = Some l ->
  (forall h0, cyclic h0 -> deferred_at h0 l = entry) ->
  (exists o, entry = VObj o) ->
  (forall h0, cyclic h0 -> is_ok (self entry false h0) = false) ->
  link_target ref = Some id ->
  cyclic h ->
  is_ok (_dereferenceLink links self ref None h) = false.
Proof.
  intros Hl Hslot [o Ho] Hstuck Hlink Hc.
  destruct (link_target_sys _ _ h Hlink) as (sys & Hs & _ & Hid).
  unfold _dereferenceLink.
  rewrite !ret_bind, Hs, ret_bind, Hid, ret_bind, (index_get_own _ _ _ Hl).
  fold (deferred_at (heap_set h l "_id" id) l).
  assert (Hc1 : cyclic (heap_set h l "_id" id)) by (by apply cyclic_stamp).
  rewrite (Hslot _ Hc1), Ho. cbn [truthy]. rewrite <- Ho.
  destruct (get_prop _ entry "sys") as [deferredSys| |]; [|done..].
  rewrite ret_bind.
  destruct (get_path _ deferredSys _) as [type| |]; [|done..].
  rewrite ret_bind. apply bind_not_ok. apply Hstuck. by apply cyclic_stamp.
Qed.

Lemma value_stuck id entry l val h :
  links !! to_string id = Some l ->
  (forall h0, cyclic h0 -> deferred_at h0 l = entry) ->
  (exists o, entry = VObj o) ->
  (forall h0, cyclic h0 -> is_ok (self entry false h0) = false) ->
  link_target val = Some id ->
  cyclic h ->
  is_ok (_parseValue links self val None h) = false.
Proof.
  intros Hl Hslot Ho Hstuck Hlink Hc.
  rewrite (parseValue_link _ _ _ _ _ Hlink).
  by apply (dereference_stuck id entry l).
Qed.

Lemma values_stuck id entry l items item :
  links !! to_string id = Some l ->
  (forall h0, cyclic h0 -> deferred_at h0 l = entry) ->
  (exists o, entry = VObj o) ->
  (forall h0, cyclic h0 -> is_ok (self entry false h0) = false) ->
  item ∈ items -> link_target item = Some id ->
  forall h, cyclic h ->
    is_ok (map_action (fun x => _parseValue links self x None) items h) = false.
Proof.
  intros Hl Hslot Ho Hstuck Hin Hlink.
  induction items as [|x items IH]; intros h Hc; [by apply elem_of_nil in Hin|].
  cbn [map_action].
  destruct (_parseValue links self x None h) as [[y h1]| |] eqn:Ex; [|done..].
  apply elem_of_cons in Hin as [<-|Hin].
  - pose proof (value_stuck id entry l item h Hl Hslot Ho Hstuck Hlink Hc) as Hs.
    rewrite Ex in Hs. discriminate.
  - rewrite ret_bind. apply bind_not_ok. apply IH; [done|].
    by apply (cyclic_value _ _ _ _ Hc Ex).
Qed.

Lemma field_stuck id entry l fields key val h :
  links !! to_string id = Some l ->
  (forall h0, cyclic h0 -> deferred_at h0 l = entry) ->
  (exists o, entry = VObj o) ->
  (forall h0, cyclic h0 -> is_ok (self entry false h0) = false) ->
  reaches val id ->
  cyclic h ->
  is_ok (parse_field links self false (fields, h) (key, val)) = false.
Proof.
  intros Hl Hslot Ho Hstuck [Hlink|(items & item & -> & Hin & Hlink)] Hc;
    unfold parse_field.
  - assert (Hv := value_stuck id entry l val h Hl Hslot Ho Hstuck Hlink Hc).
    destruct val; try discriminate Hlink. by apply bind_not_ok.
  - apply bind_not_ok. by apply (values_stuck id entry l items item).
Qed.

Lemma fields_stuck id entry l key val :
  links !! to_string id = Some l ->
  (forall h0, cyclic h0 -> deferred_at h0 l = entry) ->
  (exists o, entry = VObj o) ->
  (forall h0, cyclic h0 -> is_ok (self entry false h0) = false) ->
  reaches val id ->
  forall fs fields h,
    (key, val) ∈ fs -> cyclic h ->
    is_ok (foldM (parse_field links self false) fs (fields, h)) = false.
Proof.
  intros Hl Hslot Ho Hstuck Hreach.
  induction fs as [|kv fs IH]; intros fields h Hin Hc;
    [by apply elem_of_nil in Hin|].
  cbn [foldM].
  destruct (parse_field links self false (fields, h) kv)
    as [[fields1 h1]| |] eqn:Ek; [|done..].
  apply elem_of_cons in Hin as [<-|Hin].
  - pose proof (field_stuck id entry l fields key val h
                  Hl Hslot Ho Hstuck Hreach Hc) as Hs.
    rewrite Ek in Hs. discriminate.
  - rewrite ret_bind. apply IH; [done|].
    by apply (parse_field_invariant links self cyclic
                (cyclic_stamp) self_keeps cyclic_resolve _ _ _ _ _ Hc Ek).
Qed.

(** Resolving the fields of an entry that refers to a slot of the cycle
    does not return. *)
Lemma body_stuck id entry l referrer h :
  links !! to_string id = Some l ->
  (forall h0, cyclic h0 -> deferred_at h0 l = entry) ->
  (exists o, entry = VObj o) ->
  (forall h0, cyclic h0 -> is_ok (self entry false h0) = false) ->
  refers_to referrer id ->
  cyclic h ->
  is_ok (parseEntry_body links self referrer false h) = false.
Proof.
  intros Hl Hslot Ho Hstuck Href Hc.
  destruct (refers_to_object _ _ Href) as [o ->].
  destruct Href as (fs & key & val & Hf & Hin & Hreach).
  unfold parseEntry_body. change (get_prop h (VObj o) "fields")
    with (get_prop [] (VObj o) "fields").
  rewrite Hf, ret_bind.
  change (each h (VObj fs)) with (each [] (VObj fs)).
  by apply (fields_stuck id entry l key val).
Qed.

End Step.

End CycleLemmas.

Section CycleTheorem.

Variable links : gmap string nat.
Variables (id1 id2 entry1 entry2 : value) (l1 l2 : nat).

Hypothesis slot1 : links !! to_string id1 = Some l1.
Hypothesis slot2 : links !! to_string id2 = Some l2.
Hypothesis refers1 : refers_to entry1 id2.
Hypothesis refers2 : refers_to entry2 id1.

Local Abbreviation cyclic := (cyclic entry1 entry2 l1 l2).

(** While both slots are deferred, resolving either entry never returns,
    whatever the recursion budget; and whatever does return leaves both
    slots deferred. *)
Lemma cycle_never_resolves (fuel : nat) :
  (forall entry h parsed h',
     cyclic h -> _parseEntry fuel links entry false h = Ok (parsed, h') ->
     cyclic h')
  /\ (forall h, cyclic h -> is_ok (_parseEntry fuel links entry1 false h) = false)
  /\ (forall h, cyclic h -> is_ok (_parseEntry fuel links entry2 false h) = false).
Proof.
  induction fuel as [|fuel (IHkeep & IH1 & IH2)]; [by repeat split|].
  cbn [_parseEntry]. split; [|split].
  - intros entry h parsed h' Hc H.
    apply (parseEntry_body_invariant links (_parseEntry fuel links) cyclic
             (cyclic_stamp entry1 entry2 l1 l2) IHkeep
             (cyclic_resolve entry1 entry2 l1 l2 _ IH1 IH2) _ _ _ _ Hc H).
  - intros h Hc.
    apply (body_stuck links entry1 entry2 l1 l2 _ IHkeep IH1 IH2 id2 entry2 l2);
      try done; [by intros h0 [_ ?] | by eapply refers_to_object].
  - intros h Hc.
    apply (body_stuck links entry1 entry2 l1 l2 _ IHkeep IH1 IH2 id1 entry1 l1);
      try done; [by intros h0 [? _] | by eapply refers_to_object].
Qed.

End CycleTheorem.

Lemma imap_values (f : nat -> string) (l : list value) :
  List.map snd (imap (fun i x => (f i, x)) l) = l.
Proof.
  revert f. induction l as [|x l IH]; intros f; [done|].
  cbn [imap List.map snd]. f_equal. apply (IH (f ∘ S)).
Qed.

Lemma index_entries_values (l : list value) : List.map snd (index_entries l) = l.
Proof. apply imap_values. Qed.

Section CycleItems.

Variable links : gmap string nat.
Variables (id1 id2 entry1 entry2 : value) (l1 l2 : nat).

Hypothesis slot1 : links !! to_string id1 = Some l1.
Hypothesis slot2 : links !! to_string id2 = Some l2.
Hypothesis refers1 : refers_to entry1 id2.
Hypothesis refers2 : refers_to entry2 id1.

Local Abbreviation cyclic := (cyclic entry1 entry2 l1 l2).

Lemma parse_item_cyclic fuel item h v h' :
  cyclic h -> parse_item fuel links false item h = Ok (v, h') -> cyclic h'.
Proof.
  destruct (cycle_never_resolves links id1 id2 entry1 entry2 l1 l2
              slot1 slot2 refers1 refers2 fuel) as (Hkeep & H1 & H2).
  intros Hc H. unfold parse_item in H.
  bind_inv H. bind_inv H. rename a0 into modelId.
  destruct (links !! to_string modelId) as [l|]; [|discriminate].
  bind_inv H. rename a0 into h1. bind_inv H. bind_inv H. injection H as <- <-.
  assert (Hc1 : cyclic h1).
  { fold (deferred_at h l) in E1. destruct (truthy (deferred_at h l)) eqn:Hd;
      [|by injection E1 as <-].
    bind_inv E1. destruct a2 as [parsed h2]. injection E1 as <-.
    apply (cyclic_resolve entry1 entry2 l1 l2 (_parseEntry fuel links) H1 H2 h);
      try done. by eapply Hkeep. }
  destruct (truthy a1); repeat (apply cyclic_stamp; [done|]); done.
Qed.

Lemma parse_item_stuck fuel item sys h :
  get_prop h item "sys" = Ok sys -> get_prop h sys "id" = Ok id1 ->
  cyclic h ->
  is_ok (parse_item fuel links false item h) = false.
Proof.
  destruct (cycle_never_resolves links id1 id2 entry1 entry2 l1 l2
              slot1 slot2 refers1 refers2 fuel) as (_ & H1 & _).
  intros Hsys Hid Hc. unfold parse_item.
  rewrite Hsys, ret_bind, Hid, ret_bind, slot1.
  fold (deferred_at h l1). destruct (refers_to_object _ _ refers1) as [o Ho].
  rewrite (proj1 Hc), Ho. cbn [truthy]. rewrite <- Ho.
  apply bind_not_ok, bind_not_ok. by apply H1.
Qed.

Lemma parse_items_stuck fuel item sys items :
  no_refs item = true ->
  get_prop [] item "sys" = Ok sys -> get_prop [] sys "id" = Ok id1 ->
  item ∈ items ->
  forall h, cyclic h ->
    is_ok (map_action (parse_item fuel links false) items h) = false.
Proof.
  intros Hitem Hsys Hid Hin.
  destruct (no_refs_get_prop _ _ _ _ Hitem Hsys) as [Hs _].
  induction items as [|x items IH]; intros h Hc; [by apply elem_of_nil in Hin|].
  cbn [map_action].
  destruct (parse_item fuel links false x h) as [[y h1]| |] eqn:Ex; [|done..].
  apply elem_of_cons in Hin as [<-|Hin].
  - assert (Hstuck : is_ok (parse_item fuel links false item h) = false).
    { apply (parse_item_stuck fuel item sys); [| |done].
      - by rewrite (get_prop_no_refs h []).
      - by rewrite (get_prop_no_refs h []). }
    rewrite Ex in Hstuck. discriminate.
  - rewrite ret_bind. apply bind_not_ok. apply IH; [done|].
    by apply (parse_item_cyclic _ _ _ _ _ Hc Ex).
Qed.

End CycleItems.

(** C2, as the code has it.  [_deferred] is removed from a slot only after
    the fields of its entry have been resolved, and nothing else marks a
    slot as being resolved.  So when two deferred entries refer to each
    other (each has a field that links to the other, directly or in an
    array), single-locale resolution that reaches one of them never returns
    a model: for every recursion budget the run ends without a result,
    either because the budget is exhausted (the recursion is unbounded, a
    stack overflow at run time) or because an exception was thrown on the
    way.  This holds for the entry resolver, for a link to either entry,
    for the top-level item list and for the whole query. *)
Theorem C2_cycle_never_returns
        (slots : gmap string nat) (id1 id2 entry1 entry2 : value) (l1 l2 : nat)
        (h : heap) :
  slots !! to_string id1 = Some l1 ->
  slots !! to_string id2 = Some l2 ->
  refers_to entry1 id2 ->
  refers_to entry2 id1 ->
  cyclic entry1 entry2 l1 l2 h ->
  forall fuel,
    is_ok (_parseEntry fuel slots entry1 false h) = false
    /\ is_ok (_parseEntry fuel slots entry2 false h) = false
    /\ (forall ref,
          link_target ref = Some id1 ->
          is_ok (dereferenceLink fuel slots ref None h) = false)
    /\ (forall items item sys,
          no_refs item = true ->
          get_prop [] item "sys" = Ok sys -> get_prop [] sys "id" = Ok id1 ->
          item ∈ items ->
          is_ok (_parseEntries fuel slots (VArr items) false h) = false
          /\ forall contentful_query contentful_getLocales path query
                    mediaTransform json ix,
              prop_get query "locale" = None ->
              (forall q, contentful_query path q = Ok json) ->
              _createLinks json false mediaTransform = Ok ix ->
              slots = links ix -> h = store ix ->
              get_prop h json "items" = Ok (VArr items) ->
              is_ok (_query contentful_query contentful_getLocales fuel path
                            query mediaTransform) = false).
Proof.
  intros Hl1 Hl2 Hr1 Hr2 Hc fuel.
  destruct (cycle_never_resolves slots id1 id2 entry1 entry2 l1 l2
              Hl1 Hl2 Hr1 Hr2 fuel) as (Hkeep & H1 & H2).
  split; [by apply H1|]. split; [by apply H2|]. split.
  - intros ref Hlink. unfold dereferenceLink.
    apply (dereference_stuck slots entry1 entry2 l1 l2 _ id1 entry1 l1);
      try done; [by intros h0 [? _] | by eapply refers_to_object].
  - intros items item sys Hitem Hsys Hid Hin.
    assert (Hitems : is_ok (_parseEntries fuel slots (VArr items) false h) = false).
    { unfold _parseEntries. cbn [each]. rewrite index_entries_values.
      by apply (parse_items_stuck slots id1 id2 entry1 entry2 l1 l2
                  Hl1 Hl2 Hr1 Hr2 fuel item sys). }
    split; [done|].
    intros contentful_query contentful_getLocales path query mediaTransform
           json ix Hlocale Hclient Hix -> -> Hjson.
    unfold _query. rewrite Hclient, ret_bind.
    rewrite prop_get_set_ne, Hlocale by done. cbn [default truthy andb].
    rewrite Hix, ret_bind, Hjson, ret_bind. by apply bind_not_ok.
Qed.

Lemma C2_cycle_never_returns_witness :
  is_ok (_parseEntry 5 Cycle.links Cycle.e1 false Cycle.heap0) = false
  /\ is_ok (_parseEntries 5 Cycle.links (VArr [Cycle.e1; Cycle.e2]) false
              Cycle.heap0) = false.
Proof.
  assert (Hr : forall a b, refers_to (record (entry_sys a "post")
                                        [("next", link_to "Entry" b)]) (VStr b)).
  { intros a b. exists [("next", link_to "Entry" b)], "next", (link_to "Entry" b).
    split; [reflexivity|]. split; [apply list_elem_of_here | by left]. }
  destruct (C2_cycle_never_returns Cycle.links (VStr "e1") (VStr "e2")
              Cycle.e1 Cycle.e2 12 13 Cycle.heap0 eq_refl eq_refl
              (Hr "e1" "e2") (Hr "e2" "e1") (conj eq_refl eq_refl) 5)
    as (H1 & _ & _ & Hitems).
  split; [exact H1|].
  exact (proj1 (Hitems [Cycle.e1; Cycle.e2] Cycle.e1 _ eq_refl eq_refl eq_refl
                  (list_elem_of_here _ _))).
Defined.

(** On the stable heap, each entry of the cycle calls for the other with one
    unit of budget less, so the budget always runs out. *)
Lemma cycle_exhausts_budget (fuel : nat) :
  _parseEntry fuel Cycle.links Cycle.e1 false Cycle.heap_stable = OutOfFuel
  /\ _parseEntry fuel Cycle.links Cycle.e2 false Cycle.heap_stable = OutOfFuel.
Proof.
  induction fuel as [|fuel [IH1 IH2]]; [by split|].
  cbn [_parseEntry]. revert IH1 IH2.
  generalize (_parseEntry fuel Cycle.links) as self. intros self IH1 IH2.
  split.
  - vm_compute. vm_compute in IH2. by rewrite IH2.
  - vm_compute. vm_compute in IH1. by rewrite IH1.
Qed.

Lemma cycle_enters (fuel : nat) :
  _parseEntry (S (S (S fuel))) Cycle.links Cycle.e1 false Cycle.heap0 = OutOfFuel.
Proof.
  destruct (cycle_exhausts_budget (S fuel)) as [H1 _].
  change (parseEntry_body Cycle.links
            (fun entry => parseEntry_body Cycle.links
                            (_parseEntry (S fuel) Cycle.links) entry)
            Cycle.e1 false Cycle.heap0 = OutOfFuel).
  revert H1. generalize (_parseEntry (S fuel) Cycle.links) as self. intros self H1.
  vm_compute. vm_compute in H1. by rewrite H1.
Qed.

Lemma cycle_item (fuel : nat) :
  parse_item (S (S (S fuel))) Cycle.links false Cycle.e1 Cycle.heap0 = OutOfFuel.
Proof.
  pose proof (cycle_enters fuel) as H. unfold parse_item.
  revert H. generalize (_parseEntry (S (S (S fuel))) Cycle.links) as self.
  intros self H. vm_compute. vm_compute in H. by rewrite H.
Qed.

(** On the payload whose two items link to each other, the query exhausts
    every recursion budget. *)
Lemma cycle_query_exhausts_budget (fuel : nat) :
  getModels Cycle.client (Ok []) fuel [] None = OutOfFuel.
Proof.
  destruct fuel as [|[|[|fuel]]]; try reflexivity.
  unfold getModels, _query, Cycle.client. rewrite ret_bind.
  change (truthy _ && str_is _ "*") with false.
  change (_createLinks Cycle.payload false None)
    with (Ok (mkIndex Cycle.links Cycle.heap0 [])).
  rewrite ret_bind. cbn [store links].
  change (get_prop Cycle.heap0 Cycle.payload "items")
    with (Ok (VArr [Cycle.e1; Cycle.e2])).
  rewrite ret_bind. unfold _parseEntries.
  change (List.map snd (each Cycle.heap0 (VArr [Cycle.e1; Cycle.e2])))
    with [Cycle.e1; Cycle.e2].
  cbn [map_action]. by rewrite cycle_item.
Qed.

(** C2 as stated fails: on the payload whose two items link to each other,
    no recursion budget lets the query return an answer, so it does not
    terminate with two models. *)
Lemma C2_cycle_counterexample :
  ~ exists fuel answer,
      getModels Cycle.client (Ok []) fuel [] None = Ok answer.
Proof.
  intros (fuel & answer & H). rewrite cycle_query_exhausts_budget in H.
  discriminate H.
Qed.

(** ** What [getModel] answers *)

Lemma parse_items_models fuel links multiLocale :
  forall es h models h',
    Forall (fun e => no_refs e = true) es ->
    map_action (parse_item fuel links multiLocale) es h = Ok (models, h') ->
    Forall2 (model_of links) es models.
Proof.
  induction es as [|e es IH]; cbn [map_action]; intros h models h' Hes H.
  - injection H as <- <-. constructor.
  - apply Forall_cons in Hes as [He Hes].
    bind_inv H. destruct a as [m h1]. bind_inv H. destruct a as [ms h2].
    injection H as <- <-. constructor; [|by eapply IH].
    apply parse_item_reference in E as (sys & id & l & Hs & Hi & Hl & ->).
    exists (to_string id), l. split; [|done].
    by apply (record_key_of h e sys id).
Qed.

(** C4, as the code has it: [getModel(id)] is the query of the path
    [/entries/<id>] with the default query and no options, and what it
    fulfils with is the same wrapper as [getModels]: an object with the keys
    [items], [skip], [limit] and [total].  Its [items] holds one model per
    element of the [items] of the client's answer, in their order, each the
    object the index holds under the id of that element, and is empty when
    the answer has no [items] (a bare entry); no element of it is the
    fulfilled value itself.  The other three keys echo the answer. *)
Theorem C4_getModel_answers_wrapper
        (contentful_query : string -> obj -> result value)
        (contentful_getLocales : result (list locale_desc))
        (fuel : nat) (id : string) (json v : value) (h : heap) (log : console) :
  contentful_query ("/entries/" +:+ id)
    [("include", VNum 10); ("limit", VNum 1000);
     ("select", VStr "sys.id,sys.contentType,sys.updatedAt,fields")]
  = Ok json ->
  no_refs json = true ->
  getModel contentful_query contentful_getLocales fuel id = Ok (v, h, log) ->
  exists ix models skip limit total,
    _createLinks json false None = Ok ix
    /\ v = VObj [("items", VArr models); ("skip", skip); ("limit", limit);
                 ("total", total)]
    /\ (forall raws, get_prop [] json "items" = Ok (VArr raws) ->
                     Forall2 (model_of (links ix)) raws models)
    /\ (get_prop [] json "items" = Ok VUndef -> models = [])
    /\ Forall (fun m => m ≠ v) models
    /\ get_prop [] json "skip" = Ok skip
    /\ get_prop [] json "limit" = Ok limit
    /\ get_prop [] json "total" = Ok total.
Proof.
  intros Hq Hj. unfold getModel, _query.
  change (default VUndef (prop_get [] "select")) with VUndef.
  cbv beta iota delta [truthy]. rewrite default_query_sent, Hq, ret_bind.
  intros H.
  change (truthy _ && str_is _ "*") with false in H.
  bind_inv H. rename a into ix. bind_inv H. rename a into entries.
  bind_inv H. destruct a as [models h1]. simpl in H.
  bind_inv H. bind_inv H. bind_inv H. injection H as <- <- <-.
  rewrite (get_prop_no_refs _ []) in E0 by done.
  rewrite (get_prop_no_refs _ []) in E2 by done.
  rewrite (get_prop_no_refs _ []) in E3 by done.
  rewrite (get_prop_no_refs _ []) in E4 by done.
  exists ix, models, a, a0, a1.
  split; [done|]. split; [done|]. split; [|split; [|split; [|done]]].
  - intros raws Hraws. rewrite Hraws in E0. injection E0 as <-.
    unfold _parseEntries in E1. cbn [each] in E1.
    rewrite index_entries_values in E1.
    apply (parse_items_models _ _ _ _ _ _ _) with (2 := E1).
    destruct (no_refs_get_prop [] _ _ _ Hj Hraws) as [Hr _].
    apply Forall_forall. intros y Hy. apply list_elem_of_In in Hy.
    by apply (proj1 (forallb_forall _ _) Hr).
  - intros Hnone. rewrite Hnone in E0. injection E0 as <-.
    unfold _parseEntries in E1. cbn in E1. by injection E1 as <- _.
  - unfold _parseEntries in E1.
    eapply Forall_impl;
      [eapply (map_action_Forall (fun m => exists l, m = VLoc l)); [|exact E1]|].
    + intros x h0 v0 h0' Hx.
      apply parse_item_reference in Hx as (? & ? & l & _ & _ & _ & ->). eauto.
    + by intros m [l ->].
Qed.

Lemma C4_getModel_answers_wrapper_witness :
  exists ix models skip limit total,
    _createLinks EndToEnd.payload false None = Ok ix
    /\ EndToEnd.wrapper
       = VObj [("items", VArr models); ("skip", skip); ("limit", limit);
               ("total", total)]
    /\ (forall raws, get_prop [] EndToEnd.payload "items" = Ok (VArr raws) ->
                     Forall2 (model_of (links ix)) raws models)
    /\ (get_prop [] EndToEnd.payload "items" = Ok VUndef -> models = [])
    /\ Forall (fun m => m ≠ EndToEnd.wrapper) models
    /\ get_prop [] EndToEnd.payload "skip" = Ok skip
    /\ get_prop [] EndToEnd.payload "limit" = Ok limit
    /\ get_prop [] EndToEnd.payload "total" = Ok total.
Proof.
  apply (C4_getModel_answers_wrapper EndToEnd.client (Ok []) 1 "e1"
           EndToEnd.payload EndToEnd.wrapper EndToEnd.heap_after []);
    reflexivity.
Defined.

(** C4 as stated fails: what [getModel("e1")] fulfils with is not the model
    of [e1] but the wrapper, which has no [_id]; the model is the object at
    location 13, the only element of the wrapper's [items].  When the client
    answers the path with the bare entry (an object without [items]), the
    wrapper's [items] is empty. *)
Lemma C4_getModel_counterexample :
  getModel EndToEnd.client (Ok []) 1 "e1"
  = Ok (EndToEnd.wrapper, EndToEnd.heap_after, [])
  /\ get_prop EndToEnd.heap_after EndToEnd.wrapper "_id" = Ok VUndef
  /\ get_prop EndToEnd.heap_after EndToEnd.wrapper "items"
     = Ok (VArr [VLoc 13])
  /\ get_prop EndToEnd.heap_after (VLoc 13) "_id" = Ok (VStr "e1")
  /\ getModel (fun _ _ => Ok EndToEnd.e1) (Ok []) 1 "e1"
     = Ok (VObj [("items", VArr []); ("skip", VUndef); ("limit", VUndef);
                 ("total", VUndef)], RUNTIME, []).
Proof. repeat split. Qed.

(** * Further properties of the code *)

(** ** The query sent to the client *)

Lemma prop_get_assign (target source : obj) (k : string) :
  NoDup (List.map fst source) ->
  prop_get (assign target source) k
  = match prop_get source k with
    | Some v => Some v
    | None => prop_get target k
    end.
Proof.
  unfold assign. revert target.
  induction source as [|[k1 v1] source IH]; intros target Hnd; [done|].
  cbn [fold_left fst snd List.map] in *. apply NoDup_cons in Hnd as [Hk1 Hnd].
  rewrite IH by done. cbn [prop_get].
  destruct (String.eqb_spec k1 k) as [->|Hne].
  - apply prop_get_None_keys in Hk1. rewrite Hk1. apply prop_get_set_eq.
  - destruct (prop_get source k); [done|]. by apply prop_get_set_ne.
Qed.



(** ** Cleaning the selection *)

Lemma remove_spaces_clean (s : string) :
  string_forall (fun c => negb (is_space c)) (remove_spaces s) = true.
Proof.
  induction s as [|c s IH]; [done|]. cbn [remove_spaces].
  destruct (is_space c) eqn:E; [done|]. cbn [string_forall]. by rewrite E.
Qed.

Lemma drop_prefix_forall (P : ascii -> bool) (p s rest : string) :
  string_forall P s = true -> drop_prefix p s = Some rest ->
  string_forall P rest = true.
Proof.
  revert s. induction p as [|a p IH]; intros [|b s] Hs H; cbn in H;
    try discriminate; try (by injection H as <-).
  destruct (Ascii.eqb a b); [|discriminate].
  cbn in Hs. apply andb_prop in Hs as [_ Hs]. by apply (IH s).
Qed.

Lemma remove_first_forall (P : ascii -> bool) (p s : string) :
  string_forall P s = true -> string_forall P (remove_first p s) = true.
Proof.
  induction s as [|c s IH]; intros Hs.
  - cbn [remove_first]. destruct (drop_prefix p "") eqn:E; [|done].
    by apply (drop_prefix_forall P p "").
  - cbn [remove_first]. destruct (drop_prefix p (String c s)) eqn:E.
    + by apply (drop_prefix_forall P p (String c s)).
    + cbn in Hs |- *. apply andb_prop in Hs as [Hc Hs]. by rewrite Hc, IH.
Qed.

Lemma trim_start_forall (P : ascii -> bool) (c : ascii) (s : string) :
  string_forall P s = true -> string_forall P (trim_start c s) = true.
Proof.
  induction s as [|c' s IH]; intros Hs; [done|]. cbn [trim_start].
  destruct (Ascii.eqb c' c); [|done].
  cbn in Hs. apply andb_prop in Hs as [_ Hs]. by apply IH.
Qed.

Lemma trim_end_forall (P : ascii -> bool) (c : ascii) (s : string) :
  string_forall P s = true -> string_forall P (trim_end c s) = true.
Proof.
  induction s as [|c' s IH]; intros Hs; [done|]. cbn [trim_end].
  cbn in Hs. apply andb_prop in Hs as [Hc Hs]. specialize (IH Hs).
  destruct (trim_end c s) as [|c2 s2].
  - destruct (Ascii.eqb c' c); [done|]. cbn. by rewrite Hc.
  - cbn [string_forall] in *. by rewrite Hc, IH.
Qed.

Lemma trim_start_first (c : ascii) (s : string) :
  first_char (trim_start c s) ≠ Some c.
Proof.
  induction s as [|c' s IH]; [done|]. cbn [trim_start].
  destruct (Ascii.eqb_spec c' c) as [->|Hne]; [done|]. cbn. congruence.
Qed.

Lemma trim_end_last (c : ascii) (s : string) :
  last_char (trim_end c s) ≠ Some c.
Proof.
  induction s as [|c' s IH]; [done|]. cbn [trim_end].
  destruct (trim_end c s) as [|c2 s2] eqn:E.
  - destruct (Ascii.eqb_spec c' c) as [->|Hne]; [done|]. cbn. congruence.
  - exact IH.
Qed.

Lemma trim_end_first (c : ascii) (s : string) :
  first_char s ≠ Some c -> first_char (trim_end c s) ≠ Some c.
Proof.
  destruct s as [|c' s]; [done|]. cbn [trim_end first_char]. intros Hc.
  destruct (trim_end c s); [|done].
  by destruct (Ascii.eqb c' c).
Qed.

(** X2: whatever the caller selects, the cleaned selection has none of the
    white-space characters a string of the model can hold (tab, line feed,
    vertical tab, form feed, return, space, no-break space) and neither
    begins nor ends with a comma. *)
Theorem X2_clean_select_shape (select : string) :
  string_forall (fun c => negb (is_space c)) (clean_select select) = true
  /\ first_char (clean_select select) ≠ Some ","%char
  /\ last_char (clean_select select) ≠ Some ","%char.
Proof.
  unfold clean_select, trim_commas. split; [|split].
  - apply trim_end_forall, trim_start_forall.
    do 3 apply remove_first_forall. apply remove_spaces_clean.
  - apply trim_end_first, trim_start_first.
  - apply trim_end_last.
Qed.

(** ** Locales *)

(** X3: unless the locale of the query is ["*"], the query never asks the
    client for its locales: the answer is the same whatever
    [getLocales] would give, even a failure. *)
Theorem X3_single_locale_ignores_catalog
        (client : string -> obj -> result value)
        (locales locales' : result (list locale_desc))
        (fuel : nat) (path : string) (query : obj)
        (mediaTransform : option MediaTransform) :
  str_is (default VUndef (prop_get query "locale")) "*" = false ->
  _query client locales fuel path query mediaTransform
  = _query client locales' fuel path query mediaTransform.
Proof.
  intros Hlocale. unfold _query.
  rewrite prop_get_set_ne, Hlocale, andb_false_r by done. reflexivity.
Qed.

Lemma X3_single_locale_ignores_catalog_witness :
  _query EndToEnd.client (Ok []) 1 "/entries" [("locale", VStr "fr")] None
  = _query EndToEnd.client (Throw TypeError) 1 "/entries"
      [("locale", VStr "fr")] None.
Proof.
  apply (X3_single_locale_ignores_catalog EndToEnd.client (Ok [])
           (Throw TypeError) 1 "/entries" [("locale", VStr "fr")] None).
  reflexivity.
Defined.

(** ** Media descriptors *)

Lemma get_prop_nullish (h : heap) (v : value) (k : string) :
  is_nullish v = true -> get_prop h v k = Throw TypeError.
Proof. by destruct v. Qed.

Lemma get_prop_defined (h : heap) (v : value) (k : string) :
  is_nullish v = false -> exists x, get_prop h v k = Ok x.
Proof. destruct v; try discriminate; by eexists. Qed.

Lemma safe_path_step (h : heap) (v x : value) (k : string) (path : list string) :
  get_prop h v k = Ok x -> safe_path h v (k :: path) = safe_path h x path.
Proof. intros H. cbn [safe_path]. by rewrite H. Qed.

Lemma pick_keys (h : heap) (v : value) (ks : list string) (k : string) :
  prop_get (pick h v ks) k <> None -> k ∈ ks.
Proof.
  unfold pick. induction ks as [|k1 ks IH]; [done|]. cbn [omap list_omap].
  destruct (prop_get (own_props h v) k1); cbn [prop_get].
  - destruct (String.eqb_spec k1 k) as [->|_]; intros H.
    + apply elem_of_cons. by left.
    + apply elem_of_cons. right. by apply IH.
  - intros H. apply elem_of_cons. right. by apply IH.
Qed.

(** X4: [_toMedia] needs the [sys] and the [fields] of the asset, the
    [file] of the fields and the [details] of the file.  When one of them
    is [null] or [undefined] it throws a [TypeError], with or without a
    hook (the hook is not called).  Otherwise it builds a descriptor with
    the seven keys [_id], [url], [description], [contentType], [dimensions],
    [size], [version], in that order, whose [dimensions] has no key but
    [width] and [height]; without a hook that descriptor is the result, and
    with a hook the result is what the hook makes of that descriptor. *)
Theorem X4_toMedia_outcome (h : heap) (sys fields : value) :
  let file := safe_path h fields ["file"] in
  let details := safe_path h fields ["file"; "details"] in
  if is_nullish sys || is_nullish fields || is_nullish file || is_nullish details
  then forall mediaTransform,
      _toMedia h sys fields mediaTransform = Throw TypeError
  else exists media dimensions,
      _toMedia h sys fields None = Ok media
      /\ List.map fst media = MEDIA_KEYS
      /\ prop_get media "dimensions" = Some (VObj dimensions)
      /\ (forall k, prop_get dimensions k <> None -> k = "width" \/ k = "height")
      /\ forall hook,
          _toMedia h sys fields (Some hook)
          = match hook media with
            | Transformed media' => Ok media'
            | Failed msg => Throw (HookError msg)
            end.
Proof.
  intros file details. subst file details.
  destruct (is_nullish fields) eqn:Hf.
  { rewrite orb_true_r. intros mt. unfold _toMedia.
    by rewrite (get_prop_nullish h fields "file"). }
  destruct (get_prop_defined h fields "file" Hf) as [file Hfile].
  destruct (get_prop_defined h fields "description" Hf) as [description Hdesc].
  rewrite !(safe_path_step _ _ _ _ _ Hfile). cbn [safe_path].
  destruct (is_nullish sys) eqn:Hs.
  { cbn [orb]. intros mt. unfold _toMedia. rewrite Hfile, ret_bind, Hdesc, ret_bind.
    by rewrite (get_prop_nullish h sys "id"). }
  destruct (get_prop_defined h sys "id" Hs) as [id Hid].
  destruct (get_prop_defined h sys "revision" Hs) as [version Hver].
  cbn [orb].
  destruct (is_nullish file) eqn:Hfl.
  { cbn [orb]. intros mt. unfold _toMedia.
    rewrite Hfile, ret_bind, Hdesc, ret_bind, Hid, ret_bind.
    by rewrite (get_prop_nullish h file "url"). }
  destruct (get_prop_defined h file "url" Hfl) as [url Hurl].
  destruct (get_prop_defined h file "contentType" Hfl) as [contentType Hct].
  destruct (get_prop_defined h file "details" Hfl) as [details Hdet].
  rewrite Hdet. cbn [orb].
  destruct (is_nullish details) eqn:Hd.
  { intros mt. unfold _toMedia.
    rewrite Hfile, ret_bind, Hdesc, ret_bind, Hid, ret_bind, Hurl, ret_bind.
    rewrite Hct, ret_bind, Hdet, ret_bind.
    by rewrite (get_prop_nullish h details "image"). }
  destruct (get_prop_defined h details "image" Hd) as [image Himg].
  destruct (get_prop_defined h details "size" Hd) as [size Hsize].
  unfold _toMedia.
  rewrite Hfile, ret_bind, Hdesc, ret_bind, Hid, ret_bind, Hurl, ret_bind.
  rewrite Hct, ret_bind, Hdet, ret_bind, Himg, ret_bind, Hsize, ret_bind.
  rewrite Hver, ret_bind.
  eexists _, _. split; [reflexivity|]. split; [reflexivity|].
  split; [reflexivity|]. split.
  - intros k Hk. apply pick_keys in Hk.
    apply elem_of_cons in Hk as [->|Hk]; [by left|].
    apply elem_of_cons in Hk as [->|Hk]; [by right|]. by apply elem_of_nil in Hk.
  - intros hook. repeat rewrite ret_bind.
    rewrite Hurl, ret_bind, Hct, ret_bind, Hdet, ret_bind, Himg, ret_bind.
    by rewrite Hsize, ret_bind, ret_bind.
Qed.

(** ** The pivot of an asset *)

Lemma pivot_locale_cell h sys key field locales locale x :
  grouped sys locales ->
  get_prop h field locale = Ok x ->
  exists locales',
    pivot_locale h sys key field locales locale = Ok locales'
    /\ grouped sys locales'
    /\ forall l f,
        cell locales' l f
        = if decide (l = locale /\ f = key) then Some x else cell locales l f.
Proof.
  intros Hg Hx. unfold pivot_locale. rewrite Hx, ret_bind.
  assert (Hcell : forall base gf,
             grouped sys base ->
             prop_get base locale
             = Some (VObj [("sys", sys); ("fields", VObj gf)]) ->
             let locales' :=
               prop_set base locale
                 (VObj [("sys", sys); ("fields", VObj (prop_set gf key x))]) in
             grouped sys locales'
             /\ forall l f,
                 cell locales' l f
                 = if decide (l = locale /\ f = key) then Some x
                   else cell base l f).
  { intros base gf Hb Hl. split.
    - apply (prop_set_Forall (is_group sys)); [done|by eexists].
    - intros l f. unfold cell.
      destruct (decide (l = locale)) as [->|Hne].
      + rewrite prop_get_set_eq, Hl. cbn.
        destruct (decide (f = key)) as [->|Hf].
        * rewrite prop_get_set_eq. by rewrite decide_True.
        * rewrite prop_get_set_ne by done. rewrite decide_False by tauto. done.
      + rewrite prop_get_set_ne by done. by rewrite decide_False by tauto. }
  destruct (prop_get locales locale) as [g|] eqn:El.
  - destruct (prop_get_Forall (is_group sys) _ _ _ Hg El) as [gf ->].
    cbn. rewrite El. cbn. eexists. split; [reflexivity|]. by apply Hcell.
  - cbn. rewrite prop_get_set_eq. cbn.
    eexists. split; [reflexivity|].
    set (base := prop_set locales locale (VObj [("sys", sys); ("fields", VObj [])])).
    destruct (Hcell base [] ) as [Hg' Hc'].
    + apply (prop_set_Forall (is_group sys)); [done|by eexists].
    + apply prop_get_set_eq.
    + split; [exact Hg'|]. intros l f. rewrite Hc'.
      destruct (decide (l = locale /\ f = key)); [done|].
      unfold cell, base. destruct (decide (l = locale)) as [->|Hne].
      * rewrite prop_get_set_eq, El. reflexivity.
      * by rewrite prop_get_set_ne.
Qed.

Lemma pivot_field_cell h sys key lm :
  forall ks locales,
    NoDup ks -> (forall l, l ∈ ks -> is_Some (prop_get lm l)) ->
    grouped sys locales ->
    exists locales',
      foldM (pivot_locale h sys key (VObj lm)) ks locales = Ok locales'
      /\ grouped sys locales'
      /\ forall l f,
          cell locales' l f
          = if decide (f = key /\ l ∈ ks) then prop_get lm l else cell locales l f.
Proof.
  induction ks as [|k ks IH]; intros locales Hnd Hin Hg; cbn [foldM].
  - exists locales. split; [done|]. split; [done|]. intros l f.
    rewrite decide_False; [done|]. intros [_ H]. by apply elem_of_nil in H.
  - apply NoDup_cons in Hnd as [Hk Hnd].
    destruct (Hin k) as [x Hx]; [apply elem_of_cons; by left|].
    destruct (pivot_locale_cell h sys key (VObj lm) locales k x Hg)
      as (mid & Hrun & Hgm & Hcm); [cbn; by rewrite Hx|].
    rewrite Hrun, ret_bind.
    destruct (IH mid Hnd) as (fin & Hrun' & Hgf & Hcf); [|done|].
    { intros l Hl. apply Hin. apply elem_of_cons. by right. }
    exists fin. split; [done|]. split; [done|]. intros l f. rewrite Hcf, Hcm.
    destruct (decide (f = key /\ l ∈ ks)) as [[-> Hl]|Hn1].
    + rewrite decide_True; [done|]. split; [done|]. apply elem_of_cons. by right.
    + destruct (decide (l = k /\ f = key)) as [[-> ->]|Hn2].
      * rewrite decide_True; [done|]. split; [done|]. apply elem_of_cons. by left.
      * rewrite decide_False; [done|]. intros [-> Hl].
        apply elem_of_cons in Hl as [->|Hl]; tauto.
Qed.

Lemma prop_get_keys (o : obj) (k : string) :
  k ∈ List.map fst o <-> is_Some (prop_get o k).
Proof.
  split.
  - intros Hin. destruct (prop_get o k) eqn:E; [by eexists|].
    by apply prop_get_None_keys in E.
  - intros [x Hx]. destruct (decide (k ∈ List.map fst o)) as [|Hn]; [done|].
    apply prop_get_None_keys in Hn. congruence.
Qed.

Lemma pivot_cells h sys :
  forall fs locales,
    NoDup (List.map fst fs) -> locale_maps fs -> grouped sys locales ->
    exists locales',
      foldM (fun locales kv =>
               foldM (pivot_locale h sys (fst kv) (snd kv)) (keys h (snd kv)) locales)
            fs locales = Ok locales'
      /\ grouped sys locales'
      /\ forall l f,
          cell locales' l f
          = match prop_get fs f with
            | Some (VObj lm) =>
                if decide (l ∈ List.map fst lm) then prop_get lm l
                else cell locales l f
            | _ => cell locales l f
            end.
Proof.
  induction fs as [|[key val] fs IH]; intros locales Hnd Hmaps Hg; cbn [foldM].
  - by exists locales.
  - cbn [List.map fst] in Hnd. apply NoDup_cons in Hnd as [Hkey Hnd].
    destruct (Hmaps key val) as (lm & -> & Hlm); [apply elem_of_cons; by left|].
    cbn [fst snd]. change (keys h (VObj lm)) with (List.map fst lm).
    destruct (pivot_field_cell h sys key lm (List.map fst lm) locales Hlm)
      as (mid & Hrun & Hgm & Hcm); [by intros l ?%prop_get_keys | done |].
    rewrite Hrun, ret_bind.
    destruct (IH mid Hnd) as (fin & Hrun' & Hgf & Hcf); [|done|].
    { intros k v Hin. apply (Hmaps k). apply elem_of_cons. by right. }
    exists fin. split; [done|]. split; [done|]. intros l f.
    rewrite Hcf, Hcm. cbn [prop_get].
    destruct (String.eqb_spec key f) as [->|Hne].
    + apply prop_get_None_keys in Hkey. rewrite Hkey.
      destruct (decide (l ∈ List.map fst lm)).
      * by rewrite decide_True.
      * rewrite decide_False; [done | tauto].
    + assert (Hmid : (if decide (f = key /\ l ∈ List.map fst lm)
                      then prop_get lm l else cell locales l f)
                     = cell locales l f).
      { rewrite decide_False; [done|]. intros [-> _]. done. }
      rewrite Hmid. reflexivity.
Qed.

(** X5: the pivot of an asset transposes its fields.  When every field of
    the asset is a map from locale codes to values, [_parseAssetByLocale]
    returns groups such that [locales[l].fields[f]] is there exactly when
    [fields[f][l]] is, with the same value; and every group has the [sys]
    of the asset. *)
Theorem X5_pivot_transposes
        (h : heap) (asset sys : value) (fs : obj) :
  get_prop h asset "sys" = Ok sys ->
  get_prop h asset "fields" = Ok (VObj fs) ->
  plain_fields fs ->
  locale_maps fs ->
  exists locales,
    _parseAssetByLocale h asset = Ok locales
    /\ grouped sys locales
    /\ forall l f,
        cell locales l f
        = match prop_get fs f with
          | Some (VObj lm) => prop_get lm l
          | _ => None
          end.
Proof.
  intros Hsys Hfields Hplain Hmaps. unfold _parseAssetByLocale.
  rewrite Hfields, ret_bind, Hsys, ret_bind, each_plain_fields by done.
  destruct (pivot_cells h sys fs [] (proj2 Hplain) Hmaps)
    as (locales & Hrun & Hg & Hc); [constructor|].
  exists locales. split; [done|]. split; [done|]. intros l f. rewrite Hc.
  destruct (prop_get fs f) as [[| | | | | |lm| |]|]; try done.
  destruct (decide (l ∈ List.map fst lm)) as [|Hn]; [done|].
  apply prop_get_None_keys in Hn. by rewrite Hn.
Qed.

Lemma X5_pivot_transposes_witness :
  exists locales,
    _parseAssetByLocale [] Pivot.asset = Ok locales
    /\ grouped Pivot.sys locales
    /\ cell locales "fr" "title" = Some (VStr "Salut")
    /\ cell locales "fr" "file" = None.
Proof.
  destruct (X5_pivot_transposes [] Pivot.asset Pivot.sys Pivot.fields)
    as (locales & Hrun & Hg & Hc).
  - reflexivity.
  - reflexivity.
  - split; [reflexivity | apply (bool_decide_unpack (NoDup _)); vm_compute; exact I].
  - intros key val Hin. apply list_elem_of_In in Hin. simpl in Hin.
    repeat (destruct Hin as [[= <- <-]|Hin];
            [eexists; split; [reflexivity|];
             apply (bool_decide_unpack (NoDup _)); vm_compute; exact I|]).
    destruct Hin.
  - exists locales. split; [exact Hrun|]. split; [exact Hg|].
    split; rewrite Hc; reflexivity.
Defined.

(** ** The models of the top-level items *)

(** X7: when [_parseEntries] returns, it answers one model per top-level
    item, in the order of the items, and the model of an item is the
    object the index holds under the id of that item; so two items with
    the same id are answered by the same object. *)
Theorem X7_one_model_per_item
        (fuel : nat) (links : gmap string nat) (multiLocale : bool)
        (items : list value) (h : heap) (models : list value) (h' : heap) :
  Forall (fun e => no_refs e = true) items ->
  _parseEntries fuel links (VArr items) multiLocale h = Ok (models, h') ->
  Forall2 (model_of links) items models
  /\ length models = length items
  /\ forall i j e1 e2 m1 m2,
      items !! i = Some e1 -> items !! j = Some e2 ->
      models !! i = Some m1 -> models !! j = Some m2 ->
      record_key e1 = record_key e2 -> m1 = m2.
Proof.
  intros Hitems H. unfold _parseEntries in H. cbn [each] in H.
  rewrite index_entries_values in H.
  pose proof (parse_items_models _ _ _ _ _ _ _ Hitems H) as Hall.
  split; [done|]. split; [symmetry; by eapply Forall2_length|].
  intros i j e1 e2 m1 m2 Hi Hj Hmi Hmj Hkey.
  destruct (Forall2_lookup_lr _ _ _ _ _ _ Hall Hi Hmi) as (k1 & l1 & Hk1 & Hl1 & ->).
  destruct (Forall2_lookup_lr _ _ _ _ _ _ Hall Hj Hmj) as (k2 & l2 & Hk2 & Hl2 & ->).
  congruence.
Qed.

Lemma X7_one_model_per_item_witness :
  Forall2 (model_of Shared.links) [Shared.e1; Shared.e2] [VLoc 12; VLoc 13].
Proof.
  refine (proj1 (X7_one_model_per_item 2 Shared.links false
                   [Shared.e1; Shared.e2] Shared.heap0 [VLoc 12; VLoc 13]
                   Shared.heap2 _ _)).
  - repeat constructor.
  - reflexivity.
Defined.

(** ** What the flattener leaves alone, and the shape of what it answers *)

Lemma take_heap_set (b : nat) (h : heap) (ctx : nat) (k : string) (v : value) :
  b <= ctx -> take b (heap_set h ctx k v) = take b h.
Proof. intros Hb. unfold heap_set. by apply take_insert_ge. Qed.

Section Untouched.

(** The objects below [b] are the ones that were there before the walk;
    every node still to be visited fills an object at or above [b]. *)
Variables (locale fallback : string) (b : nat).

Local Abbreviation above := (Forall (fun n => b <= context n)).

Lemma visit_elements_untouched d elements itemContext h queue :
  b <= length h -> above queue ->
  match fold_left (visit_element d) elements (itemContext, h, queue) with
  | (_, h', queue') =>
      above queue' /\ take b h' = take b h /\ length h <= length h'
  end.
Proof.
  revert itemContext h queue.
  induction elements as [|x elements IH]; intros itemContext h queue Hb Hq;
    cbn [fold_left]; [done|].
  unfold visit_element at 2. destruct (typeof_object x); cbn [alloc].
  - specialize (IH (itemContext ++ [VLoc (length h)])%list (h ++ [[]])%list
                   (queue ++ [mkNode (length h) x (S d)])%list).
    destruct (fold_left _ _ _) as [[ic h'] q'].
    destruct IH as (Hq' & Ht & Hl).
    + rewrite length_app. lia.
    + apply Forall_app. split; [done|]. by repeat constructor.
    + rewrite length_app in Hl. simpl in Hl.
      split; [done|]. split; [|lia]. by rewrite Ht, take_app_le.
  - by apply IH.
Qed.

Lemma visit_prop_untouched ctx d h queue kv h' queue' :
  visit_prop locale fallback ctx d (h, queue) kv = Ok (h', queue') ->
  b <= ctx -> b <= length h -> above queue ->
  above queue' /\ take b h' = take b h /\ length h <= length h'.
Proof.
  intros H Hctx Hb Hq. destruct kv as [key valueObj]. unfold visit_prop in H.
  destruct (is_nullish valueObj); [by injection H as <- <-|].
  bind_inv H. rename a into val.
  destruct (negb (typeof_object val)).
  { injection H as <- <-.
    by rewrite take_heap_set, heap_set_length. }
  assert (Hobj : Ok (let '(c, h1) := alloc h [] in
                     (heap_set h1 ctx key (VLoc c),
                      (queue ++ [mkNode c val (S d)])%list)) = Ok (h', queue') ->
                 above queue' /\ take b h' = take b h /\ length h <= length h').
  { cbn [alloc]. intros [= <- <-].
    rewrite take_heap_set, heap_set_length, length_app, take_app_le by done.
    split; [|split; [done | lia]].
    apply Forall_app. split; [done|]. by repeat constructor. }
  destruct val; try (apply Hobj; exact H).
  pose proof (visit_elements_untouched d items [] h queue Hb Hq) as Hf.
  destruct (fold_left _ _ _) as [[ic h1] q1]. destruct Hf as (Hq1 & Ht & Hl).
  injection H as <- <-. by rewrite take_heap_set, heap_set_length.
Qed.

Lemma visit_props_untouched ctx d props h queue h' queue' :
  foldM (visit_prop locale fallback ctx d) props (h, queue) = Ok (h', queue') ->
  b <= ctx -> b <= length h -> above queue ->
  above queue' /\ take b h' = take b h /\ length h <= length h'.
Proof.
  intros H Hctx. revert h queue H.
  induction props as [|kv props IH]; cbn [foldM]; intros h queue H Hb Hq.
  - by injection H as <- <-.
  - bind_inv H. destruct a as [h1 q1].
    destruct (visit_prop_untouched _ _ _ _ _ _ _ E Hctx Hb Hq) as (Hq1 & Ht1 & Hl1).
    destruct (IH _ _ H) as (Hq' & Ht' & Hl'); [lia | done |].
    split; [done|]. split; [congruence | lia].
Qed.

Lemma walk_untouched fuel h queue h' :
  walk fuel locale fallback h queue = Ok h' ->
  b <= length h -> above queue ->
  take b h' = take b h /\ length h <= length h'.
Proof.
  revert h queue. induction fuel as [|fuel IH]; intros h [|current queue] H Hb Hq;
    cbn [walk] in H; try by injection H as <-.
  - discriminate.
  - bind_inv H. bind_inv H. destruct a0 as [h1 q1].
    apply Forall_cons in Hq as [Hc Hq].
    destruct (visit_props_untouched _ _ _ _ _ _ _ E0 Hc Hb Hq) as (Hq1 & Ht1 & Hl1).
    destruct (IH _ _ H) as [Ht' Hl']; [lia | done |].
    split; [congruence | lia].
Qed.

End Untouched.

Lemma flatten_item_fresh fuel locale fallback localeContext h rawItem
      localeContext' h' :
  flatten_item fuel locale fallback (localeContext, h) rawItem
  = Ok (localeContext', h') ->
  localeContext' = (localeContext ++ [VLoc (length h)])%list
  /\ take (length h) h' = h /\ length h < length h'.
Proof.
  intros H. unfold flatten_item in H. cbn [alloc] in H.
  bind_inv H. injection H as <- <-. split; [done|].
  destruct (walk_untouched locale fallback (length h) _ _ _ _ E) as [Ht Hl].
  - rewrite length_app. lia.
  - by repeat constructor.
  - rewrite length_app in Hl. simpl in Hl.
    rewrite Ht, take_app_le, firstn_all by done. split; [done | lia].
Qed.

Lemma flatten_items_fresh fuel locale fallback raw :
  forall localeContext h localeContext' h',
    foldM (flatten_item fuel locale fallback) raw (localeContext, h)
    = Ok (localeContext', h') ->
    take (length h) h' = h /\ length h <= length h'
    /\ exists ctxs, localeContext' = (localeContext ++ ctxs)%list
                    /\ length ctxs = length raw
                    /\ Forall (fun m => exists l, m = VLoc l
                                                  /\ length h <= l < length h') ctxs.
Proof.
  induction raw as [|x raw IH]; cbn [foldM]; intros lc h lc' h' H.
  - injection H as <- <-. rewrite firstn_all. split; [done|]. split; [done|].
    exists []. by rewrite app_nil_r.
  - bind_inv H. destruct a as [lc1 h1].
    apply flatten_item_fresh in E as (-> & Ht1 & Hl1).
    apply IH in H as (Ht & Hl & ctxs & -> & Hn & Hall).
    split; [|split; [lia|]].
    + rewrite <- Ht1 at 2. rewrite <- Ht.
      rewrite take_take. f_equal. lia.
    + exists (VLoc (length h) :: ctxs). rewrite <- app_assoc. split; [done|].
      split; [simpl; lia|]. constructor.
      * exists (length h). split; [done | lia].
      * eapply Forall_impl; [exact Hall|].
        intros m (l & -> & Hlo). exists l. split; [done | lia].
Qed.

Lemma flattened_mono (lo hi lo' hi' n : nat) (v : value) :
  lo' <= lo -> hi <= hi' -> flattened lo hi n v -> flattened lo' hi' n v.
Proof.
  intros Hlo Hhi (ctxs & -> & Hn & Hall). exists ctxs. split; [done|].
  split; [done|]. eapply Forall_impl; [exact Hall|].
  intros m (l & -> & Hl). exists l. split; [done | lia].
Qed.

Lemma flatten_locales_fresh fuel fallback raw :
  forall localeCodes localeItems h localeItems' h',
    foldM (fun '(localeItems, h) locale =>
             raw ← iterate (VArr raw);
             '(localeContext, h) ←
               foldM (flatten_item fuel locale fallback) raw ([], h);
             Ok (prop_set localeItems locale (VArr localeContext), h))
          localeCodes (localeItems, h) = Ok (localeItems', h') ->
    take (length h) h' = h /\ length h <= length h'
    /\ (forall c, c ∉ localeCodes -> prop_get localeItems' c = prop_get localeItems c)
    /\ (forall c, c ∈ localeCodes ->
                  exists v, prop_get localeItems' c = Some v
                            /\ flattened (length h) (length h') (length raw) v).
Proof.
  induction localeCodes as [|locale codes IH]; cbn [foldM]; intros li h li' h' H.
  - injection H as <- <-. rewrite firstn_all. split; [done|]. split; [done|].
    split; [done|]. intros c Hc. by apply elem_of_nil in Hc.
  - bind_inv H. destruct a as [li1 h1]. cbn [iterate] in E.
    rewrite ret_bind in E. bind_inv E. destruct a as [lc h2].
    injection E as <- <-.
    apply flatten_items_fresh in E0 as (Ht1 & Hl1 & ctxs & Hlc & Hn & Hall).
    simpl in Hlc. subst lc.
    apply IH in H as (Ht & Hl & Hout & Hin).
    split; [|split; [lia|split]].
    + rewrite <- Ht1 at 2. rewrite <- Ht. rewrite take_take. f_equal. lia.
    + intros c Hc. apply not_elem_of_cons in Hc as [Hne Hc].
      rewrite Hout by done. by apply prop_get_set_ne.
    + intros c Hc. destruct (decide (c ∈ codes)) as [Hc'|Hc'].
      * destruct (Hin c Hc') as (v & Hv & Hf). exists v. split; [done|].
        eapply flattened_mono; [| |exact Hf]; lia.
      * apply elem_of_cons in Hc as [->|Hc]; [|done].
        rewrite Hout by done. rewrite prop_get_set_eq. eexists. split; [done|].
        exists ctxs. split; [done|]. split; [done|].
        eapply Forall_impl; [exact Hall|].
        intros m (l & -> & Hlo). exists l. split; [done | lia].
Qed.

(** X8: the flattener only builds new objects: when it returns, every object
    that was in the heap before is still there, unchanged, so the models it
    was given (and whatever they share) are not touched.  Its answer is an
    object with one key per locale code of the catalog and no other key;
    under each code it holds an array with one element per item, each a
    reference to an object created by the call. *)
Theorem X8_flattener_builds_new_objects
        (fuel : nat) (locales : list locale_desc) (raw : list value)
        (h : heap) (answer : value) (h' : heap) :
  _flattenLocales fuel locales (VArr raw) h = Ok (answer, h') ->
  take (length h) h' = h
  /\ exists localeItems,
      answer = VObj localeItems
      /\ (forall c, c ∉ List.map code locales -> prop_get localeItems c = None)
      /\ (forall c, c ∈ List.map code locales ->
                    exists v, prop_get localeItems c = Some v
                              /\ flattened (length h) (length h') (length raw) v).
Proof.
  intros H. unfold _flattenLocales in H. bind_inv H. destruct a as [li h1].
  injection H as <- <-.
  apply flatten_locales_fresh in E as (Ht & _ & Hout & Hin).
  split; [done|]. exists li. split; [done|]. split; [|done].
  intros c Hc. by rewrite Hout.
Qed.

Lemma X8_flattener_builds_new_objects_witness :
  take 1 (LocaleFallback.models
          ++ [LocaleFallback.flat; LocaleFallback.flat])%list
  = LocaleFallback.models.
Proof.
  exact (proj1 (X8_flattener_builds_new_objects
                  1 LocaleFallback.locales [VLoc 0] LocaleFallback.models
                  (VObj [("en-US", VArr [VLoc 1]); ("fr", VArr [VLoc 2])])
                  (LocaleFallback.models
                   ++ [LocaleFallback.flat; LocaleFallback.flat])%list
                  eq_refl)).
Defined.

(** ** Fields that hold [null] *)

Lemma parse_field_nullish links self fields h key v :
  is_nullish v = true ->
  parse_field links self false (fields, h) (key, v) = Throw TypeError
  /\ parse_field links self true (fields, h) (key, v) = Ok (fields, h).
Proof. by destruct v. Qed.

(** In multi-locale mode, a key whose value is [null] or [undefined]
    wherever the walk meets it is not set. *)
Lemma parse_fields_nullish_key links self key vis :
  (forall x, (key, x) ∈ vis -> is_nullish x = true) ->
  forall fields h fields' h',
    foldM (parse_field links self true) vis (fields, h) = Ok (fields', h') ->
    prop_get fields key = None -> prop_get fields' key = None.
Proof.
  induction vis as [|[k val] vis IH]; cbn [foldM];
    intros Hvis fields h fields' h' H Hacc.
  - by injection H as <- <-.
  - bind_inv H. destruct a as [fields1 h1].
    apply (IH (fun y Hy => Hvis y (list_elem_of_further _ _ _ Hy)) _ _ _ _ H).
    destruct (decide (k = key)) as [->|Hne].
    + rewrite (proj2 (parse_field_nullish _ _ _ _ _ _
                        (Hvis val (list_elem_of_here _ _)))) in E.
      by injection E as <- <-.
    + by rewrite (parse_field_other _ _ _ _ _ _ _ _ _ _ E).
Qed.

(** X10: a field whose value is [null] or [undefined], in an entry whose
    fields object has distinct keys.  In single-locale mode the field
    callback reads [value.sys] and throws a [TypeError]; so, lodash walking
    the fields key by key (the fields object has no numeric [length]), an
    entry with such a field never resolves.  In multi-locale mode the value
    has no locale to visit and the callback leaves the object under
    construction as it was; so, whenever the entry resolves, the model does
    not have the key of that field. *)
Theorem X10_null_field
        (fuel : nat) (links : gmap string nat) (key : string) (v : value) :
  is_nullish v = true ->
  (forall fields h,
      parse_field links (_parseEntry fuel links) false (fields, h) (key, v)
      = Throw TypeError)
  /\ (forall fields h,
        parse_field links (_parseEntry fuel links) true (fields, h) (key, v)
        = Ok (fields, h))
  /\ (forall entry fs h,
        get_prop h entry "fields" = Ok (VObj fs) ->
        NoDup (List.map fst fs) ->
        (key, v) ∈ fs ->
        (array_like_length fs = None ->
         forall out h',
           _parseEntry (S fuel) links entry false h <> Ok (out, h'))
        /\ (forall out h',
              _parseEntry (S fuel) links entry true h = Ok (out, h') ->
              prop_get out key = None)).
Proof.
  intros Hv. split; [|split].
  - intros fields h. by apply parse_field_nullish.
  - intros fields h. by apply parse_field_nullish.
  - intros entry fs h Hfields Hnd Hin. split.
    + intros Hwalk out h' Hrun.
      apply list_elem_of_split in Hin as (pre & post & ->).
      simpl in Hrun. unfold parseEntry_body in Hrun.
      rewrite Hfields, ret_bind, each_plain_fields in Hrun by done.
      rewrite foldM_app in Hrun. bind_inv Hrun. destruct a as [acc h1].
      cbn [foldM] in Hrun.
      by rewrite (proj1 (parse_field_nullish _ _ _ _ _ _ Hv)) in Hrun.
    + intros out h' Hrun. simpl in Hrun. unfold parseEntry_body in Hrun.
      rewrite Hfields, ret_bind in Hrun.
      apply (parse_fields_nullish_key _ _ key _) with (2 := Hrun); [|done].
      intros x Hx. apply (each_visits _ _ _ _ Hnd) in Hx.
      by rewrite (prop_get_elem_of _ _ _ Hnd Hin) in Hx; subst x.
Qed.

Lemma X10_null_field_witness :
  _parseEntry 1 ∅ (record (entry_sys "e1" "post")
                           [("title", VStr "Hi"); ("body", VNull)]) false []
  = Throw TypeError
  /\ _parseEntry 1 ∅ (record (entry_sys "e1" "post")
                              [("title", VObj [("en-US", VStr "Hi")]);
                               ("body", VNull)]) true []
     = Ok ([("title", VObj [("en-US", VStr "Hi")])], [])
  /\ parse_field ∅ (_parseEntry 0 ∅) false ([], []) ("body", VNull)
     = Throw TypeError.
Proof.
  split; [reflexivity | split; [reflexivity|]].
  exact (proj1 (X10_null_field 0 ∅ "body" VNull eq_refl) [] []).
Defined.

(** ** Links to a missing id, in multi-locale mode *)

Section MissingLinkByLocale.

Variable links : gmap string nat.
Variable self : value -> bool -> action obj.

Lemma dereferenceLink_missing_at_locale locale ref id rest h :
  locale ≠ "" ->
  link_target ref = Some id ->
  index_get links (to_string id) = None ->
  _dereferenceLink links self (VObj ((locale, ref) :: rest)) (Some locale) h
  = Ok (VUndef, h).
Proof.
  intros Hlocale Hlink Hnone.
  destruct (link_target_sys _ _ h Hlink) as (sys & Hs & _ & Hid).
  unfold _dereferenceLink. cbn [truthy].
  apply String.eqb_neq in Hlocale. rewrite Hlocale. cbn [negb get_prop prop_get].
  rewrite String.eqb_refl. cbn [default from_option Datatypes.id].
  rewrite ret_bind.
  replace (truthy ref) with true by (by destruct ref).
  by rewrite ret_bind, Hs, ret_bind, Hid, ret_bind, Hnone.
Qed.

Lemma parse_locale_missing_link locale ref id linkType rest values h :
  locale ≠ "" ->
  link_target ref = Some id ->
  index_get links (to_string id) = None ->
  get_path h ref ["sys"; "linkType"] = Ok linkType ->
  parse_locale links self (VObj ((locale, ref) :: rest)) (values, h) locale
  = if str_is linkType "Asset" then Ok (VUndef, h)
    else assign_prop values locale VUndef h.
Proof.
  intros Hlocale Hlink Hnone Htype.
  destruct (link_target_sys _ _ h Hlink) as (sys & Hs & Hl & _).
  unfold parse_locale. cbn [get_prop prop_get]. rewrite String.eqb_refl.
  cbn [default from_option Datatypes.id]. rewrite ret_bind.
  cbn [get_path] in Htype. rewrite Hs, ret_bind in Htype.
  destruct (get_prop h sys "linkType") as [lt| |] eqn:Hlt; try discriminate.
  rewrite ret_bind in Htype. injection Htype as ->.
  destruct ref as [| | | | | |o| |]; try discriminate Hlink.
  rewrite Hs, ret_bind, Hl, ret_bind, Hlt, ret_bind.
  rewrite (dereferenceLink_missing_at_locale _ _ id) by done.
  by rewrite ret_bind.
Qed.

End MissingLinkByLocale.



(** ** Array fields, in single-locale mode *)

Lemma parseValues_plain links self locale h items :
  Forall (plain_item h) items ->
  map_action (fun item => _parseValue links self item locale) items h
  = Ok (items, h).
Proof.
  induction 1 as [|x items (sys & Hsys & Hplain) _ IH]; cbn [map_action];
    [reflexivity|].
  by rewrite (parseValue_plain _ _ _ _ _ _ Hsys Hplain), ret_bind, IH.
Qed.

Lemma map_action_length (f : value -> action value) :
  forall l h vs h', map_action f l h = Ok (vs, h') -> length vs = length l.
Proof.
  induction l as [|x l IH]; cbn [map_action]; intros h vs h' H.
  - by injection H as <- <-.
  - bind_inv H. destruct a as [y h1]. bind_inv H. destruct a as [ys h2].
    injection H as <- <-. simpl. f_equal. by eapply IH.
Qed.

Lemma parseValues_nullish links self locale h pre x post :
  Forall (plain_item h) pre ->
  is_nullish x = true ->
  map_action (fun item => _parseValue links self item locale)
             (pre ++ x :: post) h
  = Throw TypeError.
Proof.
  intros Hpre Hx.
  induction Hpre as [|y pre (sys & Hsys & Hplain) _ IH]; cbn [map_action app].
  - by destruct x.
  - by rewrite (parseValue_plain _ _ _ _ _ _ Hsys Hplain), ret_bind, IH.
Qed.

(** X12: in single-locale mode an array field, when its callback returns,
    sets its key to an array of truthy values no longer than the field's:
    unlike a plain field, an array that ends up empty is kept.  When every
    item has a [sys] to read (it is not [null] or [undefined]) and is not a
    link, the heap is left as it was and the array is the field's without
    its falsy items ([0], [false], the empty string).  An item that is
    [null] or [undefined], after items of that kind, is not removed: the
    callback reads its [sys] and throws a [TypeError]. *)
Theorem X12_array_field_is_compacted
        (fuel : nat) (links : gmap string nat) (key : string)
        (items : list value) (fields : obj) (h : heap) :
  (forall fields' h',
      parse_field links (_parseEntry fuel links) false (fields, h)
        (key, VArr items) = Ok (fields', h') ->
      exists kept,
        fields' = prop_set fields key (VArr kept)
        /\ prop_get fields' key = Some (VArr kept)
        /\ Forall (fun v => truthy v = true) kept
        /\ length kept <= length items)
  /\ (Forall (plain_item h) items ->
      parse_field links (_parseEntry fuel links) false (fields, h)
        (key, VArr items)
      = Ok (prop_set fields key (VArr (List.filter truthy items)), h))
  /\ (forall pre x post,
        items = (pre ++ x :: post)%list ->
        Forall (plain_item h) pre ->
        is_nullish x = true ->
        parse_field links (_parseEntry fuel links) false (fields, h)
          (key, VArr items)
        = Throw TypeError).
Proof.
  split; [|split].
  - intros fields' h' H. cbn [parse_field] in H.
    bind_inv H. destruct a as [parsed h1]. injection H as <- <-.
    exists (compact parsed). split; [done|]. split; [apply prop_get_set_eq|].
    apply map_action_length in E. unfold compact. split.
    + apply Forall_forall. intros v Hv.
      apply list_elem_of_In, filter_In in Hv. tauto.
    + rewrite <- E. apply List.filter_length_le.
  - intros Hplain. cbn [parse_field].
    by rewrite parseValues_plain.
  - intros pre x post -> Hpre Hx. cbn [parse_field].
    by rewrite parseValues_nullish.
Qed.

Lemma X12_array_field_is_compacted_witness :
  parse_field ∅ (_parseEntry 0 ∅) false ([], [])
    ("tags", VArr [VNum 0; VNum 1; VStr ""; VStr "a"])
  = Ok ([("tags", VArr [VNum 1; VStr "a"])], [])
  /\ parse_field ∅ (_parseEntry 0 ∅) false ([], []) ("tags", VArr [])
     = Ok ([("tags", VArr [])], [])
  /\ parse_field ∅ (_parseEntry 0 ∅) false ([], [])
       ("tags", VArr [VStr "a"; VNull])
     = Throw TypeError.
Proof.
  split; [|split].
  - apply (proj1 (proj2 (X12_array_field_is_compacted
                    0 ∅ "tags" [VNum 0; VNum 1; VStr ""; VStr "a"] [] []))).
    repeat constructor; by exists VUndef.
  - apply (proj1 (proj2 (X12_array_field_is_compacted 0 ∅ "tags" [] [] []))).
    constructor.
  - apply (proj2 (proj2 (X12_array_field_is_compacted
                           0 ∅ "tags" [VStr "a"; VNull] [] []))
             [VStr "a"] VNull [] eq_refl); [|reflexivity].
    repeat constructor; by exists VUndef.
Defined.

(** ** Links to an asset, in multi-locale mode *)

Section AssetLinkByLocale.

Variable links : gmap string nat.
Variable self : value -> bool -> action obj.

Lemma dereferenceLink_asset_at_locale locale ref id rest l h :
  locale ≠ "" ->
  link_target ref = Some id ->
  links !! to_string id = Some l ->
  is_deferred h l = false ->
  _dereferenceLink links self (VObj ((locale, ref) :: rest)) (Some locale) h
  = Ok (VLoc l, heap_set h l "_id" id).
Proof.
  intros Hlocale Hlink Hl Hdef.
  destruct (link_target_sys _ _ h Hlink) as (sys & Hs & _ & Hid).
  unfold _dereferenceLink. cbn [truthy].
  apply String.eqb_neq in Hlocale. rewrite Hlocale. cbn [negb get_prop prop_get].
  rewrite String.eqb_refl. cbn [default from_option Datatypes.id].
  rewrite ret_bind.
  replace (truthy ref) with true by (by destruct ref).
  rewrite ret_bind, Hs, ret_bind, Hid, ret_bind, (index_get_own _ _ _ Hl).
  change (truthy (default VUndef
                    (prop_get (heap_obj (heap_set h l "_id" id) l) "_deferred")))
    with (is_deferred (heap_set h l "_id" id) l).
  by rewrite is_deferred_heap_set, Hdef.
Qed.

Lemma parse_locale_asset_link locale ref id linkType rest values l h :
  locale ≠ "" ->
  link_target ref = Some id ->
  get_path h ref ["sys"; "linkType"] = Ok linkType ->
  str_is linkType "Asset" = true ->
  links !! to_string id = Some l ->
  is_deferred h l = false ->
  parse_locale links self (VObj ((locale, ref) :: rest)) (values, h) locale
  = Ok (VLoc l, heap_set h l "_id" id).
Proof.
  intros Hlocale Hlink Htype Hasset Hl Hdef.
  destruct (link_target_sys _ _ h Hlink) as (sys & Hs & Hnl & _).
  unfold parse_locale. cbn [get_prop prop_get]. rewrite String.eqb_refl.
  cbn [default from_option Datatypes.id]. rewrite ret_bind.
  cbn [get_path] in Htype. rewrite Hs, ret_bind in Htype.
  destruct (get_prop h sys "linkType") as [lt| |] eqn:Hlt; try discriminate.
  rewrite ret_bind in Htype. injection Htype as ->.
  destruct ref as [| | | | | |o| |]; try discriminate Hlink.
  rewrite Hs, ret_bind, Hnl, ret_bind, Hlt, ret_bind.
  rewrite (dereferenceLink_asset_at_locale _ _ id _ l) by done.
  by rewrite ret_bind, Hasset.
Qed.

End AssetLinkByLocale.



(** ** The keys of a flattened model *)

Lemma select_locale_primitive (h : heap) (locale fallback : string) (v : value) :
  match v with VNum _ | VBool _ => True | _ => False end ->
  select_locale h locale fallback v = Ok v.
Proof. by destruct v. Qed.

Section Keys.

Variables (locale fallback : string) (root : nat).

(** What one turn of the loop over the properties of the item does to the
    output object of the item: nothing for a value that is [null] or
    [undefined]; for any other value, the key is set. *)
Lemma visit_prop_sets d h queue key valueObj h' queue' :
  visit_prop locale fallback root d (h, queue) (key, valueObj) = Ok (h', queue') ->
  apart root h queue ->
  if is_nullish valueObj then h' = h
  else exists val x,
      select_locale h locale fallback valueObj = Ok val
      /\ prop_get (heap_obj h' root) key = Some x
      /\ (typeof_object val = false -> x = val).
Proof.
  intros H [Hlt Hq]. unfold visit_prop in H.
  destruct (is_nullish valueObj); [by injection H as <- _|].
  bind_inv H. rename a into val. exists val.
  cut (exists x, prop_get (heap_obj h' root) key = Some x
                 /\ (typeof_object val = false -> x = val)).
  { intros (x & Hx & Hval). by exists x. }
  destruct (typeof_object val) eqn:Hty; cbn [negb] in H.
  - assert (Hobj : Ok (let '(c, h1) := alloc h [] in
                       (heap_set h1 root key (VLoc c),
                        (queue ++ [mkNode c val (S d)])%list)) = Ok (h', queue') ->
                   exists x, prop_get (heap_obj h' root) key = Some x
                             /\ (true = false -> x = val)).
    { cbn [alloc]. intros [= <- <-]. exists (VLoc (length h)). split; [|done].
      rewrite heap_obj_set_eq by (rewrite length_app; lia).
      apply prop_get_set_eq. }
    destruct val; try (apply Hobj; exact H).
    pose proof (visit_elements_frame root d items [] h queue (conj Hlt Hq)) as Hf.
    destruct (fold_left _ _ _) as [[ic h1] q1]. destruct Hf as [[Hlt1 Hq1] Ho].
    injection H as <- <-. exists (VArr ic). split; [|done].
    rewrite heap_obj_set_eq by done. apply prop_get_set_eq.
  - injection H as <- <-. exists val. split; [|done].
    rewrite heap_obj_set_eq by done. apply prop_get_set_eq.
Qed.

Lemma visit_props_keys d props :
  forall h queue h' queue',
    foldM (visit_prop locale fallback root d) props (h, queue) = Ok (h', queue') ->
    apart root h queue ->
    NoDup (List.map fst props) ->
    (forall k, k ∉ List.map fst props ->
               prop_get (heap_obj h' root) k = prop_get (heap_obj h root) k)
    /\ (forall key v, (key, v) ∈ props ->
          if is_nullish v
          then prop_get (heap_obj h' root) key = prop_get (heap_obj h root) key
          else exists x, prop_get (heap_obj h' root) key = Some x
                         /\ (match v with VNum _ | VBool _ => True | _ => False end
                             -> x = v)).
Proof.
  induction props as [|[key0 v0] props IH]; cbn [foldM];
    intros h queue h' queue' H Ha Hnd.
  - injection H as <- <-. split; [done|]. intros key v Hin.
    by apply elem_of_nil in Hin.
  - bind_inv H. destruct a as [h1 q1].
    cbn [List.map fst] in Hnd. apply NoDup_cons in Hnd as [Hk0 Hnd].
    destruct (visit_prop_frame _ _ _ _ _ _ _ _ _ _ _ E Ha) as [Ha1 Hframe].
    destruct (IH _ _ _ _ H Ha1 Hnd) as [Hout Hin].
    pose proof (visit_prop_sets _ _ _ _ _ _ _ E Ha) as Hset.
    split.
    + intros k Hk. cbn [List.map fst] in Hk. apply not_elem_of_cons in Hk as [Hne Hk].
      rewrite Hout by done. apply Hframe. by right.
    + intros key v Hkv. apply elem_of_cons in Hkv as [[= -> ->]|Hkv].
      * rewrite (Hout key0 Hk0).
        destruct (is_nullish v0) eqn:Hn; [by subst h1|].
        destruct Hset as (val & x & Hsel & Hx & Hprim). exists x. split; [done|].
        intros Hv. rewrite select_locale_primitive in Hsel by done.
        injection Hsel as <-. apply Hprim. by destruct v0.
      * specialize (Hin key v Hkv).
        assert (Hne : key ≠ key0).
        { intros ->. apply Hk0. apply list_elem_of_fmap. by exists (key0, v). }
        destruct (is_nullish v); [|done].
        rewrite Hin. apply Hframe. by right.
Qed.

End Keys.

(** X14: the keys of a flattened model.  When the flattener has walked an
    item, the object it built for the item has a key for every property of
    the item whose value is not [null] or [undefined], and no other key; a
    property that holds a number or a boolean is copied as it is. *)
Theorem X14_flattened_keys
        (fuel : nat) (locale fallback : string) (rawItem : value)
        (localeContext localeContext' : list value) (h h' : heap) :
  is_nullish rawItem = false ->
  NoDup (List.map fst (entries h rawItem)) ->
  flatten_item fuel locale fallback (localeContext, h) rawItem
  = Ok (localeContext', h') ->
  let flat := heap_obj h' (length h) in
  (forall key, key ∉ List.map fst (entries h rawItem) -> prop_get flat key = None)
  /\ (forall key v, (key, v) ∈ entries h rawItem ->
        if is_nullish v then prop_get flat key = None
        else exists x, prop_get flat key = Some x
                       /\ (match v with VNum _ | VBool _ => True | _ => False end
                           -> x = v)).
Proof.
  intros Hitem Hnd Hrun flat. subst flat.
  unfold flatten_item in Hrun. cbn [alloc] in Hrun.
  bind_inv Hrun. injection Hrun as <- <-.
  destruct fuel as [|fuel]; cbn [walk] in E; [discriminate|].
  cbn [item context depth] in E. unfold object_entries in E.
  rewrite Hitem, ret_bind, entries_alloc_empty in E.
  bind_inv E. destruct a0 as [h1 q1].
  assert (Ha : apart (length h) (h ++ [[]]) []).
  { split; [rewrite length_app; simpl; lia | constructor]. }
  destruct (visit_props_frame _ _ _ _ _ _ _ _ _ _ E0 Ha) as [Ha1 _].
  destruct (visit_props_keys _ _ _ _ _ _ _ _ _ E0 Ha Hnd) as [Hout Hin].
  assert (Hroot : heap_obj (h ++ [[]]) (length h) = []).
  { unfold heap_obj. by rewrite lookup_app_r, Nat.sub_diag by lia. }
  rewrite Hroot in Hout, Hin. cbn [prop_get] in Hout, Hin.
  split.
  - intros key Hkey. rewrite (walk_frame _ _ _ _ _ _ _ _ E Ha1). by apply Hout.
  - intros key v Hkv. specialize (Hin key v Hkv).
    rewrite (walk_frame _ _ _ _ _ _ _ _ E Ha1). exact Hin.
Qed.

Lemma X14_flattened_keys_witness :
  prop_get (heap_obj [[("n", VNum 0); ("gone", VNull)]; [("n", VNum 0)]] 1) "gone"
  = None
  /\ prop_get (heap_obj [[("n", VNum 0); ("gone", VNull)]; [("n", VNum 0)]] 1) "n"
     = Some (VNum 0).
Proof.
  assert (Hnd : NoDup (List.map fst
                         (entries [[("n", VNum 0); ("gone", VNull)]] (VLoc 0)))).
  { apply (bool_decide_unpack (NoDup _)); vm_compute; exact I. }
  destruct (X14_flattened_keys 1 "fr" "en-US" (VLoc 0) [] [VLoc 1]
              [[("n", VNum 0); ("gone", VNull)]]
              [[("n", VNum 0); ("gone", VNull)]; [("n", VNum 0)]]
              eq_refl Hnd eq_refl) as [_ Hin].
  split.
  - apply (Hin "gone" VNull). apply list_elem_of_In. simpl. tauto.
  - reflexivity.
Defined.

(** ** A [null] among the items of an array *)

Lemma get_prop_outcome (h : heap) (v : value) (k : string) :
  (exists x, get_prop h v k = Ok x) \/ get_prop h v k = Throw TypeError.
Proof. destruct v; simpl; eauto. Qed.

Lemma select_locale_outcome (h : heap) (locale fallback : string) (v : value) :
  (exists x, select_locale h locale fallback v = Ok x)
  \/ select_locale h locale fallback v = Throw TypeError.
Proof.
  unfold select_locale.
  destruct (get_prop_outcome h v locale) as [[x ->]| ->]; [|by right].
  rewrite ret_bind. destruct (truthy x); [eauto|].
  destruct (get_prop_outcome h v fallback) as [[y ->]| ->]; [|by right].
  rewrite ret_bind. eauto.
Qed.

Lemma visit_elements_queue d elements :
  forall itemContext h queue,
    match fold_left (visit_element d) elements (itemContext, h, queue) with
    | (_, _, queue') =>
        exists added,
          queue' = (queue ++ added)%list
          /\ forall x, x ∈ elements -> typeof_object x = true ->
                       exists n, n ∈ added /\ item n = x
    end.
Proof.
  induction elements as [|x elements IH]; intros itemContext h queue;
    cbn [fold_left].
  - exists []. rewrite app_nil_r. split; [done|]. intros x Hx.
    by apply elem_of_nil in Hx.
  - unfold visit_element at 2. destruct (typeof_object x) eqn:Hx; cbn [alloc].
    + specialize (IH (itemContext ++ [VLoc (length h)])%list (h ++ [[]])%list
                     (queue ++ [mkNode (length h) x (S d)])%list).
      destruct (fold_left _ _ _) as [[ic h'] q'].
      destruct IH as (added & -> & Hall).
      exists (mkNode (length h) x (S d) :: added).
      rewrite <- app_assoc. split; [done|].
      intros y Hy Hty. apply elem_of_cons in Hy as [->|Hy].
      * eexists. split; [apply elem_of_cons; by left | done].
      * destruct (Hall y Hy Hty) as (n & Hn & Hitem).
        exists n. split; [apply elem_of_cons; by right | done].
    + specialize (IH (itemContext ++ [x])%list h queue).
      destruct (fold_left _ _ _) as [[ic h'] q'].
      destruct IH as (added & -> & Hall). exists added. split; [done|].
      intros y Hy Hty. apply elem_of_cons in Hy as [->|Hy]; [congruence|].
      by apply Hall.
Qed.

Section NullItem.

Variables (locale fallback : string).

Lemma visit_prop_outcome ctx d h queue kv :
  (exists h' added,
      visit_prop locale fallback ctx d (h, queue) kv = Ok (h', (queue ++ added)%list)
      /\ forall elements x,
          is_nullish (snd kv) = false ->
          select_locale h locale fallback (snd kv) = Ok (VArr elements) ->
          x ∈ elements -> typeof_object x = true ->
          exists n, n ∈ added /\ item n = x)
  \/ visit_prop locale fallback ctx d (h, queue) kv = Throw TypeError.
Proof.
  destruct kv as [key valueObj]. unfold visit_prop. cbn [snd].
  destruct (is_nullish valueObj).
  { left. exists h, []. rewrite app_nil_r. split; [done|]. discriminate. }
  destruct (select_locale_outcome h locale fallback valueObj) as [[val ->]| ->];
    [|by right].
  rewrite ret_bind. left.
  destruct (negb (typeof_object val)) eqn:Hty.
  { exists (heap_set h ctx key val), []. rewrite app_nil_r. split; [done|].
    intros elements x _ [= ->]. discriminate. }
  assert (Hobj : (forall elements, val ≠ VArr elements) ->
            exists h' added,
              Ok (let '(c, h1) := alloc h [] in
                  (heap_set h1 ctx key (VLoc c),
                   (queue ++ [mkNode c val (S d)])%list))
              = Ok (h', (queue ++ added)%list)
              /\ forall elements x,
                  false = false ->
                  Ok val = Ok (VArr elements) ->
                  x ∈ elements -> typeof_object x = true ->
                  exists n, n ∈ added /\ item n = x).
  { intros Hne. cbn [alloc]. eexists _, _. split; [done|].
    intros elements x _ [= Hv]. by destruct (Hne elements). }
  destruct val; try (apply Hobj; discriminate).
  pose proof (visit_elements_queue d items [] h queue) as Hq.
  destruct (fold_left _ _ _) as [[ic h1] q1]. destruct Hq as (added & -> & Hall).
  eexists _, added. split; [done|]. intros elements x _ [= <-]. apply Hall.
Qed.

Lemma visit_props_outcome ctx d props :
  forall h queue,
    (exists h' added,
        foldM (visit_prop locale fallback ctx d) props (h, queue)
        = Ok (h', (queue ++ added)%list))
    \/ foldM (visit_prop locale fallback ctx d) props (h, queue) = Throw TypeError.
Proof.
  induction props as [|kv props IH]; cbn [foldM]; intros h queue.
  - left. exists h, []. by rewrite app_nil_r.
  - destruct (visit_prop_outcome ctx d h queue kv) as [(h1 & added & -> & _)| ->];
      [|by right].
    rewrite ret_bind.
    destruct (IH h1 (queue ++ added)%list) as [(h' & added' & ->)| ->]; [|by right].
    left. exists h', (added ++ added')%list. by rewrite app_assoc.
Qed.

(** The walk visits the nodes in the order they were queued, so it reaches
    a node it cannot enumerate. *)
Lemma walk_null_item fuel :
  forall pre n post h,
    is_nullish (item n) = true ->
    length pre < fuel ->
    walk fuel locale fallback h (pre ++ n :: post) = Throw TypeError.
Proof.
  induction fuel as [|fuel IH]; intros pre n post h Hn Hfuel; [lia|].
  destruct pre as [|current pre]; cbn [app walk].
  - unfold object_entries. by rewrite Hn.
  - unfold object_entries. destruct (is_nullish (item current)); [done|].
    rewrite ret_bind.
    destruct (visit_props_outcome (context current) (depth current)
                (entries h (item current)) h (pre ++ n :: post)%list)
      as [(h1 & added & ->)| ->]; [|done].
    rewrite ret_bind, <- app_assoc. cbn [app].
    apply IH; [done|]. simpl in Hfuel. lia.
Qed.

End NullItem.

Lemma visit_props_null locale fallback ctx d props key v elements :
  forall h queue h' queue',
    foldM (visit_prop locale fallback ctx d) props (h, queue) = Ok (h', queue') ->
    (key, v) ∈ props ->
    is_nullish v = false ->
    (forall h0, select_locale h0 locale fallback v = Ok (VArr elements)) ->
    VNull ∈ elements ->
    exists pre n post,
      queue' = (pre ++ n :: post)%list /\ is_nullish (item n) = true.
Proof.
  intros h queue h' queue' H Hin Hv Hsel Hnull.
  apply list_elem_of_split in Hin as (p1 & p2 & ->).
  rewrite foldM_app in H. bind_inv H. destruct a as [h1 q1].
  cbn [foldM] in H. bind_inv H. destruct a as [h2 q2].
  destruct (visit_prop_outcome locale fallback ctx d h1 q1 (key, v))
    as [(h2' & added & Hrun & Hadded)|Hthrow]; [|congruence].
  rewrite Hrun in E0. injection E0 as <- <-.
  destruct (Hadded elements VNull Hv (Hsel h1) Hnull eq_refl) as (n & Hn & Hitem).
  apply list_elem_of_split in Hn as (a1 & a2 & ->).
  destruct (visit_props_outcome locale fallback ctx d p2 h2'
              (q1 ++ a1 ++ n :: a2)%list) as [(h3 & added' & Hrest)|Hthrow];
    [|congruence].
  rewrite Hrest in H. injection H as <- <-.
  exists (q1 ++ a1)%list, n, (a2 ++ added')%list.
  split; [by rewrite <- !app_assoc | by rewrite Hitem].
Qed.

(** X15: an item with a property whose value, selected for the locale, is
    an array with a [null] among its items cannot be flattened: the walk
    queues the [null] as an object to copy and throws a [TypeError] when it
    comes to enumerate it.  This holds for every budget of turns from some
    budget on, so it is the walk that throws and not the budget that runs
    out. *)
Theorem X15_null_array_item_throws
        (locale fallback key : string) (rawItem v : value)
        (elements localeContext : list value) (h : heap) :
  is_nullish rawItem = false ->
  (key, v) ∈ entries h rawItem ->
  is_nullish v = false ->
  (forall h0, select_locale h0 locale fallback v = Ok (VArr elements)) ->
  VNull ∈ elements ->
  exists fuel0, forall fuel,
      fuel0 <= fuel ->
      flatten_item fuel locale fallback (localeContext, h) rawItem
      = Throw TypeError.
Proof.
  intros Hitem Hin Hv Hsel Hnull.
  destruct (visit_props_outcome locale fallback (length h) 0 (entries h rawItem)
              (h ++ [[]])%list []) as [(h1 & added & Hrun)|Hthrow].
  - destruct (visit_props_null _ _ _ _ _ _ _ _ _ _ _ _ Hrun Hin Hv Hsel Hnull)
      as (pre & n & post & Hq & Hn).
    exists (2 + length pre). intros [|fuel] Hfuel; [lia|].
    unfold flatten_item. cbn [alloc walk item context depth].
    unfold object_entries. rewrite Hitem, ret_bind, entries_alloc_empty.
    rewrite Hrun, ret_bind, Hq.
    rewrite (walk_null_item locale fallback fuel pre n post h1 Hn) by lia.
    reflexivity.
  - exists 1. intros [|fuel] Hfuel; [lia|].
    unfold flatten_item. cbn [alloc walk item context depth].
    unfold object_entries. rewrite Hitem, ret_bind, entries_alloc_empty.
    by rewrite Hthrow.
Qed.

Lemma X15_null_array_item_throws_witness :
  (exists fuel0, forall fuel,
      fuel0 <= fuel ->
      flatten_item fuel "fr" "en-US" ([], [])
        (VObj [("list", VArr [VNum 1; VNull])])
      = Throw TypeError)
  /\ _flattenLocales 2 [mkLocale "fr" None]
       (VArr [VObj [("list", VArr [VNum 1; VNull])]]) []
     = Throw TypeError.
Proof.
  split; [|reflexivity].
  apply (X15_null_array_item_throws "fr" "en-US" "list"
           (VObj [("list", VArr [VNum 1; VNull])]) (VArr [VNum 1; VNull])
           [VNum 1; VNull] [] []).
  - reflexivity.
  - apply list_elem_of_In. simpl. tauto.
  - reflexivity.
  - intros h0. reflexivity.
  - apply list_elem_of_In. simpl. tauto.
Defined.

(** ** The answer of a multi-locale query *)

(** X16: the answer to a query whose locale is ["*"].  The client's locales
    are needed, and the [items] of the answer are not an array but an object
    with exactly one key per locale code of the catalog; under each code it
    holds an array with as many elements as the client's answer has items. *)
Theorem X16_multi_locale_answer
        (client : string -> obj -> result value)
        (catalog : result (list locale_desc))
        (fuel : nat) (path : string) (query : obj)
        (mediaTransform : option MediaTransform)
        (answer : value) (h : heap) (log : console) :
  prop_get query "locale" = Some (VStr "*") ->
  _query client catalog fuel path query mediaTransform = Ok (answer, h, log) ->
  exists locales sent json localeItems skip limit total,
    catalog = Ok locales
    /\ client path sent = Ok json
    /\ answer = VObj [("items", VObj localeItems); ("skip", skip);
                      ("limit", limit); ("total", total)]
    /\ (forall c, c ∉ List.map code locales -> prop_get localeItems c = None)
    /\ (forall c, c ∈ List.map code locales ->
          exists ctxs,
            prop_get localeItems c = Some (VArr ctxs)
            /\ forall raws,
                no_refs json = true ->
                get_prop [] json "items" = Ok (VArr raws) ->
                length ctxs = length raws).
Proof.
  intros Hlocale H. unfold _query in H.
  rewrite prop_get_set_ne, Hlocale in H by done.
  change (truthy (default VUndef (Some (VStr "*")))
          && str_is (default VUndef (Some (VStr "*"))) "*") with true in H.
  bind_inv H. rename a into json. bind_inv H. rename a into ix.
  bind_inv H. rename a into entries. bind_inv H. destruct a as [models h1].
  bind_inv H. destruct a as [items h2]. bind_inv E3. rename a into locales.
  bind_inv H. bind_inv H. bind_inv H. injection H as <- <- <-.
  unfold _flattenLocales in E3. bind_inv E3. destruct a2 as [localeItems h3].
  injection E3 as <- <-.
  apply flatten_locales_fresh in E8 as (_ & _ & Hout & Hin).
  exists locales. eexists _, json, localeItems, a, a0, a1.
  split; [done|]. split; [exact E|]. split; [done|]. split.
  - intros c Hc. by rewrite Hout.
  - intros c Hc. destruct (Hin c Hc) as (v & Hv & ctxs & -> & Hlen & _).
    exists ctxs. split; [done|]. intros raws Hjson Hitems.
    rewrite (get_prop_no_refs _ [] json) in E1 by done.
    rewrite Hitems in E1. injection E1 as <-.
    unfold _parseEntries in E2. apply map_action_length in E2.
    cbn [each] in E2. rewrite index_entries_values in E2. congruence.
Qed.

Lemma X16_multi_locale_answer_witness :
  exists localeItems,
    prop_get localeItems "de" = None
    /\ exists ctxs, prop_get localeItems "fr" = Some (VArr ctxs)
                    /\ length ctxs = 1.
Proof.
  destruct (X16_multi_locale_answer
              LocaleFallback.client (Ok LocaleFallback.locales) 1 "/entries"
              [("locale", VStr "*")] None
              (VObj [("items", VObj [("en-US", VArr [VLoc 13]);
                                     ("fr", VArr [VLoc 14])]);
                     ("skip", VUndef); ("limit", VUndef); ("total", VUndef)])
              (RUNTIME
               ++ [[("count", VObj [("en-US", VNum 5); ("fr", VNum 0)]);
                    ("_id", VStr "e1"); ("_type", VStr "post")];
                   [("count", VNum 5); ("_id", VStr "e1"); ("_type", VStr "post")];
                   [("count", VNum 5); ("_id", VStr "e1");
                    ("_type", VStr "post")]])%list
              [] eq_refl eq_refl)
    as (locales & sent & json & localeItems & skip & limit & total
        & Hcat & Hsent & _ & Hout & Hin).
  injection Hcat as <-. injection Hsent as <-.
  exists localeItems. split.
  - apply Hout. apply (bool_decide_unpack (_ ∉ _)). vm_compute. exact I.
  - destruct (Hin "fr") as (ctxs & Hfr & Hlen).
    + apply list_elem_of_In. simpl. tauto.
    + exists ctxs. split; [done|]. by apply (Hlen [LocaleFallback.e1]).
Defined.

(** ** An asset without a file *)

Lemma locale_medias_without_file h sys mediaTransform locales :
  forall groups media log,
    grouped sys locales -> NoDup (List.map fst locales) ->
    (forall l, cell locales l "file" = None) ->
    (forall kv, kv ∈ groups -> kv ∈ locales) ->
    foldM (locale_media h sys mediaTransform) groups (media, log) = Ok (media, log).
Proof.
  intros groups media log Hg Hnd Hcell.
  induction groups as [|[l group] groups IH]; cbn [foldM]; intros Hsub; [done|].
  assert (Hin : (l, group) ∈ locales) by (apply Hsub, elem_of_cons; by left).
  rewrite locale_media_outcome.
  assert (Hnone : locale_descriptor h sys mediaTransform group = Ok None).
  { pose proof (proj1 (Forall_forall _ _) Hg _ Hin) as [gf Hgroup].
    cbn [snd] in Hgroup. subst group.
    specialize (Hcell l). unfold cell in Hcell.
    rewrite (prop_get_elem_of _ _ _ Hnd Hin) in Hcell. cbn in Hcell.
    unfold locale_descriptor. cbn. by rewrite Hcell. }
  rewrite Hnone, ret_bind. apply IH.
  intros kv Hkv. apply Hsub, elem_of_cons. by right.
Qed.

(** X17: an included asset whose fields have no [file].  In single-locale
    mode indexing it throws a [TypeError], with or without a hook, and the
    query fails with it.  In multi-locale mode the asset is indexed all the
    same, as an object without any locale, and nothing is logged. *)
Theorem X17_asset_without_file
        (mediaTransform : option MediaTransform) (ix : index)
        (asset sys id : value) (fs : obj) :
  get_prop (store ix) asset "sys" = Ok sys ->
  get_prop (store ix) sys "id" = Ok id ->
  get_prop (store ix) asset "fields" = Ok (VObj fs) ->
  prop_get fs "file" = None ->
  link_asset false mediaTransform ix asset = Throw TypeError
  /\ (plain_fields fs -> locale_maps fs ->
      link_asset true mediaTransform ix asset
      = Ok (mkIndex (<[to_string id := length (store ix)]> (links ix))
                    (store ix ++ [[]])%list (logged ix))).
Proof.
  intros Hsys Hid Hfields Hfile. split.
  - unfold link_asset, asset_media. rewrite !Hsys, !ret_bind, Hfields, ret_bind.
    unfold _toMedia. cbn [get_prop]. rewrite Hfile, !ret_bind, Hid. reflexivity.
  - intros Hplain Hmaps.
    destruct (pivot_cells (store ix) sys fs [] (proj2 Hplain) Hmaps)
      as (locales & Hrun & Hg & Hc); [constructor|].
    assert (Hpivot : _parseAssetByLocale (store ix) asset = Ok locales).
    { unfold _parseAssetByLocale.
      by rewrite Hfields, ret_bind, Hsys, ret_bind, each_plain_fields. }
    pose proof (parseAssetByLocale_groups _ _ _ Hpivot) as Hok.
    unfold link_asset, asset_media.
    rewrite !Hsys, !ret_bind, Hpivot, ret_bind, each_groups by done.
    rewrite (locale_medias_without_file _ _ _ locales); try done.
    + by rewrite ret_bind, Hid.
    + apply Hok.
    + intros l. rewrite Hc, Hfile. reflexivity.
Qed.

Lemma X17_asset_without_file_witness :
  link_asset false None (mkIndex ∅ [] [])
    (record (VObj [("id", VStr "a1")]) [("title", VObj [("en-US", VStr "Logo")])])
  = Throw TypeError
  /\ link_asset true None (mkIndex ∅ [] [])
       (record (VObj [("id", VStr "a1")]) [("title", VObj [("en-US", VStr "Logo")])])
     = Ok (mkIndex (<["a1" := 0%nat]> ∅) [[]] []).
Proof.
  destruct (X17_asset_without_file None (mkIndex ∅ [] [])
              (record (VObj [("id", VStr "a1")])
                      [("title", VObj [("en-US", VStr "Logo")])])
              (VObj [("id", VStr "a1")]) (VStr "a1")
              [("title", VObj [("en-US", VStr "Logo")])]
              eq_refl eq_refl eq_refl eq_refl) as [Hsingle Hmulti].
  split; [exact Hsingle|]. apply Hmulti.
  - split; [reflexivity|]. apply (bool_decide_unpack (NoDup _)); vm_compute; exact I.
  - intros key val Hin. apply list_elem_of_singleton in Hin. injection Hin as -> ->.
    eexists. split; [reflexivity|].
    apply (bool_decide_unpack (NoDup _)); vm_compute; exact I.
Defined.
